(** * Portfolio page: content resolution, fence parsing and view population

    A shallow embedding of [src/index.tsx]: the JSON-fence helper
    [parseGeminiJson], the view populator [populatePortfolioContent], the
    content resolver [generatePortfolioContent] and the navigation menu
    [setupMobileMenu], together with the parts of the JavaScript platform
    they rest on (strings of UTF-16 code units, [String.prototype.trim], the
    regular expression of the fence, [JSON.parse], [JSON.stringify], property
    access, string conversion, [localStorage], the three DOM containers, the
    HTML fragment parser behind [innerHTML] and class lists). *)

From Stdlib Require Import ZArith NArith List Ascii String Lia Bool.
From Stdlib Require Import SpecFloat.
From stdpp Require Import gmap list.

Local Open Scope N_scope.

(** ** Strings

    A JavaScript string is a sequence of 16-bit code units. *)

Abbreviation jsstring := (list N).

(** The code units of an ASCII literal. *)
Definition js (s : string) : jsstring :=
  List.map N_of_ascii (list_ascii_of_string s).

(** The one character an ASCII literal of this file cannot hold. *)
Definition dquote : jsstring := [34].

(** ECMAScript WhiteSpace and LineTerminator code units: what
    [String.prototype.trim] strips and what [\s] matches. *)
Definition is_space (c : N) : bool :=
  (c =? 9) || (c =? 10) || (c =? 11) || (c =? 12) || (c =? 13) || (c =? 32)
  || (c =? 160) || (c =? 0x1680) || ((0x2000 <=? c) && (c <=? 0x200A))
  || (c =? 0x2028) || (c =? 0x2029) || (c =? 0x202F) || (c =? 0x205F)
  || (c =? 0x3000) || (c =? 0xFEFF).

Fixpoint trim_start (s : jsstring) : jsstring :=
  match s with
  | c :: s' => if is_space c then trim_start s' else s
  | [] => []
  end.

Fixpoint trim_end (s : jsstring) : jsstring :=
  match s with
  | [] => []
  | c :: s' =>
      match trim_end s' with
      | [] => if is_space c then [] else [c]
      | t => c :: t
      end
  end.

(** [String.prototype.trim] *)
Definition trim (s : jsstring) : jsstring := trim_end (trim_start s).

(** ** Regular expressions

    A backtracking matcher for the fragment of the regular expression syntax
    that the fence pattern uses: literal characters, sequencing, greedy and
    lazy repetition of a character class, one capturing group and the two
    anchors (no flags, so [^] and [$] are the ends of the input). *)

Inductive regex :=
| RChar (c : N)
| RSeq (r1 r2 : regex)
| RStar (greedy : bool) (cls : N -> bool)
| RGroup (r : regex)
| RBol
| REol.

(** Matcher state: end index of the match so far, rest of the input, capture. *)
Record mstate := MState {
  m_pos : nat;
  m_rest : jsstring;
  m_cap : option jsstring
}.

Fixpoint star_greedy (cls : N -> bool) (pos : nat) (rest : jsstring)
    (cap : option jsstring) (k : mstate -> option mstate) : option mstate :=
  match rest with
  | c :: rest' =>
      if cls c then
        match star_greedy cls (S pos) rest' cap k with
        | Some r => Some r
        | None => k (MState pos rest cap)
        end
      else k (MState pos rest cap)
  | [] => k (MState pos rest cap)
  end.

Fixpoint star_lazy (cls : N -> bool) (pos : nat) (rest : jsstring)
    (cap : option jsstring) (k : mstate -> option mstate) : option mstate :=
  match k (MState pos rest cap) with
  | Some r => Some r
  | None =>
      match rest with
      | c :: rest' => if cls c then star_lazy cls (S pos) rest' cap k else None
      | [] => None
      end
  end.

Fixpoint rmatch (r : regex) (st : mstate) (k : mstate -> option mstate)
    : option mstate :=
  match r with
  | RChar c =>
      match m_rest st with
      | x :: rest' =>
          if x =? c then k (MState (S (m_pos st)) rest' (m_cap st)) else None
      | [] => None
      end
  | RSeq r1 r2 => rmatch r1 st (fun st' => rmatch r2 st' k)
  | RStar true cls => star_greedy cls (m_pos st) (m_rest st) (m_cap st) k
  | RStar false cls => star_lazy cls (m_pos st) (m_rest st) (m_cap st) k
  | RGroup r1 =>
      rmatch r1 st (fun st' =>
        k (MState (m_pos st') (m_rest st')
             (Some (take (m_pos st' - m_pos st) (m_rest st)))))
  | RBol => if Nat.eqb (m_pos st) 0 then k st else None
  | REol => match m_rest st with [] => k st | _ => None end
  end.

(** [RegExp.prototype.exec] without the global or sticky flag: the first start
    index at which the pattern matches, from index 0 on. *)
Fixpoint exec_from (r : regex) (pos : nat) (rest : jsstring) : option mstate :=
  match rmatch r (MState pos rest None) Some with
  | Some st => Some st
  | None =>
      match rest with
      | _ :: rest' => exec_from r (S pos) rest'
      | [] => None
      end
  end.

(** [String.prototype.match]: [None] is JavaScript's [null]; of the match array
    only element 1, the capture, is kept ([None] there is [undefined]). *)
Definition string_match (s : jsstring) (r : regex) : option (option jsstring) :=
  match exec_from r 0 s with
  | Some st => Some (m_cap st)
  | None => None
  end.

Fixpoint RLit (s : jsstring) (r : regex) : regex :=
  match s with
  | c :: s' => RSeq (RChar c) (RLit s' r)
  | [] => r
  end.

Definition any_char (c : N) : bool := is_space c || negb (is_space c).

Definition fence_open : jsstring := js "```json".
Definition fence_close : jsstring := js "```".

(** The pattern of [parseGeminiJson], read left to right:
    ^ ```json \s* ( [\s\S]*? ) \s* ``` $ *)
Definition fence_regex : regex :=
  RSeq RBol
    (RLit fence_open
       (RSeq (RStar true is_space)
          (RSeq (RGroup (RStar false any_char))
             (RSeq (RStar true is_space)
                (RLit fence_close REol))))).

(** ** Numbers

    A JavaScript Number is an IEEE 754 binary64 value: [spec_float] of the
    Standard Library, in canonical form (mantissa below 2^53, exponent
    between -1074 and 971). *)

Abbreviation number := spec_float.

Local Open Scope Z_scope.

Definition is_digit (c : N) : bool := ((48 <=? c) && (c <=? 57))%N.

(** The value of a string of decimal digits. *)
Definition digits_value (ds : jsstring) : Z :=
  fold_left (fun acc c => 10 * acc + (Z.of_N c - 48)) ds 0.

(** The binary64 value nearest to [num / den] (both positive), ties to even;
    too large a value becomes an infinity, too small a value a zero. *)
Definition round_ratio (neg : bool) (num den : Z) : number :=
  let l := Z.log2 num - Z.log2 den in
  let scaled (ex : Z) : Z * Z :=
    if ex <? 0 then (num * 2 ^ (- ex), den) else (num, den * 2 ^ ex) in
  let ex0 := l - 52 in
  let '(n0, d0) := scaled ex0 in
  let ex1 := if n0 / d0 <? 2 ^ 52 then ex0 - 1 else ex0 in
  let ex := Z.max ex1 (-1074) in
  let '(n1, d1) := scaled ex in
  let q := n1 / d1 in
  let r := n1 mod d1 in
  let up := (d1 <? 2 * r) || ((d1 =? 2 * r) && Z.odd q) in
  let q' := if up then q + 1 else q in
  let '(m, e) := if q' =? 2 ^ 53 then (2 ^ 52, ex + 1) else (q', ex) in
  if 971 <? e then S754_infinity neg
  else match m with
       | Zpos p => S754_finite neg p e
       | _ => S754_zero neg
       end.

(** The Number value of the decimal [m * 10 ^ e]. *)
Definition round_decimal (neg : bool) (m e : Z) : number :=
  if m <=? 0 then S754_zero neg
  else if e <? 0 then round_ratio neg m (10 ^ (- e))
  else round_ratio neg (m * 10 ^ e) 1.

(** The digits at the front of the input, and the rest. *)
Fixpoint span_digits (s : jsstring) : jsstring * jsstring :=
  match s with
  | c :: s' =>
      if is_digit c then let '(ds, r) := span_digits s' in (c :: ds, r)
      else ([], s)
  | [] => ([], [])
  end.

(** The JSON number grammar: an optional minus sign, an integer part (a single
    0, or digits that do not start with 0), an optional fraction (a point and
    at least one digit) and an optional exponent (e or E, an optional sign, at
    least one digit). Each part is read from the front of the input and
    returned with the rest of the input. *)

Definition lex_sign (s : jsstring) : bool * jsstring :=
  match s with
  | c :: r => if (c =? 45)%N then (true, r) else (false, s)
  | [] => (false, s)
  end.

Definition lex_int (s : jsstring) : option (jsstring * jsstring) :=
  let '(ip, r) := span_digits s in
  match ip with
  | [] => None
  | d :: ip' =>
      if (d =? 48)%N && negb (Nat.eqb (length ip') 0) then None
      else Some (ip, r)
  end.

Definition lex_frac (s : jsstring) : option (jsstring * jsstring) :=
  match s with
  | c :: r =>
      if (c =? 46)%N then
        let '(fp, r') := span_digits r in
        match fp with
        | [] => None
        | _ => Some (fp, r')
        end
      else Some ([], s)
  | [] => Some ([], s)
  end.

Definition lex_exp (s : jsstring) : option (Z * jsstring) :=
  match s with
  | c :: r =>
      if (c =? 101)%N || (c =? 69)%N then
        let '(eneg, r1) :=
          match r with
          | g :: r' =>
              if (g =? 45)%N then (true, r')
              else if (g =? 43)%N then (false, r')
              else (false, r)
          | [] => (false, r)
          end in
        let '(ep, r2) := span_digits r1 in
        match ep with
        | [] => None
        | _ => Some (if eneg then - digits_value ep else digits_value ep, r2)
        end
      else Some (0, s)
  | [] => Some (0, s)
  end.

(** The number read from the front of the input, and the rest. *)
Definition lex_number (s : jsstring) : option (number * jsstring) :=
  let '(neg, s1) := lex_sign s in
  match lex_int s1 with
  | Some (ip, s2) =>
      match lex_frac s2 with
      | Some (fp, s3) =>
          match lex_exp s3 with
          | Some (ex, s4) =>
              Some (round_decimal neg (digits_value (ip ++ fp))
                      (ex - Z.of_nat (length fp)), s4)
          | None => None
          end
      | None => None
      end
  | None => None
  end.

(** *** Number::toString (radix 10) *)

Fixpoint uint_chars (u : Decimal.uint) : jsstring :=
  match u with
  | Decimal.Nil => []
  | Decimal.D0 u' => 48%N :: uint_chars u'
  | Decimal.D1 u' => 49%N :: uint_chars u'
  | Decimal.D2 u' => 50%N :: uint_chars u'
  | Decimal.D3 u' => 51%N :: uint_chars u'
  | Decimal.D4 u' => 52%N :: uint_chars u'
  | Decimal.D5 u' => 53%N :: uint_chars u'
  | Decimal.D6 u' => 54%N :: uint_chars u'
  | Decimal.D7 u' => 55%N :: uint_chars u'
  | Decimal.D8 u' => 56%N :: uint_chars u'
  | Decimal.D9 u' => 57%N :: uint_chars u'
  end.

(** The decimal digits of a natural number, most significant first. *)
Definition digits_of (z : Z) : jsstring := uint_chars (N.to_uint (Z.to_N z)).

(** The digits without the zeros at their end. *)
Fixpoint strip_zeros_end (ds : jsstring) : jsstring :=
  match ds with
  | [] => []
  | c :: ds' =>
      match strip_zeros_end ds' with
      | [] => if (c =? 48)%N then [] else [c]
      | t => c :: t
      end
  end.

(** [num / den < 10 ^ n] *)
Definition lt_pow10 (num den n : Z) : bool :=
  if n <? 0 then num * 10 ^ (- n) <? den else num <? den * 10 ^ n.

(** The least exponent from [n] on with [num / den < 10 ^ n]. *)
Fixpoint least_pow10 (fuel : nat) (num den n : Z) : Z :=
  match fuel with
  | O => n
  | S f => if lt_pow10 num den n then n else least_pow10 f num den (n + 1)
  end.

(** The same Number, sign of zero included. *)
Definition number_eqb (x y : number) : bool :=
  match x, y with
  | S754_zero a, S754_zero b => Bool.eqb a b
  | S754_infinity a, S754_infinity b => Bool.eqb a b
  | S754_nan, S754_nan => true
  | S754_finite a m e, S754_finite b m' e' =>
      Bool.eqb a b && (m =? m')%positive && (e =? e')
  | _, _ => false
  end.

(** Digits and decimal exponent [n] of the shortest decimal that denotes the
    positive Number [m * 2 ^ e]: the value [0.d1 d2 ... dk * 10 ^ n] with [k]
    as small as possible and, among those, nearest to the Number. *)
Fixpoint shortest_digits (fuel : nat) (x : number) (num den n0 k : Z)
    : jsstring * Z :=
  let p := n0 - k in
  let lo := if p <? 0 then (num * 10 ^ (- p)) / den else num / (den * 10 ^ p) in
  let hi := lo + 1 in
  let ok_lo := number_eqb (round_decimal false lo p) x in
  let ok_hi := number_eqb (round_decimal false hi p) x in
  (* is [hi] at least as near as [lo]: 2 * num / den against (lo + hi) * 10^p *)
  let lhs := if p <? 0 then 2 * num * 10 ^ (- p) else 2 * num in
  let rhs := if p <? 0 then (lo + hi) * den else (lo + hi) * den * 10 ^ p in
  let hi_nearer := (rhs <? lhs) || ((rhs =? lhs) && Z.even hi) in
  let result (s : Z) :=
    (strip_zeros_end (digits_of s), p + Z.of_nat (length (digits_of s))) in
  if ok_lo && ok_hi then (if hi_nearer then result hi else result lo)
  else if ok_hi then result hi
  else if ok_lo then result lo
  else match fuel with
       | O => result lo
       | S f => shortest_digits f x num den n0 (k + 1)
       end.

Definition zeros (n : Z) : jsstring := repeat 48%N (Z.to_nat n).

(** The digits [ds] of the value [0.ds * 10 ^ n] laid out as Number::toString
    does: plain digits up to 10^21, a leading 0. down to 10^-6, and exponent
    notation beyond. *)
Definition format_digits (ds : jsstring) (n : Z) : jsstring :=
  let k := Z.of_nat (length ds) in
  if (k <=? n) && (n <=? 21) then ds ++ zeros (n - k)
  else if (0 <? n) && (n <=? 21) then
    take (Z.to_nat n) ds ++ js "." ++ drop (Z.to_nat n) ds
  else if (-6 <? n) && (n <=? 0) then js "0." ++ zeros (- n) ++ ds
  else
    let e := n - 1 in
    let sign := if e <? 0 then js "-" else js "+" in
    match ds with
    | [d] => [d] ++ js "e" ++ sign ++ digits_of (Z.abs e)
    | d :: ds' => [d] ++ js "." ++ ds' ++ js "e" ++ sign ++ digits_of (Z.abs e)
    | [] => []
    end.

(** Number::toString. The estimate of the decimal exponent starts at or
    below the exponent sought (log10 2 is just under 0.30103); the digits are
    sought up to the seventeen that always suffice. *)
Definition number_to_string (x : number) : jsstring :=
  match x with
  | S754_nan => js "NaN"
  | S754_zero _ => js "0"
  | S754_infinity neg => if neg then js "-Infinity" else js "Infinity"
  | S754_finite neg m e =>
      let '(num, den) :=
        if e <? 0 then (Zpos m, 2 ^ (- e)) else (Zpos m * 2 ^ e, 1) in
      let est := (Z.log2 num - Z.log2 den - 1) * 30103 / 100000 - 1 in
      let n0 := least_pow10 6 num den est in
      let '(ds, n) :=
        shortest_digits 16 (S754_finite false m e) num den n0 1 in
      (if neg then js "-" else []) ++ format_digits ds n
  end.

Local Close Scope Z_scope.

(** ** JSON values

    What [JSON.parse] returns: null, booleans, Numbers, strings, arrays and
    plain objects. An object is the list of its own properties in the order
    in which JavaScript enumerates them: array-index keys in ascending
    order, then the other keys in the order of their creation. *)

Unset Elimination Schemes.
Inductive value :=
| VNull
| VBool (b : bool)
| VNum (n : number)
| VStr (s : jsstring)
| VArr (xs : list value)
| VObj (ps : list (jsstring * value)).
Set Elimination Schemes.

(** Induction over a value, with the hypothesis for every element of an array
    and every property value of an object. *)
Definition value_ind (P : value -> Prop)
    (HNull : P VNull) (HBool : forall b, P (VBool b))
    (HNum : forall n, P (VNum n)) (HStr : forall s, P (VStr s))
    (HArr : forall xs, Forall P xs -> P (VArr xs))
    (HObj : forall ps, Forall (fun p => P (snd p)) ps -> P (VObj ps))
    : forall v, P v :=
  fix go (v : value) : P v :=
    match v with
    | VNull => HNull
    | VBool b => HBool b
    | VNum n => HNum n
    | VStr s => HStr s
    | VArr xs =>
        HArr xs
          ((fix all (l : list value) : Forall P l :=
              match l with
              | [] => @List.Forall_nil _ P
              | x :: l' => @List.Forall_cons _ P x l' (go x) (all l')
              end) xs)
    | VObj ps =>
        HObj ps
          ((fix all (l : list (jsstring * value))
              : Forall (fun p => P (snd p)) l :=
              match l with
              | [] => @List.Forall_nil _ _
              | p :: l' => @List.Forall_cons _ _ p l' (go (snd p)) (all l')
              end) ps)
    end.

(** A key is an array index when it is the canonical decimal form of an
    integer between 0 and 2^32 - 2. *)
Definition array_index (k : jsstring) : option Z :=
  match k with
  | [] => None
  | d :: r =>
      if forallb is_digit k
         && ((negb (d =? 48)) || Nat.eqb (length r) 0)
         && Nat.leb (length k) 10
         && (digits_value k <=? 4294967294)%Z
      then Some (digits_value k)
      else None
  end.

Fixpoint obj_get (ps : list (jsstring * value)) (k : jsstring) : option value :=
  match ps with
  | [] => None
  | (k', v) :: ps' => if decide (k' = k) then Some v else obj_get ps' k
  end.

Fixpoint obj_replace (ps : list (jsstring * value)) (k : jsstring) (v : value)
    : list (jsstring * value) :=
  match ps with
  | [] => []
  | (k', v') :: ps' =>
      if decide (k' = k) then (k', v) :: ps' else (k', v') :: obj_replace ps' k v
  end.

Fixpoint obj_insert_index (ps : list (jsstring * value)) (i : Z) (k : jsstring)
    (v : value) : list (jsstring * value) :=
  match ps with
  | [] => [(k, v)]
  | (k', v') :: ps' =>
      match array_index k' with
      | Some j =>
          if (j <? i)%Z then (k', v') :: obj_insert_index ps' i k v
          else (k, v) :: ps
      | None => (k, v) :: ps
      end
  end.

(** CreateDataProperty on an ordinary object: an existing property keeps its
    place and takes the new value; a new array-index key goes to its place
    among the array-index keys; any other new key goes last. *)
Definition obj_set (ps : list (jsstring * value)) (k : jsstring) (v : value)
    : list (jsstring * value) :=
  match obj_get ps k with
  | Some _ => obj_replace ps k v
  | None =>
      match array_index k with
      | Some i => obj_insert_index ps i k v
      | None => ps ++ [(k, v)]
      end
  end.

(** ** JSON.parse *)

(** JSON whitespace: tab, line feed, carriage return, space. *)
Definition is_json_ws (c : N) : bool :=
  (c =? 9) || (c =? 10) || (c =? 13) || (c =? 32).

Fixpoint skip_ws (s : jsstring) : jsstring :=
  match s with
  | c :: s' => if is_json_ws c then skip_ws s' else s
  | [] => []
  end.

Definition hex_value (c : N) : option N :=
  if (48 <=? c) && (c <=? 57) then Some (c - 48)
  else if (97 <=? c) && (c <=? 102) then Some (c - 87)
  else if (65 <=? c) && (c <=? 70) then Some (c - 55)
  else None.

(** The character a two-character escape stands for. *)
Definition simple_escape (c : N) : option N :=
  if c =? 34 then Some 34        (* quotation mark *)
  else if c =? 92 then Some 92   (* reverse solidus *)
  else if c =? 47 then Some 47   (* solidus *)
  else if c =? 98 then Some 8    (* b *)
  else if c =? 102 then Some 12  (* f *)
  else if c =? 110 then Some 10  (* n *)
  else if c =? 114 then Some 13  (* r *)
  else if c =? 116 then Some 9   (* t *)
  else None.

(** The characters of a JSON string after its opening quotation mark, up to
    and including the closing one: the string denoted, and the rest. *)
Fixpoint lex_string (s : jsstring) : option (jsstring * jsstring) :=
  match s with
  | [] => None
  | c :: r =>
      if c =? 34 then Some ([], r)
      else if c =? 92 then
        match r with
        | [] => None
        | e :: r1 =>
            if e =? 117 then
              match r1 with
              | h1 :: h2 :: h3 :: h4 :: r2 =>
                  match hex_value h1, hex_value h2, hex_value h3, hex_value h4 with
                  | Some a, Some b, Some c', Some d =>
                      match lex_string r2 with
                      | Some (str, rest) =>
                          Some (((a * 16 + b) * 16 + c') * 16 + d :: str, rest)
                      | None => None
                      end
                  | _, _, _, _ => None
                  end
              | _ => None
              end
            else
              match simple_escape e with
              | Some x =>
                  match lex_string r1 with
                  | Some (str, rest) => Some (x :: str, rest)
                  | None => None
                  end
              | None => None
              end
        end
      else if c <? 32 then None
      else
        match lex_string r with
        | Some (str, rest) => Some (c :: str, rest)
        | None => None
        end
  end.

(** [strip_prefix p s]: what follows [p] in [s], when [s] starts with [p]. *)
Fixpoint strip_prefix (p s : jsstring) : option jsstring :=
  match p, s with
  | [], _ => Some s
  | a :: p', b :: s' => if a =? b then strip_prefix p' s' else None
  | _ :: _, [] => None
  end.

Fixpoint parse_value (fuel : nat) (s : jsstring) : option (value * jsstring) :=
  match fuel with
  | O => None
  | S f =>
      match skip_ws s with
      | [] => None
      | c :: r =>
          if c =? 123 then
            match skip_ws r with
            | c' :: r' =>
                if c' =? 125 then Some (VObj [], r') else parse_members f r []
            | [] => None
            end
          else if c =? 91 then
            match skip_ws r with
            | c' :: r' =>
                if c' =? 93 then Some (VArr [], r') else parse_elements f r []
            | [] => None
            end
          else if c =? 34 then
            match lex_string r with
            | Some (str, rest) => Some (VStr str, rest)
            | None => None
            end
          else if c =? 116 then
            match strip_prefix (js "rue") r with
            | Some rest => Some (VBool true, rest)
            | None => None
            end
          else if c =? 102 then
            match strip_prefix (js "alse") r with
            | Some rest => Some (VBool false, rest)
            | None => None
            end
          else if c =? 110 then
            match strip_prefix (js "ull") r with
            | Some rest => Some (VNull, rest)
            | None => None
            end
          else
            match lex_number (c :: r) with
            | Some (n, rest) => Some (VNum n, rest)
            | None => None
            end
      end
  end
with parse_elements (fuel : nat) (s : jsstring) (acc : list value)
    : option (value * jsstring) :=
  match fuel with
  | O => None
  | S f =>
      match parse_value f s with
      | Some (v, r) =>
          match skip_ws r with
          | c :: r' =>
              if c =? 44 then parse_elements f r' (acc ++ [v])
              else if c =? 93 then Some (VArr (acc ++ [v]), r')
              else None
          | [] => None
          end
      | None => None
      end
  end
with parse_members (fuel : nat) (s : jsstring) (acc : list (jsstring * value))
    : option (value * jsstring) :=
  match fuel with
  | O => None
  | S f =>
      match skip_ws s with
      | q :: r =>
          if q =? 34 then
            match lex_string r with
            | Some (k, r1) =>
                match skip_ws r1 with
                | c :: r2 =>
                    if c =? 58 then
                      match parse_value f r2 with
                      | Some (v, r3) =>
                          match skip_ws r3 with
                          | c' :: r4 =>
                              if c' =? 44 then parse_members f r4 (obj_set acc k v)
                              else if c' =? 125 then
                                Some (VObj (obj_set acc k v), r4)
                              else None
                          | [] => None
                          end
                      | None => None
                      end
                    else None
                | [] => None
                end
            | None => None
            end
          else None
      | [] => None
      end
  end.

(** [JSON.parse] of a string, without reviver; [None] is a thrown SyntaxError.
    Every call of the parser consumes input, so twice the length of the text
    (and one more) is fuel enough. *)
Definition JSON_parse (text : jsstring) : option value :=
  match parse_value (S (2 * length text)) text with
  | Some (v, rest) =>
      match skip_ws rest with
      | [] => Some v
      | _ => None
      end
  | None => None
  end.

(** ** JSON.stringify *)

Definition hex_char (d : N) : N := if d <? 10 then 48 + d else 87 + d.

(** UnicodeEscape: reverse solidus, u, four lowercase hexadecimal digits. *)
Definition unicode_escape (c : N) : jsstring :=
  [92; 117; hex_char (c / 4096 mod 16); hex_char (c / 256 mod 16);
   hex_char (c / 16 mod 16); hex_char (c mod 16)].

Definition is_high_surrogate (c : N) : bool := (0xD800 <=? c) && (c <=? 0xDBFF).
Definition is_low_surrogate (c : N) : bool := (0xDC00 <=? c) && (c <=? 0xDFFF).

(** The escaped form of one code unit that is not part of a surrogate pair. *)
Definition quote_unit (c : N) : jsstring :=
  if c =? 8 then [92; 98]
  else if c =? 9 then [92; 116]
  else if c =? 10 then [92; 110]
  else if c =? 12 then [92; 102]
  else if c =? 13 then [92; 114]
  else if c =? 34 then [92; 34]
  else if c =? 92 then [92; 92]
  else if (c <? 32) || is_high_surrogate c || is_low_surrogate c
  then unicode_escape c
  else [c].

Fixpoint quote_units (s : jsstring) : jsstring :=
  match s with
  | [] => []
  | c :: r =>
      if is_high_surrogate c then
        match r with
        | d :: r' =>
            if is_low_surrogate d then c :: d :: quote_units r'
            else quote_unit c ++ quote_units r
        | [] => quote_unit c
        end
      else quote_unit c ++ quote_units r
  end.

(** QuoteJSONString *)
Definition quote_json_string (s : jsstring) : jsstring :=
  34 :: quote_units s ++ [34].

Fixpoint join_with (sep : jsstring) (parts : list jsstring) : jsstring :=
  match parts with
  | [] => []
  | [x] => x
  | x :: rest => x ++ sep ++ join_with sep rest
  end.

(** SerializeJSONProperty for a Number: a finite one by Number::toString,
    any other as null. *)
Definition number_to_json (x : number) : jsstring :=
  match x with
  | S754_nan | S754_infinity _ => js "null"
  | _ => number_to_string x
  end.

(** [JSON.stringify] of a value that [JSON.parse] returned, with neither
    replacer nor indentation (such a value holds no function, symbol,
    undefined or toJSON method, so the result is always a string). *)
Fixpoint JSON_stringify (v : value) : jsstring :=
  match v with
  | VNull => js "null"
  | VBool true => js "true"
  | VBool false => js "false"
  | VNum n => number_to_json n
  | VStr s => quote_json_string s
  | VArr xs => 91 :: join_with [44] (List.map JSON_stringify xs) ++ [93]
  | VObj ps =>
      123 :: join_with [44]
               (List.map (fun p => quote_json_string (fst p) ++ 58 :: JSON_stringify (snd p)) ps)
          ++ [125]
  end.

(** ** The fence helper *)

(** [parseGeminiJson]: the trimmed text, or the capture of the fence pattern
    when it matches, handed to [JSON.parse]. [None] is a thrown exception. *)
Definition parseGeminiJson (text : jsstring) : option value :=
  let trimmedText := trim text in
  let match_ := string_match trimmedText fence_regex in
  match match_ with
  | Some (Some captured) => JSON_parse captured
  | Some None => None   (* JSON.parse(undefined) throws *)
  | None => JSON_parse trimmedText
  end.

(** ** Property access, conversion to string, truthiness, iteration

    On the values [JSON.parse] returns and for the property names the page
    uses, none of which a built-in prototype defines. [None] as a result is
    a thrown TypeError; an [option value] as an operand is a value or
    [undefined]. *)

(** [v.k]: throws on null, reads an own property of an object, and is
    undefined on everything else. *)
Definition get_prop (v : value) (k : jsstring) : option (option value) :=
  match v with
  | VNull => None
  | VObj ps => Some (obj_get ps k)
  | _ => Some None
  end.

(** ToString. An array joins the strings of its elements (null as the empty
    string) with commas. A plain object is [object Object], unless an own
    property named toString hides Object.prototype.toString: its value is
    not callable, valueOf yields no primitive either, and the conversion
    throws. *)
Fixpoint to_string (v : value) : option jsstring :=
  match v with
  | VNull => Some (js "null")
  | VBool true => Some (js "true")
  | VBool false => Some (js "false")
  | VNum n => Some (number_to_string n)
  | VStr s => Some s
  | VArr xs =>
      (fix join (l : list value) : option jsstring :=
         match l with
         | [] => Some []
         | x :: l' =>
             match (match x with VNull => Some [] | _ => to_string x end) with
             | Some sx =>
                 match l' with
                 | [] => Some sx
                 | _ =>
                     match join l' with
                     | Some sl => Some (sx ++ 44 :: sl)
                     | None => None
                     end
                 end
             | None => None
             end
         end) xs
  | VObj ps =>
      match obj_get ps (js "toString") with
      | Some _ => None
      | None => Some (js "[object Object]")
      end
  end.

(** ToString of a value or undefined, as a template substitution does. *)
Definition to_string_u (v : option value) : option jsstring :=
  match v with
  | Some x => to_string x
  | None => Some (js "undefined")
  end.

(** ToBoolean *)
Definition truthy (v : option value) : bool :=
  match v with
  | None | Some VNull => false
  | Some (VBool b) => b
  | Some (VNum (S754_zero _)) | Some (VNum S754_nan) => false
  | Some (VNum _) => true
  | Some (VStr s) => negb (Nat.eqb (length s) 0)
  | Some (VArr _) | Some (VObj _) => true
  end.

(** The code points of a string, each as a string of one or two code units. *)
Fixpoint code_points (s : jsstring) : list value :=
  match s with
  | [] => []
  | c :: r =>
      if is_high_surrogate c then
        match r with
        | d :: r' =>
            if is_low_surrogate d then VStr [c; d] :: code_points r'
            else VStr [c] :: code_points r
        | [] => [VStr [c]]
        end
      else VStr [c] :: code_points r
  end.

(** What [for ... of] iterates over: the elements of an array, the code
    points of a string; nothing else here is iterable. *)
Definition iterate (v : option value) : option (list value) :=
  match v with
  | Some (VArr xs) => Some xs
  | Some (VStr s) => Some (code_points s)
  | _ => None
  end.

(** ** The document

    The three containers the page fills, each present or not. A container is
    modelled by its children; an element built by the page keeps the markup
    assigned to its innerHTML as a string, from which [child_nodes] below
    gives its children. *)

Inductive node :=
| Text (data : jsstring)
| Element (tag className innerHTML : jsstring).

Record document := Document {
  biographyContentElement : option (list node);
  skillsGridElement : option (list node);
  projectsGridElement : option (list node)
}.

(** Assigning [textContent]: the children become one text node with the given
    data, or nothing when the data is empty. *)
Definition text_children (s : jsstring) : list node :=
  match s with
  | [] => []
  | _ => [Text s]
  end.

(** A computation over the document that completes or throws; what it did to
    the document before throwing stays done. *)
Inductive outcome (A : Type) :=
| Done (a : A)
| Thrown.
Arguments Done {A} a.
Arguments Thrown {A}.

Definition dom (A : Type) : Type := document -> outcome A * document.

Definition dom_ret {A} (a : A) : dom A := fun d => (Done a, d).

Definition dom_bind {A B} (m : dom A) (f : A -> dom B) : dom B :=
  fun d =>
    match m d with
    | (Done a, d') => f a d'
    | (Thrown, d') => (Thrown, d')
    end.

(** A computation that leaves the document alone. *)
Definition dom_eval {A} (o : option A) : dom A :=
  fun d => match o with Some a => (Done a, d) | None => (Thrown, d) end.

Notation "'let*' x ':=' m 'in' k" := (dom_bind m (fun x => k))
  (at level 10, x name, m at level 100, k at level 200).

Definition set_biography (kids : list node) : dom unit :=
  fun d => (Done tt, Document (Some kids) (skillsGridElement d) (projectsGridElement d)).

Definition set_skills (kids : list node) : dom unit :=
  fun d => (Done tt, Document (biographyContentElement d) (Some kids) (projectsGridElement d)).

Definition set_projects (kids : list node) : dom unit :=
  fun d => (Done tt, Document (biographyContentElement d) (skillsGridElement d) (Some kids)).

Definition append_skill (card : node) : dom unit :=
  fun d => (Done tt, Document (biographyContentElement d)
                       (option_map (fun kids => kids ++ [card]) (skillsGridElement d))
                       (projectsGridElement d)).

Definition append_project (card : node) : dom unit :=
  fun d => (Done tt, Document (biographyContentElement d) (skillsGridElement d)
                       (option_map (fun kids => kids ++ [card]) (projectsGridElement d))).

(** [for (const x of xs) body] *)
Fixpoint for_of (xs : list value) (body : value -> dom unit) : dom unit :=
  match xs with
  | [] => dom_ret tt
  | x :: xs' => let* _ := body x in for_of xs' body
  end.

(** ** The view populator *)

(** An ASCII literal of markup, written with apostrophes where the source has
    quotation marks. *)
Definition markup (s : string) : jsstring :=
  List.map (fun c => if c =? 39 then 34 else c) (js s).

Definition nl : jsstring := [10].
Definition indent (n : nat) : jsstring := repeat 32 n.

(** The value assigned to [textContent], a nullable DOMString: null and
    undefined clear the element, anything else is converted to a string. *)
Definition dom_string (v : option value) : option jsstring :=
  match v with
  | None | Some VNull => Some []
  | Some x => to_string x
  end.

Definition skill_card_html (skillName description : jsstring) : jsstring :=
  nl ++ indent 12 ++ markup "<h3>" ++ skillName ++ markup "</h3>"
  ++ nl ++ indent 12 ++ markup "<p>" ++ description ++ markup "</p>"
  ++ nl ++ indent 8.

Definition skill_card (skill : value) : option node :=
  match get_prop skill (js "skillName") with
  | Some n =>
      match to_string_u n, get_prop skill (js "description") with
      | Some skillName, Some d =>
          match to_string_u d with
          | Some description =>
              Some (Element (js "div") (js "skill-card")
                      (skill_card_html skillName description))
          | None => None
          end
      | _, _ => None
      end
  | None => None
  end.

Definition tech_item (tech : value) : option jsstring :=
  match to_string tech with
  | Some s => Some (markup "<li class='project-tech-item'>" ++ s ++ markup "</li>")
  | None => None
  end.

(** [xs.map(f).join('')] *)
Fixpoint map_join (f : value -> option jsstring) (xs : list value)
    : option jsstring :=
  match xs with
  | [] => Some []
  | x :: xs' =>
      match f x, map_join f xs' with
      | Some s, Some rest => Some (s ++ rest)
      | _, _ => None
      end
  end.

(** [project.technologies.map(...).join('')]: only an array has a callable
    map. *)
Definition technologiesHtml (project : value) : option jsstring :=
  match get_prop project (js "technologies") with
  | Some (Some (VArr techs)) => map_join tech_item techs
  | _ => None
  end.

Definition live_link (url : jsstring) : jsstring :=
  markup "<a href='" ++ url
  ++ markup "' class='btn btn-secondary' target='_blank' rel='noopener noreferrer'>Live Demo</a>".

Definition github_link (url : jsstring) : jsstring :=
  markup "<a href='" ++ url
  ++ markup "' class='btn btn-primary' target='_blank' rel='noopener noreferrer'>View on GitHub</a>".

Definition liveUrlButton (project : value) : option jsstring :=
  match get_prop project (js "liveUrl") with
  | Some u =>
      if truthy u then
        match to_string_u u with
        | Some url => Some (live_link url)
        | None => None
        end
      else Some []
  | None => None
  end.

Definition project_card_html
    (projectName description techs githubUrl liveButton : jsstring) : jsstring :=
  nl ++ indent 12 ++ markup "<div class='project-card-content'>"
  ++ nl ++ indent 16 ++ markup "<h3>" ++ projectName ++ markup "</h3>"
  ++ nl ++ indent 16 ++ markup "<p>" ++ description ++ markup "</p>"
  ++ nl ++ indent 16 ++ markup "<ul class='project-tech-list'>" ++ techs ++ markup "</ul>"
  ++ nl ++ indent 12 ++ markup "</div>"
  ++ nl ++ indent 12 ++ markup "<div class='project-card-actions'>"
  ++ nl ++ indent 16 ++ github_link githubUrl
  ++ nl ++ indent 16 ++ liveButton
  ++ nl ++ indent 12 ++ markup "</div>"
  ++ nl ++ indent 8.

Definition prop_string (v : value) (k : jsstring) : option jsstring :=
  match get_prop v k with
  | Some x => to_string_u x
  | None => None
  end.

Definition project_card (project : value) : option node :=
  match technologiesHtml project, liveUrlButton project with
  | Some techs, Some button =>
      match prop_string project (js "projectName"),
            prop_string project (js "description"),
            prop_string project (js "githubUrl") with
      | Some name, Some description, Some githubUrl =>
          Some (Element (js "div") (js "project-card")
                  (project_card_html name description techs githubUrl button))
      | _, _, _ => None
      end
  | _, _ => None
  end.

Definition populate_body (data : value) : dom unit :=
  (* Populate Biography *)
  let* biography := dom_eval (get_prop data (js "biography")) in
  let* text := dom_eval (dom_string biography) in
  let* _ := set_biography (text_children text) in
  (* Populate Skills *)
  let* _ := set_skills [] in
  let* skills := dom_eval (get_prop data (js "skills")) in
  let* skillList := dom_eval (iterate skills) in
  let* _ := for_of skillList (fun skill =>
              let* card := dom_eval (skill_card skill) in
              append_skill card) in
  (* Populate Projects *)
  let* _ := set_projects [] in
  let* projects := dom_eval (get_prop data (js "projects")) in
  let* projectList := dom_eval (iterate projects) in
  for_of projectList (fun project =>
    let* card := dom_eval (project_card project) in
    append_project card).

Definition containers_present (d : document) : bool :=
  match biographyContentElement d, skillsGridElement d, projectsGridElement d with
  | Some _, Some _, Some _ => true
  | _, _, _ => false
  end.

Definition populatePortfolioContent (data : value) : dom unit :=
  fun d =>
    if negb (containers_present d) then (Done tt, d)
    else populate_body data d.

(** ** The fallback content *)

Definition skill (skillName description : string) : value :=
  VObj [(js "skillName", VStr (js skillName));
        (js "description", VStr (js description))].

Definition project (projectName description : string) (technologies : list string)
    (githubUrl liveUrl : string) : value :=
  VObj [(js "projectName", VStr (js projectName));
        (js "description", VStr (js description));
        (js "technologies", VArr (List.map (fun s => VStr (js s)) technologies));
        (js "githubUrl", VStr (js githubUrl));
        (js "liveUrl", VStr (js liveUrl))].

Definition defaultPortfolioData : value :=
  VObj [
    (js "biography", VStr (js "As a skilled Software Developer with a background in ICT and Applications Development, I specialize in C#, HTML, SQL, and cloud computing. I am passionate about leveraging technology to solve complex problems and have recently expanded my expertise into the exciting field of Artificial Intelligence. I am always eager to learn and apply new skills to create innovative and efficient solutions."));
    (js "skills", VArr [
      skill "C# & .NET" "Building robust and scalable server-side applications.";
      skill "HTML, CSS & JavaScript" "Creating responsive and interactive user interfaces.";
      skill "SQL Databases" "Designing and managing relational databases for optimal performance.";
      skill "Cloud Computing" "Deploying and managing applications on cloud platforms like Azure and AWS.";
      skill "AI & Machine Learning" "Exploring and implementing AI models to build intelligent features.";
      skill "Agile Methodologies" "Collaborating in fast-paced environments to deliver quality software."
    ]);
    (js "projects", VArr [
      project "AI Study Buddy" "A RAG-powered chatbot providing answers from a specialized knowledge base. It uses vector embeddings to find relevant document chunks and Gemini to generate context-aware, accurate responses." ["Python"; "Gemini API"; "LangChain"; "VectorDB"]%string "https://github.com/Nompil/ai-study-buddy" "https://capeitinitiative-my.sharepoint.com/:u:/g/personal/neliswa_mbele_capaciti_org_za/EeP6VWFug-NJk9_H73HY3-YBhyXqZr_w9b0e1R2EJQte6Q?e=v845FL";
      project "Sentiment Analysis Dashboard" "An interactive dashboard that analyzes sentiment in text data, enabling users to understand emotional tone in customer reviews, social media posts, or other text content." ["Python"; "Flask"; "Chart.js"; "NLTK"]%string "https://github.com/skelletor147/sentimental-analysis-dashboard" "https://capeitinitiative-my.sharepoint.com/:u:/g/personal/neliswa_mbele_capaciti_org_za/ETbKaRdx1c5Do104LYkKIGsBvbI_z9NVhMIkbQwtzaQedA?e=LdGXyO";
      project "Intelligent Resume Builder" "An intelligent resume generation system that creates customized, ATS-friendly resumes based on user inputs." ["React"; "Node.js"; "Gemini API"; "PDFKit"]%string "https://github.com/Mphefemulo/Masikhule.git" "https://masikhule-solutions.github.io/ai-resume-builder/"
    ])
  ].

(** ** The content resolver

    [localStorage] is a finite map from keys to strings. Reading and removing
    an entry do not throw; writing one throws a QuotaExceededError when the
    user agent cannot store the value. Of the request only the model name is
    kept: the prompt and the response schema are constants that do not
    influence what the function does with the outcome of the request. *)

(** What the resolver does to its collaborators, in order. Console output is
    not recorded. *)
Inductive event :=
| GetItem (key : jsstring)
| RemoveItem (key : jsstring)
| SetItem (key text : jsstring)
| GenerateContent (model : jsstring)
| Populate (data : value).

(** [localStorage], the document and the log of what has happened. *)
Record world := World {
  storage : gmap jsstring jsstring;
  page : document;
  trace : list event
}.

(** How the one call to [ai.models.generateContent] ends: the promise rejects,
    or it resolves to a response whose [text] is a string or undefined. *)
Inductive remote_outcome :=
| Rejected
| Responded (text : option jsstring).

(** How the one call to [localStorage.setItem] ends: the value is stored, or
    the call throws and the store stays as it is. *)
Inductive store_outcome :=
| Stored
| QuotaExceeded.

Definition cache_key : jsstring := js "portfolioContent".
Definition model_name : jsstring := js "gemini-2.5-flash".

Definition emit (e : event) (w : world) : world :=
  World (storage w) (page w) (trace w ++ [e]).

Definition getItem (key : jsstring) (w : world) : option jsstring * world :=
  (storage w !! key, emit (GetItem key) w).

Definition removeItem (key : jsstring) (w : world) : world :=
  emit (RemoveItem key) (World (delete key (storage w)) (page w) (trace w)).

Definition setItem (store : store_outcome) (key text : jsstring) (w : world)
    : outcome unit * world :=
  let w1 := emit (SetItem key text) w in
  match store with
  | Stored => (Done tt, World (<[key := text]> (storage w1)) (page w1) (trace w1))
  | QuotaExceeded => (Thrown, w1)
  end.

(** A call of the view populator from the resolver. *)
Definition populate (data : value) (w : world) : outcome unit * world :=
  let w1 := emit (Populate data) w in
  let '(r, d) := populatePortfolioContent data (page w1) in
  (r, World (storage w1) d (trace w1)).

(** The catch block of the second try: the fallback content is shown. *)
Definition fallback (w : world) : world := snd (populate defaultPortfolioData w).

(** Step 2 to 4: the request, and what follows from how it ends. *)
Definition fetch_from_api (store : store_outcome) (remote : remote_outcome)
    (w : world) : world :=
  let w1 := emit (GenerateContent model_name) w in
  match remote with
  | Rejected => fallback w1
  | Responded None => fallback w1   (* parseGeminiJson trims undefined *)
  | Responded (Some text) =>
      match parseGeminiJson text with
      | None => fallback w1
      | Some data =>
          match populate data w1 with
          | (Done _, w2) =>
              match setItem store cache_key (JSON_stringify data) w2 with
              | (Done _, w3) => w3
              | (Thrown, w3) => fallback w3
              end
          | (Thrown, w2) => fallback w2
          end
      end
  end.

(** Step 1: the cached content. Either the function returns there, or it goes
    on to the request. *)
Inductive cache_step :=
| CacheHit (w : world)    (* the cached content is shown; return *)
| CacheMiss (w : world).  (* no usable cache; fetch from the API *)

Definition check_cache (w : world) : cache_step :=
  let '(cachedContent, w1) := getItem cache_key w in
  match cachedContent with
  | None | Some [] => CacheMiss w1   (* null or the empty string: falsy *)
  | Some text =>
      match JSON_parse text with
      | Some data =>
          match populate data w1 with
          | (Done _, w2) => CacheHit w2
          | (Thrown, w2) => CacheMiss (removeItem cache_key w2)
          end
      | None => CacheMiss (removeItem cache_key w1)
      end
  end.

Definition generatePortfolioContent (store : store_outcome) (remote : remote_outcome)
    (w : world) : world :=
  if negb (containers_present (page w)) then w
  else
    match check_cache w with
    | CacheHit w' => w'
    | CacheMiss w' => fetch_from_api store remote w'
    end.

(** ** The children of an element whose innerHTML was assigned

    Assigning [innerHTML] runs the HTML fragment parser, with the element as
    context, on the string and makes the nodes it returns the children of
    the element. The parser is modelled on a fragment of HTML, as the HTML
    Standard defines it for a [div] as context (tokenizer in the data state,
    tree construction in the in-body insertion mode): the elements div, h3,
    p, ul, li and a, start tags with attributes in quotation marks, end tags
    that close the current node, and text. On every other input (character
    references, comments, other elements, other attribute syntax, tags that
    the tree builder would close or reopen by itself, text that the input
    stream would alter) the model gives [None] and says nothing. *)

Unset Elimination Schemes.
Inductive html :=
| HText (data : jsstring)
| HElement (name : jsstring) (attributes : list (jsstring * jsstring))
    (children : list html).
Set Elimination Schemes.

Inductive token :=
| Character (c : N)
| StartTag (name : jsstring) (attributes : list (jsstring * jsstring))
| EndTag (name : jsstring).

(** The states of the tokenizer the fragment needs, each with the tag token
    under construction: its name, its attributes so far, and the name and
    value of the attribute being read. *)
Inductive tokenizer_state :=
| DataState
| TagOpenState
| EndTagOpenState
| TagNameState (closing : bool) (name : jsstring)
| BeforeAttributeNameState (name : jsstring) (attributes : list (jsstring * jsstring))
| AttributeNameState (name : jsstring) (attributes : list (jsstring * jsstring))
    (attribute : jsstring)
| AfterAttributeNameState (name : jsstring) (attributes : list (jsstring * jsstring))
    (attribute : jsstring)
| BeforeAttributeValueState (name : jsstring) (attributes : list (jsstring * jsstring))
    (attribute : jsstring)
| AttributeValueDoubleQuotedState (name : jsstring)
    (attributes : list (jsstring * jsstring)) (attribute value : jsstring)
| AfterAttributeValueQuotedState (name : jsstring)
    (attributes : list (jsstring * jsstring)).

(** Tab, line feed, form feed and space. *)
Definition is_html_space (c : N) : bool :=
  (c =? 9) || (c =? 10) || (c =? 12) || (c =? 32).

Definition is_lower_alpha (c : N) : bool := (97 <=? c) && (c <=? 122).

Definition is_tag_name_char (c : N) : bool := is_lower_alpha c || is_digit c.

Definition is_attribute_name_char (c : N) : bool :=
  is_lower_alpha c || is_digit c || (c =? 45).

(** A code unit that the input stream and the tokenizer pass on as it is, in
    text and in an attribute value: not NUL (dropped or replaced), not a
    carriage return (turned into a line feed), not an ampersand (a character
    reference may start there) and not a surrogate. *)
Definition is_plain (c : N) : bool :=
  negb ((c =? 0) || (c =? 13) || (c =? 38) || ((0xD800 <=? c) && (c <=? 0xDFFF))).

(** A complete attribute joins the token unless the token has an attribute
    of that name already. *)
Definition add_attribute (attributes : list (jsstring * jsstring))
    (name value : jsstring) : list (jsstring * jsstring) :=
  if existsb (fun a => bool_decide (fst a = name)) attributes then attributes
  else attributes ++ [(name, value)].

(** One code unit in one state: the next state and the token emitted, if
    any. *)
Definition tokenizer_step (st : tokenizer_state) (c : N)
    : option (tokenizer_state * option token) :=
  match st with
  | DataState =>
      if c =? 60 then Some (TagOpenState, None)
      else if is_plain c then Some (DataState, Some (Character c))
      else None
  | TagOpenState =>
      if c =? 47 then Some (EndTagOpenState, None)
      else if is_lower_alpha c then Some (TagNameState false [c], None)
      else None
  | EndTagOpenState =>
      if is_lower_alpha c then Some (TagNameState true [c], None)
      else None
  | TagNameState closing name =>
      if c =? 62 then
        Some (DataState, Some (if closing then EndTag name else StartTag name []))
      else if is_html_space c then
        if closing then None else Some (BeforeAttributeNameState name [], None)
      else if is_tag_name_char c then Some (TagNameState closing (name ++ [c]), None)
      else None
  | BeforeAttributeNameState name attributes =>
      if is_html_space c then Some (st, None)
      else if c =? 62 then Some (DataState, Some (StartTag name attributes))
      else if is_attribute_name_char c then
        Some (AttributeNameState name attributes [c], None)
      else None
  | AttributeNameState name attributes attribute =>
      if is_html_space c then
        Some (AfterAttributeNameState name attributes attribute, None)
      else if c =? 62 then
        Some (DataState, Some (StartTag name (add_attribute attributes attribute [])))
      else if c =? 61 then
        Some (BeforeAttributeValueState name attributes attribute, None)
      else if is_attribute_name_char c then
        Some (AttributeNameState name attributes (attribute ++ [c]), None)
      else None
  | AfterAttributeNameState name attributes attribute =>
      if is_html_space c then Some (st, None)
      else if c =? 61 then
        Some (BeforeAttributeValueState name attributes attribute, None)
      else if c =? 62 then
        Some (DataState, Some (StartTag name (add_attribute attributes attribute [])))
      else if is_attribute_name_char c then
        Some (AttributeNameState name (add_attribute attributes attribute []) [c], None)
      else None
  | BeforeAttributeValueState name attributes attribute =>
      if is_html_space c then Some (st, None)
      else if c =? 34 then
        Some (AttributeValueDoubleQuotedState name attributes attribute [], None)
      else None
  | AttributeValueDoubleQuotedState name attributes attribute value =>
      if c =? 34 then
        Some (AfterAttributeValueQuotedState name
                (add_attribute attributes attribute value), None)
      else if is_plain c then
        Some (AttributeValueDoubleQuotedState name attributes attribute (value ++ [c]),
              None)
      else None
  | AfterAttributeValueQuotedState name attributes =>
      if is_html_space c then Some (BeforeAttributeNameState name attributes, None)
      else if c =? 62 then Some (DataState, Some (StartTag name attributes))
      else if is_attribute_name_char c then
        Some (AttributeNameState name attributes [c], None)
      else None
  end.

(** An open element: its name and attributes, the children inserted so far
    and, apart from them, the data of the Text node that is its last child
    (empty when the last child is no Text node). *)
Record frame := Frame {
  frame_name : jsstring;
  frame_attributes : list (jsstring * jsstring);
  frame_children : list html;
  frame_text : jsstring }.

Definition text_nodes (s : jsstring) : list html :=
  match s with
  | [] => []
  | _ :: _ => [HText s]
  end.

Definition all_children (f : frame) : list html :=
  match frame_text f with
  | [] => frame_children f
  | _ :: _ => frame_children f ++ [HText (frame_text f)]
  end.

Definition element_of (f : frame) : html :=
  HElement (frame_name f) (frame_attributes f) (all_children f).

(** Inserting a character extends the Text node that is the last child, or
    starts one; inserting an element puts it after the last child. *)
Definition insert_character (c : N) (f : frame) : frame :=
  Frame (frame_name f) (frame_attributes f) (frame_children f) (frame_text f ++ [c]).

Definition insert_element (e : html) (f : frame) : frame :=
  Frame (frame_name f) (frame_attributes f) (all_children f ++ [e]) [].

Definition has_name (name : string) (names : list jsstring) : bool :=
  existsb (fun n => bool_decide (n = js name)) names.

(** The search of the start tag li: up the stack of open elements, an open li
    is closed unless a special element other than div and p comes first. *)
Fixpoint closes_li (names : list jsstring) : bool :=
  match names with
  | [] => false
  | n :: rest =>
      if bool_decide (n = js "li") then true
      else if has_name "div" [n] || has_name "p" [n] || has_name "a" [n]
           then closes_li rest
      else false
  end.

(** Whether the tree builder inserts an element for the start tag and does
    nothing else, given the names of the open elements, innermost first:
    it closes no p, no li and no heading, and reopens no a. *)
Definition start_tag_inserts (name : jsstring) (names : list jsstring) : bool :=
  if has_name "div" [name] || has_name "p" [name] || has_name "ul" [name] then
    negb (has_name "p" names)
  else if has_name "h3" [name] then
    negb (has_name "p" names) && negb (has_name "h3" (firstn 1 names))
  else if has_name "li" [name] then
    negb (closes_li names) && negb (has_name "p" names)
  else if has_name "a" [name] then
    negb (has_name "a" names)
  else false.

(** The parser while it runs: the state of the tokenizer, the current node
    and the open elements below it, down to the root of the fragment. *)
Record parser := Parser {
  tokenizer : tokenizer_state;
  current_node : frame;
  open_elements : list frame }.

Definition process_token (t : token) (current : frame) (open : list frame)
    : option (frame * list frame) :=
  match t with
  | Character c => Some (insert_character c current, open)
  | StartTag name attributes =>
      if start_tag_inserts name (frame_name current :: List.map frame_name open)
      then Some (Frame name attributes [] [], current :: open)
      else None
  | EndTag name =>
      match open with
      | parent :: rest =>
          if bool_decide (frame_name current = name)
          then Some (insert_element (element_of current) parent, rest)
          else None
      | [] => None
      end
  end.

Definition parser_step (p : parser) (c : N) : option parser :=
  match tokenizer_step (tokenizer p) c with
  | Some (st, None) => Some (Parser st (current_node p) (open_elements p))
  | Some (st, Some t) =>
      match process_token t (current_node p) (open_elements p) with
      | Some (current, open) => Some (Parser st current open)
      | None => None
      end
  | None => None
  end.

Fixpoint run_parser (s : jsstring) (p : parser) : option parser :=
  match s with
  | [] => Some p
  | c :: r =>
      match parser_step p c with
      | Some p' => run_parser r p'
      | None => None
      end
  end.

(** At the end of the input the elements still open stay where they were
    inserted. *)
Fixpoint close_all (current : frame) (open : list frame) : list html :=
  match open with
  | [] => all_children current
  | parent :: rest => close_all (insert_element (element_of current) parent) rest
  end.

Definition parse_fragment (s : jsstring) : option (list html) :=
  match run_parser s (Parser DataState (Frame (js "html") [] [] []) []) with
  | Some (Parser DataState current open) => Some (close_all current open)
  | _ => None
  end.

(** The children of a node of the document. *)
Definition child_nodes (n : node) : option (list html) :=
  match n with
  | Text _ => Some []
  | Element _ _ innerHTML => parse_fragment innerHTML
  end.

(** A node and its descendants, in tree order. *)
Fixpoint descendants (n : html) : list html :=
  n :: match n with
       | HText _ => []
       | HElement _ _ children => flat_map descendants children
       end.

(** The links below the given nodes, in tree order. *)
Definition anchors (nodes : list html) : list html :=
  List.filter (fun n => match n with
                        | HElement name _ _ => bool_decide (name = js "a")
                        | HText _ => false
                        end)
    (flat_map descendants nodes).

(** Text and attribute values that the fragment takes as they are. *)
Definition plain_text (s : jsstring) : bool :=
  forallb (fun c => is_plain c && negb (c =? 60)) s.


(** ** The navigation menu

    [setupMobileMenu] and the listeners it attaches, over the two elements
    they work on: the hamburger button and the navigation list. Of an
    element the model keeps what the listeners read or write: the class
    list, the aria-expanded attribute of the button and the href attributes
    of the links. *)

(** A class list (DOMTokenList): the tokens of the class attribute, in
    order. [contains], [remove] and [toggle] as the DOM defines them;
    [toggle] returns whether the token is present afterwards and appends a
    token it adds. *)
Definition token_list := list jsstring.

Definition contains (token : jsstring) (l : token_list) : bool :=
  existsb (fun t => bool_decide (t = token)) l.

Definition token_remove (token : jsstring) (l : token_list) : token_list :=
  List.filter (fun t => negb (bool_decide (t = token))) l.

Definition token_toggle (token : jsstring) (l : token_list) : bool * token_list :=
  if contains token l then (false, token_remove token l) else (true, l ++ [token]).

(** The hamburger button: its class list and its aria-expanded attribute
    ([None]: the attribute is not set). *)
Record button := Button {
  button_classes : token_list;
  aria_expanded : option jsstring }.

(** The navigation list: its class list and the [a] elements below it, each
    given by its href attribute ([None]: no such attribute). *)
Record nav := Nav {
  nav_classes : token_list;
  nav_anchors : list (option jsstring) }.

(** What a listener does besides changing the two elements. *)
Inductive effect :=
| PreventDefault
| ScrollIntoView (selector : jsstring).   (* behavior: smooth *)

(** The result of [document.querySelector] for a selector: it throws a
    SyntaxError on a string that is no selector, and returns null or the
    first element that matches. *)
Inductive query :=
| InvalidSelector
| NoElement
| FoundElement.

(** The part of the page the menu code works on. [menu_listeners] counts the
    listeners that calls of [setupMobileMenu] have attached to the button,
    and to each link alike. *)
Record menu := Menu {
  hamburgerBtn : option button;
  navLinks : option nav;
  menu_listeners : nat;
  effects : list effect }.

(** String(b) for a boolean. *)
Definition string_of_bool (b : bool) : jsstring :=
  if b then js "true" else js "false".

Definition closeMenu (b : button) (n : nav) : button * nav :=
  let b1 := Button (token_remove (js "is-active") (button_classes b)) (aria_expanded b) in
  let b2 := Button (button_classes b1) (Some (js "false")) in
  let n1 := Nav (token_remove (js "nav-active") (nav_classes n)) (nav_anchors n) in
  (b2, n1).

(** The listener of the button. *)
Definition hamburger_listener (st : button * nav) : button * nav :=
  let '(b, n) := st in
  let '(isActive, classes) := token_toggle (js "is-active") (button_classes b) in
  let b1 := Button classes (Some (string_of_bool isActive)) in
  let n1 := Nav (snd (token_toggle (js "nav-active") (nav_classes n))) (nav_anchors n) in
  (b1, n1).

(** The listener of a link with the given href attribute. A thrown
    SyntaxError ends the listener where it is. *)
Definition link_listener (querySelector : jsstring -> query) (href : option jsstring)
    (st : button * nav * list effect) : button * nav * list effect :=
  let '(b, n, fx) := st in
  let fx1 := fx ++ [PreventDefault] in
  match href with
  | None | Some [] =>                  (* targetId is null or empty: falsy *)
      (closeMenu b n, fx1)
  | Some targetId =>
      match querySelector targetId with
      | InvalidSelector => (b, n, fx1)
      | NoElement => (closeMenu b n, fx1)
      | FoundElement => (closeMenu b n, fx1 ++ [ScrollIntoView targetId])
      end
  end.

Definition setupMobileMenu (m : menu) : menu :=
  match hamburgerBtn m, navLinks m with
  | Some _, Some _ =>
      Menu (hamburgerBtn m) (navLinks m) (S (menu_listeners m)) (effects m)
  | _, _ => m
  end.

(** A click on the button or on the link at an index of the navigation list.
    The listeners attached to the element run one after the other; the
    button and the links are taken not to contain one another, so that a
    click reaches the listeners of one element only. *)
Inductive click_target :=
| OnHamburger
| OnLink (i : nat).

Definition click (querySelector : jsstring -> query) (target : click_target) (m : menu)
  : menu :=
  match hamburgerBtn m, navLinks m with
  | Some b, Some n =>
      match target with
      | OnHamburger =>
          let '(b', n') := Nat.iter (menu_listeners m) hamburger_listener (b, n) in
          Menu (Some b') (Some n') (menu_listeners m) (effects m)
      | OnLink i =>
          match nav_anchors n !! i with
          | Some href =>
              let '(b', n', fx) :=
                Nat.iter (menu_listeners m) (link_listener querySelector href)
                  (b, n, effects m) in
              Menu (Some b') (Some n') (menu_listeners m) fx
          | None => m
          end
      end
  | _, _ => m
  end.

Definition clicks (querySelector : jsstring -> query) (targets : list click_target)
    (m : menu) : menu :=
  fold_left (fun m t => click querySelector t m) targets m.

(** * Notions used in the statements and their proofs *)

(** ** The fence pattern *)

(** The closing part of the pattern: whitespace, the three backticks, the end
    of the input. *)
Definition fence_closing : regex :=
  RSeq (RStar true is_space) (RLit fence_close REol).

(** The shortest prefix of [u] after which only whitespace and the closing
    backticks remain: what the lazy group captures. *)
Fixpoint lazy_cut (u : jsstring) : option jsstring :=
  if decide (trim_start u = fence_close) then Some []
  else match u with
       | c :: u' => option_map (cons c) (lazy_cut u')
       | [] => None
       end.

(** After the opening marker: leading whitespace, the lazy group and the
    closing part. *)
Definition fence_tail : regex :=
  RSeq (RStar true is_space)
    (RSeq (RGroup (RStar false any_char)) fence_closing).

(** ** Serialised text *)

(** The characters that follow a value in serialised JSON: a comma, a closing
    bracket or brace, or nothing. *)
Definition follows (rest : jsstring) : Prop :=
  match rest with
  | [] => True
  | c :: _ => c = 44 \/ c = 93 \/ c = 125
  end.

(** ** Property order *)

(** [k'] may come after [k] in an object: array indices ascend and come
    before all other keys. *)
Definition key_follows (k k' : jsstring) : Prop :=
  match array_index k, array_index k' with
  | Some i, Some j => (i < j)%Z
  | Some _, None => True
  | None, None => True
  | None, Some _ => False
  end.

(** Keys in the order in which JavaScript keeps them, each once. *)
Fixpoint keys_canonical (ks : list jsstring) : Prop :=
  match ks with
  | [] => True
  | k :: ks' => (k ∉ ks') /\ Forall (key_follows k) ks' /\ keys_canonical ks'
  end.

Definition keys (ps : list (jsstring * value)) : list jsstring := List.map fst ps.

(** No leading zero: empty, or starting with another digit. *)
Definition no_leading_zero (ds : jsstring) : Prop :=
  match ds with
  | [] => True
  | d :: _ => d <> 48
  end.

(** ** Canonical values *)

(** Every object of the value keeps its keys in canonical order. *)
Inductive wf_value : value -> Prop :=
| wf_null : wf_value VNull
| wf_bool b : wf_value (VBool b)
| wf_num n : wf_value (VNum n)
| wf_str s : wf_value (VStr s)
| wf_arr xs : Forall wf_value xs -> wf_value (VArr xs)
| wf_obj ps :
    keys_canonical (keys ps) -> Forall (fun p => wf_value (snd p)) ps ->
    wf_value (VObj ps).

(** A Number survives serialisation when reading its serialised form gives
    it back. *)
Definition stable_number (n : number) : bool :=
  match lex_number (number_to_json n) with
  | Some (m, []) => number_eqb m n
  | _ => false
  end.

Fixpoint numbers_stable (v : value) : bool :=
  match v with
  | VNum n => stable_number n
  | VArr xs => forallb numbers_stable xs
  | VObj ps => forallb (fun p => numbers_stable (snd p)) ps
  | _ => true
  end.

(** ** The round trip *)

Definition elements_text (xs : list value) : jsstring :=
  join_with [44] (List.map JSON_stringify xs).

Definition member_text (p : jsstring * value) : jsstring :=
  quote_json_string (fst p) ++ 58 :: JSON_stringify (snd p).

Definition members_text (ps : list (jsstring * value)) : jsstring :=
  join_with [44] (List.map member_text ps).

(** Serialised text starts with a character that is neither whitespace nor a
    closing bracket. *)
Definition value_start (c : N) : Prop :=
  is_json_ws c = false /\ c <> 93 /\ c <> 125.

(** The statement of the round trip for one value, as the induction needs it. *)
Definition reparses (v : value) : Prop :=
  forall fuel rest,
    (2 * length (JSON_stringify v) < fuel)%nat -> follows rest ->
    parse_value fuel (JSON_stringify v ++ rest) = Some (v, rest).

(** ** The populator *)

(** A computation that never touches the biography element. *)
Definition keeps_biography {A} (m : dom A) : Prop :=
  forall d, biographyContentElement (snd (m d)) = biographyContentElement d.

(** The page after the fallback content has been shown. *)
Definition default_page : document :=
  Eval vm_compute in
    snd (populate_body defaultPortfolioData (Document None None None)).

Definition has_string (ps : list (jsstring * value)) (k : string) : bool :=
  match obj_get ps (js k) with
  | Some (VStr _) => true
  | _ => false
  end.

Definition is_string (v : value) : bool :=
  match v with
  | VStr _ => true
  | _ => false
  end.

Definition skill_shaped (v : value) : bool :=
  match v with
  | VObj ps => has_string ps "skillName" && has_string ps "description"
  | _ => false
  end.

Definition project_shaped (v : value) : bool :=
  match v with
  | VObj ps =>
      has_string ps "projectName" && has_string ps "description"
      && has_string ps "githubUrl" && has_string ps "liveUrl"
      && match obj_get ps (js "technologies") with
         | Some (VArr techs) => forallb is_string techs
         | _ => false
         end
  | _ => false
  end.

(** The shape the request's schema asks for: an object with a biography
    string, an array of skills and an array of projects, whatever else it
    holds. *)
Definition content_shaped (v : value) : bool :=
  match v with
  | VObj ps =>
      has_string ps "biography"
      && match obj_get ps (js "skills") with
         | Some (VArr skills) => forallb skill_shaped skills
         | _ => false
         end
      && match obj_get ps (js "projects") with
         | Some (VArr projects) => forallb project_shaped projects
         | _ => false
         end
  | _ => false
  end.

(** ** The resolver *)

(** The populator never removes a container. *)
Definition keeps_containers {A} (m : dom A) : Prop :=
  forall d, containers_present d = true -> containers_present (snd (m d)) = true.

(** The paths of the first step. *)
Inductive cache_path (w : world) : cache_step -> Prop :=
| path_falsy :
    storage w !! cache_key = None \/ storage w !! cache_key = Some [] ->
    cache_path w (CacheMiss (emit (GetItem cache_key) w))
| path_corrupt text :
    storage w !! cache_key = Some text -> text <> [] -> JSON_parse text = None ->
    cache_path w
      (CacheMiss (World (delete cache_key (storage w)) (page w)
                    (trace w ++ [GetItem cache_key; RemoveItem cache_key])))
| path_hit text v d' :
    storage w !! cache_key = Some text -> JSON_parse text = Some v ->
    populatePortfolioContent v (page w) = (Done tt, d') ->
    cache_path w
      (CacheHit (World (storage w) d' (trace w ++ [GetItem cache_key; Populate v])))
| path_unrenderable text v d' :
    storage w !! cache_key = Some text -> JSON_parse text = Some v ->
    populatePortfolioContent v (page w) = (Thrown, d') ->
    cache_path w
      (CacheMiss (World (delete cache_key (storage w)) d'
                    (trace w ++ [GetItem cache_key; Populate v; RemoveItem cache_key]))).

(** The request ends without content to show: the promise rejects, the
    response has no text, or the text does not parse. *)
Definition remote_fails (remote : remote_outcome) : Prop :=
  match remote with
  | Rejected => True
  | Responded None => True
  | Responded (Some text) => parseGeminiJson text = None
  end.

(** ** Parsed cards *)


(** ** Sample inputs *)

(** A page with its three containers, all empty. *)
Definition blank_page : document := Document (Some []) (Some []) (Some []).

(** A page that lacks the skills grid. *)
Definition partial_page : document := Document (Some []) None (Some []).


(** Content with one skill and one project that has no live demo. *)
Definition sample_content : value :=
  VObj [(js "biography", VStr (js "<b>B</b>"));
        (js "skills", VArr [skill "S" "D"]);
        (js "projects", VArr [project "P" "Q" ["T"]%string "https://example.org/p" ""])].

Definition sample_text : jsstring := JSON_stringify sample_content.



(** ** Unusable cache entries *)

(** The block that uses the cached text throws: the text is a non-empty
    string, and either it does not parse or the populator throws on the
    parsed value. *)
Definition cache_unusable (w : world) : Prop :=
  exists text,
    storage w !! cache_key = Some text /\ text <> [] /\
    (JSON_parse text = None \/
     exists v d', JSON_parse text = Some v /\
                  populatePortfolioContent v (page w) = (Thrown, d')).

(** ** Runs of the resolver *)

(** The kinds of event a run can add to the trace. *)
Definition is_read (e : event) : bool :=
  match e with GetItem _ => true | _ => false end.

Definition is_removal (e : event) : bool :=
  match e with RemoveItem _ => true | _ => false end.

Definition is_write (e : event) : bool :=
  match e with SetItem _ _ => true | _ => false end.

Definition is_request (e : event) : bool :=
  match e with GenerateContent _ => true | _ => false end.

(** How step 2 to 4 can end, on a page with its containers. *)
Inductive fetch_end (w : world) : world -> Prop :=
| end_fallback :
    fetch_end w
      (World (storage w) default_page
         (trace w ++ [GenerateContent model_name; Populate defaultPortfolioData]))
| end_cached data d' :
    populatePortfolioContent data (page w) = (Done tt, d') ->
    fetch_end w
      (World (<[cache_key := JSON_stringify data]> (storage w)) d'
         (trace w ++ [GenerateContent model_name; Populate data;
                      SetItem cache_key (JSON_stringify data)]))
| end_refused data d' :
    populatePortfolioContent data (page w) = (Done tt, d') ->
    fetch_end w
      (World (storage w) default_page
         (trace w ++ [GenerateContent model_name; Populate data;
                      SetItem cache_key (JSON_stringify data);
                      Populate defaultPortfolioData]))
| end_unrenderable data d' :
    populatePortfolioContent data (page w) = (Thrown, d') ->
    fetch_end w
      (World (storage w) default_page
         (trace w ++ [GenerateContent model_name; Populate data;
                      Populate defaultPortfolioData])).

(** ** Consistency of the menu *)

(** The two classes are in step: the button is marked active exactly when
    the navigation list is marked open. *)
Definition classes_in_step (m : menu) : Prop :=
  match hamburgerBtn m, navLinks m with
  | Some b, Some n =>
      contains (js "is-active") (button_classes b)
      = contains (js "nav-active") (nav_classes n)
  | _, _ => True
  end.

(** The aria-expanded attribute says what the class of the button says. *)
Definition aria_mirrors (m : menu) : Prop :=
  match hamburgerBtn m with
  | Some b =>
      aria_expanded b
      = Some (string_of_bool (contains (js "is-active") (button_classes b)))
  | None => True
  end.

(** Two class lists with the same tokens, whatever their order. *)
Definition same_tokens (l1 l2 : token_list) : Prop :=
  forall t, contains t l1 = contains t l2.

(** What a link listener adds to the effects when it does not throw: the
    default action is prevented, and the target is scrolled to exactly when
    the href is a non-empty string for which the selector finds an element. *)
Definition link_effects (querySelector : jsstring -> query) (href : option jsstring)
    : list effect :=
  PreventDefault ::
  match href with
  | Some (c :: r) =>
      match querySelector (c :: r) with
      | FoundElement => [ScrollIntoView (c :: r)]
      | _ => []
      end
  | _ => []
  end.

(** * Properties *)

(** ** Trimming *)

Lemma trim_end_nil_iff s : trim_end s = [] <-> forallb is_space s = true.
Proof.
  induction s as [|c s IH]; simpl; [tauto|].
  destruct (trim_end s) as [|x t] eqn:E.
  - destruct (is_space c); simpl.
    + tauto.
    + split; intros H; discriminate.
  - split; [discriminate|].
    intros H. apply andb_true_iff in H as [_ H].
    apply IH in H. discriminate.
Qed.

Lemma trim_end_cons c s :
  trim_end (c :: s) = if forallb is_space (c :: s) then [] else c :: trim_end s.
Proof.
  simpl. destruct (trim_end s) as [|x t] eqn:E.
  - assert (H : forallb is_space s = true) by (apply trim_end_nil_iff; exact E).
    rewrite H, andb_true_r. destruct (is_space c); reflexivity.
  - assert (H : forallb is_space s = false).
    { destruct (forallb is_space s) eqn:F; [|reflexivity].
      apply trim_end_nil_iff in F. congruence. }
    rewrite H, andb_false_r. reflexivity.
Qed.

Lemma trim_start_nil_iff s : trim_start s = [] <-> forallb is_space s = true.
Proof.
  induction s as [|c s IH]; simpl; [tauto|].
  destruct (is_space c); simpl; [exact IH|].
  split; discriminate.
Qed.

Lemma trim_start_app_close body :
  trim_start (body ++ fence_close) = trim_start body ++ fence_close.
Proof.
  induction body as [|c b IH]; simpl; [reflexivity|].
  destruct (is_space c); [exact IH | reflexivity].
Qed.

Lemma trim_start_head_not_space s c r : trim_start s = c :: r -> is_space c = false.
Proof.
  induction s as [|x s IH]; simpl; [discriminate|].
  destruct (is_space x) eqn:E; [exact IH|].
  intros [= <- <-]. exact E.
Qed.

(** ** The fence pattern *)

Lemma strip_prefix_app p s : strip_prefix p (p ++ s) = Some s.
Proof. induction p as [|a p IH]; simpl; [reflexivity|]. rewrite N.eqb_refl. exact IH. Qed.

Lemma strip_prefix_Some p s r : strip_prefix p s = Some r -> s = p ++ r.
Proof.
  revert s. induction p as [|a p IH]; intros s; simpl.
  - intros [= ->]. reflexivity.
  - destruct s as [|b s]; [discriminate|].
    destruct (a =? b) eqn:E; [|discriminate].
    apply N.eqb_eq in E as ->. intros H. f_equal. apply IH, H.
Qed.

Lemma rmatch_lit l r pos rest cap k :
  rmatch (RLit l r) (MState pos rest cap) k =
  match strip_prefix l rest with
  | Some rest' => rmatch r (MState (pos + length l)%nat rest' cap) k
  | None => None
  end.
Proof.
  revert pos rest. induction l as [|a l IH]; intros pos rest; simpl.
  - rewrite Nat.add_0_r. reflexivity.
  - destruct rest as [|x rest]; [reflexivity|].
    rewrite (N.eqb_sym x a). destruct (a =? x); [|reflexivity].
    rewrite IH. replace (S pos + length l)%nat with (pos + S (length l))%nat by lia.
    reflexivity.
Qed.

(** The closing part matches exactly an input that is whitespace followed by
    the three backticks; it leaves the capture alone. *)
Lemma closing_match v pos cap :
  option_map m_cap (rmatch fence_closing (MState pos v cap) Some) =
  if decide (trim_start v = fence_close) then Some cap else None.
Proof.
  unfold fence_closing. cbn [rmatch m_pos m_rest m_cap].
  revert pos. induction v as [|c v IH]; intros pos.
  - reflexivity.
  - cbn [star_greedy trim_start]. destruct (is_space c) eqn:Ec.
    + specialize (IH (S pos)).
      destruct (star_greedy is_space (S pos) v cap _) as [r|] eqn:Es.
      * exact IH.
      * rewrite <- IH. rewrite rmatch_lit.
        destruct (strip_prefix fence_close (c :: v)) as [rest'|] eqn:Ep; [|reflexivity].
        apply strip_prefix_Some in Ep. injection Ep as -> _. discriminate Ec.
    + rewrite rmatch_lit.
      destruct (strip_prefix fence_close (c :: v)) as [rest'|] eqn:Ep.
      * apply strip_prefix_Some in Ep. rewrite Ep.
        destruct rest' as [|x rest']; cbn [rmatch m_rest option_map m_cap].
        -- rewrite decide_True by apply app_nil_r. reflexivity.
        -- rewrite decide_False; [reflexivity|].
           intros H. apply (f_equal length) in H. rewrite length_app in H.
           simpl in H. lia.
      * rewrite decide_False; [reflexivity|].
        intros H. rewrite H in Ep. rewrite <- (app_nil_r fence_close) in Ep.
        rewrite strip_prefix_app in Ep. discriminate.
Qed.

Lemma any_char_true c : any_char c = true.
Proof. unfold any_char. destruct (is_space c); reflexivity. Qed.

Lemma group_match u pre start pos0 cap0 :
  start = pre ++ u ->
  option_map m_cap
    (star_lazy any_char (pos0 + length pre)%nat u cap0
       (fun st' =>
          rmatch fence_closing
            (MState (m_pos st') (m_rest st')
               (Some (take (m_pos st' - pos0) start))) Some)) =
  option_map (fun c => Some (pre ++ c)) (lazy_cut u).
Proof.
  revert pre. induction u as [|c u IH]; intros pre Hs.
  - cbn [star_lazy m_pos m_rest lazy_cut].
    pose proof (closing_match [] (pos0 + length pre)%nat
                  (Some (take (pos0 + length pre - pos0) start))) as Hc.
    destruct (decide (trim_start [] = fence_close)) as [Ht|Ht]; [discriminate Ht|].
    destruct (rmatch fence_closing _ _) as [r|] eqn:Es; [discriminate Hc|reflexivity].
  - cbn [star_lazy m_pos m_rest lazy_cut].
    pose proof (closing_match (c :: u) (pos0 + length pre)%nat
                  (Some (take (pos0 + length pre - pos0) start))) as Hc.
    destruct (decide (trim_start (c :: u) = fence_close)) as [Ht|Ht];
      destruct (rmatch fence_closing _ _) as [r|] eqn:Es; try discriminate Hc.
    + cbn [option_map] in *. injection Hc as ->. do 2 f_equal.
      replace (pos0 + length pre - pos0)%nat with (length pre) by lia.
      rewrite Hs, take_app_length, app_nil_r. reflexivity.
    + rewrite any_char_true.
      specialize (IH (pre ++ [c])).
      rewrite length_app in IH. change (length [c]) with 1%nat in IH.
      replace (S (pos0 + length pre)) with (pos0 + (length pre + 1))%nat by lia.
      rewrite IH by (rewrite <- app_assoc; exact Hs).
      destruct (lazy_cut u); simpl; [|reflexivity].
      rewrite <- app_assoc. reflexivity.
Qed.

Lemma lazy_cut_close body : lazy_cut (body ++ fence_close) = Some (trim_end body).
Proof.
  induction body as [|c b IH].
  - reflexivity.
  - change ((c :: b) ++ fence_close) with (c :: (b ++ fence_close)).
    cbn [lazy_cut]. rewrite IH.
    change (c :: b ++ fence_close) with ((c :: b) ++ fence_close).
    rewrite trim_start_app_close, trim_end_cons.
    destruct (forallb is_space (c :: b)) eqn:E.
    + apply trim_start_nil_iff in E. rewrite E. reflexivity.
    + rewrite decide_False; [reflexivity|].
      intros H. assert (trim_start (c :: b) = []) as H'.
      { apply (f_equal length) in H. rewrite length_app in H.
        destruct (trim_start (c :: b)); [reflexivity|simpl in H; lia]. }
      apply trim_start_nil_iff in H'. congruence.
Qed.

Lemma lazy_cut_Some u c : lazy_cut u = Some c -> exists body, u = body ++ fence_close.
Proof.
  revert c. induction u as [|x u IH]; intros c; cbn [lazy_cut].
  - rewrite decide_False by discriminate. discriminate.
  - destruct (decide (trim_start (x :: u) = fence_close)) as [Ht|Ht].
    + intros _. clear IH. revert Ht. generalize (x :: u). intros s.
      induction s as [|y s IH]; simpl; [discriminate|].
      destruct (is_space y).
      * intros H. destruct (IH H) as [b ->]. exists (y :: b). reflexivity.
      * intros H. exists []. exact H.
    + destruct (lazy_cut u) as [c'|]; [|discriminate].
      intros _. destruct (IH c' eq_refl) as [b ->]. exists (x :: b). reflexivity.
Qed.

Lemma fence_tail_match u pos cap :
  option_map m_cap (rmatch fence_tail (MState pos u cap) Some) =
  option_map Some (lazy_cut (trim_start u)).
Proof.
  unfold fence_tail. cbn [rmatch m_pos m_rest m_cap].
  assert (HK : forall v p c,
    option_map m_cap
      (star_lazy any_char p v c
         (fun st' =>
            rmatch fence_closing
              (MState (m_pos st') (m_rest st') (Some (take (m_pos st' - p) v)))
              Some)) = option_map Some (lazy_cut v)).
  { intros v p c. pose proof (group_match v [] v p c eq_refl) as H.
    cbn [length] in H. rewrite Nat.add_0_r in H. rewrite H.
    destruct (lazy_cut v); reflexivity. }
  revert pos. induction u as [|c u IH]; intros pos.
  - cbn [star_greedy trim_start]. apply HK.
  - cbn [star_greedy trim_start]. destruct (is_space c) eqn:Ec; [|apply HK].
    specialize (IH (S pos)).
    destruct (star_greedy is_space (S pos) u cap _) as [r|] eqn:Es; [exact IH|].
    rewrite HK. cbn [m_rest option_map] in *.
    destruct (lazy_cut (c :: u)) as [x|] eqn:El; [|exact IH].
    exfalso. apply lazy_cut_Some in El as [b Hb].
    assert (trim_start (c :: u) = trim_start u) as Ht by (simpl; rewrite Ec; reflexivity).
    rewrite Hb, trim_start_app_close in Ht. rewrite <- Ht in IH.
    rewrite lazy_cut_close in IH. discriminate.
Qed.

Lemma fence_regex_later pos rest :
  (0 < pos)%nat -> exec_from fence_regex pos rest = None.
Proof.
  revert pos. induction rest as [|c rest IH]; intros pos Hp;
    destruct pos as [|pos]; try lia.
  - reflexivity.
  - cbn -[fence_open fence_close]. apply IH. lia.
Qed.

(** What [String.prototype.match] returns for the fence pattern. *)
Lemma string_match_fence t :
  string_match t fence_regex =
  match strip_prefix fence_open t with
  | Some u => option_map Some (lazy_cut (trim_start u))
  | None => None
  end.
Proof.
  unfold string_match.
  assert (H0 : option_map m_cap (rmatch fence_regex (MState 0 t None) Some) =
               match strip_prefix fence_open t with
               | Some u => option_map Some (lazy_cut (trim_start u))
               | None => None
               end).
  { unfold fence_regex. cbn [rmatch m_pos Nat.eqb]. rewrite rmatch_lit.
    destruct (strip_prefix fence_open t) as [u|]; [|reflexivity].
    apply fence_tail_match. }
  destruct t as [|c t]; cbn [exec_from].
  - destruct (rmatch fence_regex _ Some) as [st|]; exact H0.
  - destruct (rmatch fence_regex _ Some) as [st|]; [exact H0|].
    rewrite fence_regex_later by lia. exact H0.
Qed.


(** Any other text: no match. *)
Lemma string_match_unfenced t :
  (forall body, t <> fence_open ++ body ++ fence_close) ->
  string_match t fence_regex = None.
Proof.
  intros H. rewrite string_match_fence.
  destruct (strip_prefix fence_open t) as [u|] eqn:E; [|reflexivity].
  apply strip_prefix_Some in E.
  destruct (lazy_cut (trim_start u)) as [c|] eqn:El; [|reflexivity].
  exfalso. apply lazy_cut_Some in El as [b Hb].
  assert (exists b', u = b' ++ fence_close) as [b' ->].
  { clear E H. revert b Hb. induction u as [|x u IH]; intros b Hb.
    - simpl in Hb. destruct b; discriminate.
    - simpl in Hb. destruct (is_space x).
      + destruct (IH b Hb) as [b' ->]. exists (x :: b'). reflexivity.
      + exists b. exact Hb. }
  exact (H b' E).
Qed.

(** ** Strings survive quoting *)

Lemma hex_value_char d : d < 16 -> hex_value (hex_char d) = Some d.
Proof.
  intros H. unfold hex_char, hex_value.
  destruct (d <? 10) eqn:E.
  - apply N.ltb_lt in E.
    replace ((48 <=? 48 + d) && (48 + d <=? 57)) with true.
    + f_equal. lia.
    + symmetry. apply andb_true_iff. split; apply N.leb_le; lia.
  - apply N.ltb_ge in E.
    replace ((48 <=? 87 + d) && (87 + d <=? 57)) with false.
    + replace ((97 <=? 87 + d) && (87 + d <=? 102)) with true.
      * f_equal. lia.
      * symmetry. apply andb_true_iff. split; apply N.leb_le; lia.
    + symmetry. apply andb_false_iff. right. apply N.leb_gt. lia.
Qed.

Lemma hex_digits_value c :
  c < 65536 ->
  ((c / 4096 mod 16 * 16 + c / 256 mod 16) * 16 + c / 16 mod 16) * 16 + c mod 16 = c.
Proof.
  intros H.
  pose proof (N.div_mod c 16 ltac:(lia)) as H0.
  pose proof (N.div_mod (c / 16) 16 ltac:(lia)) as H1.
  pose proof (N.div_mod (c / 16 / 16) 16 ltac:(lia)) as H2.
  pose proof (N.mod_lt c 16 ltac:(lia)).
  pose proof (N.mod_lt (c / 16) 16 ltac:(lia)).
  pose proof (N.mod_lt (c / 16 / 16) 16 ltac:(lia)).
  replace (c / 256) with (c / 16 / 16) by (rewrite N.Div0.div_div; reflexivity).
  replace (c / 4096) with (c / 16 / 16 / 16) by (rewrite !N.Div0.div_div; reflexivity).
  assert (c / 16 / 16 / 16 < 16).
  { apply N.Div0.div_lt_upper_bound. apply N.Div0.div_lt_upper_bound.
    apply N.Div0.div_lt_upper_bound. lia. }
  rewrite (N.mod_small (c / 16 / 16 / 16)) by assumption.
  lia.
Qed.

Lemma lex_string_plain c X :
  c <> 34 -> c <> 92 -> 32 <= c ->
  lex_string (c :: X) =
  match lex_string X with
  | Some (str, rest) => Some (c :: str, rest)
  | None => None
  end.
Proof.
  intros H1 H2 H3. cbn [lex_string].
  apply N.eqb_neq in H1, H2. rewrite H1, H2.
  replace (c <? 32) with false by (symmetry; apply N.ltb_ge; exact H3).
  reflexivity.
Qed.

Lemma lex_string_unicode c X :
  c < 65536 ->
  lex_string (unicode_escape c ++ X) =
  match lex_string X with
  | Some (str, rest) => Some (c :: str, rest)
  | None => None
  end.
Proof.
  intros H. unfold unicode_escape.
  cbn [app lex_string N.eqb Pos.eqb].
  rewrite !hex_value_char by (apply N.mod_lt; lia).
  rewrite hex_digits_value by exact H. reflexivity.
Qed.

Lemma lex_string_unit c X :
  lex_string (quote_unit c ++ X) =
  match lex_string X with
  | Some (str, rest) => Some (c :: str, rest)
  | None => None
  end.
Proof.
  unfold quote_unit.
  repeat match goal with
  | |- context [if ?a =? ?b then _ else _] =>
      destruct (N.eqb_spec a b) as [->|?]; [reflexivity|]
  end.
  destruct ((c <? 32) || is_high_surrogate c || is_low_surrogate c) eqn:E.
  - apply lex_string_unicode.
    unfold is_high_surrogate, is_low_surrogate in E.
    apply orb_true_iff in E as [E|E]; [apply orb_true_iff in E as [E|E]|].
    + apply N.ltb_lt in E. lia.
    + apply andb_true_iff in E as [_ E]. apply N.leb_le in E. lia.
    + apply andb_true_iff in E as [_ E]. apply N.leb_le in E. lia.
  - apply orb_false_iff in E as [E _]. apply orb_false_iff in E as [E _].
    apply N.ltb_ge in E. apply lex_string_plain; assumption.
Qed.

Lemma lex_string_quote_units_bounded n :
  forall s rest, (length s <= n)%nat ->
  lex_string (quote_units s ++ 34 :: rest) = Some (s, rest).
Proof.
  induction n as [|n IH]; intros s rest Hn.
  - destruct s; [reflexivity | simpl in Hn; lia].
  - destruct s as [|c r]; [reflexivity|].
    cbn [quote_units].
    destruct (is_high_surrogate c) eqn:Eh.
    + destruct r as [|d r'].
      * rewrite lex_string_unit. reflexivity.
      * destruct (is_low_surrogate d) eqn:El.
        -- unfold is_high_surrogate in Eh. unfold is_low_surrogate in El.
           apply andb_true_iff in Eh as [Eh _]. apply andb_true_iff in El as [El _].
           apply N.leb_le in Eh, El.
           change ((c :: d :: quote_units r') ++ 34 :: rest)
             with (c :: d :: (quote_units r' ++ 34 :: rest)).
           rewrite lex_string_plain; [|lia..].
           rewrite lex_string_plain; [|lia..].
           rewrite IH by (simpl in Hn; lia). reflexivity.
        -- rewrite <- app_assoc, lex_string_unit.
           rewrite IH by (simpl in Hn |- *; lia). reflexivity.
    + rewrite <- app_assoc, lex_string_unit.
      rewrite IH by (simpl in Hn |- *; lia). reflexivity.
Qed.

(** Reading back a quoted string gives the string. *)
Lemma lex_string_quote_units s rest :
  lex_string (quote_units s ++ 34 :: rest) = Some (s, rest).
Proof. apply (lex_string_quote_units_bounded (length s)). lia. Qed.

(** ** Numbers: what follows a number does not change how it is read *)

Lemma follows_not_digit c rest : follows (c :: rest) -> is_digit c = false.
Proof. intros [->|[->| ->]]; reflexivity. Qed.

Lemma span_digits_app s ds r rest :
  span_digits s = (ds, r) -> follows rest ->
  span_digits (s ++ rest) = (ds, r ++ rest).
Proof.
  revert ds r. induction s as [|c s IH]; intros ds r; simpl.
  - intros [= <- <-] Hf. destruct rest as [|c rest]; [reflexivity|].
    simpl. rewrite (follows_not_digit _ _ Hf). reflexivity.
  - destruct (is_digit c).
    + destruct (span_digits s) as [ds' r'] eqn:E. intros [= <- <-] Hf.
      rewrite (IH ds' r' eq_refl Hf). reflexivity.
    + intros [= <- <-] _. reflexivity.
Qed.

Lemma lex_int_app s ip r rest :
  lex_int s = Some (ip, r) -> follows rest ->
  lex_int (s ++ rest) = Some (ip, r ++ rest).
Proof.
  unfold lex_int. destruct (span_digits s) as [ds r0] eqn:E.
  intros H Hf. rewrite (span_digits_app _ _ _ _ E Hf).
  destruct ds as [|d ds]; [discriminate|].
  destruct ((d =? 48) && negb (Nat.eqb (length ds) 0)); [discriminate|].
  injection H as <- <-. reflexivity.
Qed.

Lemma lex_frac_app s fp r rest :
  lex_frac s = Some (fp, r) -> follows rest ->
  lex_frac (s ++ rest) = Some (fp, r ++ rest).
Proof.
  unfold lex_frac. destruct s as [|c s].
  - intros [= <- <-] Hf. destruct rest as [|c rest]; [reflexivity|].
    simpl. destruct Hf as [->|[->| ->]]; reflexivity.
  - simpl. destruct (c =? 46).
    + destruct (span_digits s) as [ds r0] eqn:E. intros H Hf.
      rewrite (span_digits_app _ _ _ _ E Hf).
      destruct ds; [discriminate|]. injection H as <- <-. reflexivity.
    + intros [= <- <-] _. reflexivity.
Qed.

Lemma lex_exp_app s ex r rest :
  lex_exp s = Some (ex, r) -> follows rest ->
  lex_exp (s ++ rest) = Some (ex, r ++ rest).
Proof.
  unfold lex_exp. destruct s as [|c s].
  - intros [= <- <-] Hf. destruct rest as [|c rest]; [reflexivity|].
    simpl. destruct Hf as [->|[->| ->]]; reflexivity.
  - simpl. destruct ((c =? 101) || (c =? 69)).
    + destruct s as [|g s'].
      * simpl. discriminate.
      * simpl. destruct (g =? 45); [|destruct (g =? 43)].
        -- destruct (span_digits s') as [ds r0] eqn:E. intros H Hf.
           rewrite (span_digits_app _ _ _ _ E Hf).
           destruct ds; [discriminate|]. injection H as <- <-. reflexivity.
        -- destruct (span_digits s') as [ds r0] eqn:E. intros H Hf.
           rewrite (span_digits_app _ _ _ _ E Hf).
           destruct ds; [discriminate|]. injection H as <- <-. reflexivity.
        -- destruct (span_digits (g :: s')) as [ds r0] eqn:E. intros H Hf.
           change (g :: s' ++ rest) with ((g :: s') ++ rest).
           rewrite (span_digits_app _ _ _ _ E Hf).
           destruct ds; [discriminate|]. injection H as <- <-. reflexivity.
    + intros [= <- <-] _. reflexivity.
Qed.

Lemma lex_number_app s n r rest :
  lex_number s = Some (n, r) -> follows rest ->
  lex_number (s ++ rest) = Some (n, r ++ rest).
Proof.
  unfold lex_number. intros H Hf.
  assert (Hs : lex_sign (s ++ rest) = (fst (lex_sign s), snd (lex_sign s) ++ rest)).
  { destruct s as [|c s].
    - simpl in H. discriminate.
    - simpl. destruct (c =? 45); reflexivity. }
  rewrite Hs. destruct (lex_sign s) as [neg s1]. cbn [fst snd].
  destruct (lex_int s1) as [[ip s2]|] eqn:Ei; [|discriminate].
  rewrite (lex_int_app _ _ _ _ Ei Hf).
  destruct (lex_frac s2) as [[fp s3]|] eqn:Efr; [|discriminate].
  rewrite (lex_frac_app _ _ _ _ Efr Hf).
  destruct (lex_exp s3) as [[ex s4]|] eqn:Ee; [|discriminate].
  rewrite (lex_exp_app _ _ _ _ Ee Hf).
  injection H as <- <-. reflexivity.
Qed.

(** A number is read from a minus sign or a digit. *)
Lemma lex_number_head s n r :
  lex_number s = Some (n, r) ->
  exists c s', s = c :: s' /\ (c = 45 \/ is_digit c = true).
Proof.
  unfold lex_number, lex_sign. destruct s as [|c s]; [discriminate|].
  intros H. exists c, s. split; [reflexivity|].
  destruct (N.eqb_spec c 45) as [->|Hc]; [left; reflexivity|right].
  unfold lex_int in H. simpl in H. destruct (is_digit c); [reflexivity|discriminate].
Qed.

(** ** Property order of objects *)

(** *** Array indices are written in one way only *)

Lemma is_digit_range c : is_digit c = true -> (48 <= Z.of_N c <= 57)%Z.
Proof.
  unfold is_digit. intros H. apply andb_true_iff in H as [H1 H2].
  apply N.leb_le in H1, H2. lia.
Qed.

Lemma digits_value_snoc ds c :
  digits_value (ds ++ [c]) = (10 * digits_value ds + (Z.of_N c - 48))%Z.
Proof. unfold digits_value. rewrite fold_left_app. reflexivity. Qed.

Lemma digits_fold_ge ds : forall acc,
  forallb is_digit ds = true -> (0 <= acc)%Z ->
  (acc <= fold_left (fun a c => 10 * a + (Z.of_N c - 48)) ds acc)%Z.
Proof.
  induction ds as [|c ds IH]; intros acc Hd Ha; simpl; [lia|].
  simpl in Hd. apply andb_true_iff in Hd as [Hc Hd].
  apply is_digit_range in Hc.
  specialize (IH (10 * acc + (Z.of_N c - 48))%Z Hd). lia.
Qed.

Lemma digits_value_nonneg ds : forallb is_digit ds = true -> (0 <= digits_value ds)%Z.
Proof. intros H. apply (digits_fold_ge ds 0%Z H). lia. Qed.

Lemma digits_value_pos d ds :
  forallb is_digit (d :: ds) = true -> d <> 48 -> (0 < digits_value (d :: ds))%Z.
Proof.
  intros H Hd. simpl in H. apply andb_true_iff in H as [Hc Hr].
  apply is_digit_range in Hc. unfold digits_value. cbn [fold_left].
  replace (10 * 0 + (Z.of_N d - 48))%Z with (Z.of_N d - 48)%Z by lia.
  pose proof (digits_fold_ge ds (Z.of_N d - 48)%Z Hr). lia.
Qed.

Lemma digits_value_inj_nlz a : forall b,
  forallb is_digit a = true -> forallb is_digit b = true ->
  no_leading_zero a -> no_leading_zero b ->
  digits_value a = digits_value b -> a = b.
Proof.
  induction a as [|x a IH] using rev_ind; intros b Ha Hb Na Nb Hv.
  - destruct b as [|d b]; [reflexivity|].
    pose proof (digits_value_pos d b Hb Nb). change (digits_value []) with 0%Z in Hv. lia.
  - destruct b as [|y b _] using rev_ind.
    + destruct a as [|d a].
      * simpl in Na, Ha. rewrite andb_true_r in Ha. apply is_digit_range in Ha.
        unfold digits_value in Hv. simpl in Hv.
        exfalso. apply Na. lia.
      * pose proof (digits_value_pos d (a ++ [x]) Ha Na).
        change (digits_value []) with 0%Z in Hv. simpl in Hv. lia.
    + rewrite forallb_app in Ha, Hb.
      apply andb_true_iff in Ha as [Ha Hx]. apply andb_true_iff in Hb as [Hb Hy].
      simpl in Hx, Hy. rewrite andb_true_r in Hx, Hy.
      apply is_digit_range in Hx, Hy.
      rewrite !digits_value_snoc in Hv.
      pose proof (digits_value_nonneg a Ha). pose proof (digits_value_nonneg b Hb).
      assert (digits_value a = digits_value b) as Hab by lia.
      assert (x = y) as -> by lia.
      f_equal. apply IH; try assumption.
      * destruct a; [exact I | exact Na].
      * destruct b; [exact I | exact Nb].
Qed.

Lemma array_index_Some k i :
  array_index k = Some i ->
  i = digits_value k /\ forallb is_digit k = true /\
  (k = [48] \/ (k <> [] /\ no_leading_zero k)).
Proof.
  unfold array_index. destruct k as [|d r]; [discriminate|].
  destruct (forallb is_digit (d :: r)) eqn:Hd; [|discriminate].
  destruct (negb (d =? 48) || Nat.eqb (length r) 0) eqn:Hz; [|discriminate].
  destruct (Nat.leb (length (d :: r)) 10); [|discriminate].
  destruct (digits_value (d :: r) <=? 4294967294)%Z; [|discriminate].
  simpl. intros [= <-]. split; [reflexivity|]. split; [reflexivity|].
  destruct (N.eqb_spec d 48) as [->|Hne].
  - simpl in Hz. left. destruct r; [reflexivity|discriminate].
  - right. split; [discriminate|exact Hne].
Qed.

Lemma array_index_inj k k' i :
  array_index k = Some i -> array_index k' = Some i -> k = k'.
Proof.
  intros H H'.
  apply array_index_Some in H as (Hi & Hd & Hk).
  apply array_index_Some in H' as (Hi' & Hd' & Hk').
  assert (Hz : forall s, forallb is_digit s = true -> s <> [] ->
                 no_leading_zero s -> digits_value s <> 0%Z).
  { intros [|d s] Hs Hn Hl; [congruence|].
    pose proof (digits_value_pos d s Hs Hl). lia. }
  destruct Hk as [->|[Hn Hl]]; destruct Hk' as [->|[Hn' Hl']].
  - reflexivity.
  - exfalso. apply (Hz k' Hd' Hn' Hl'). rewrite <- Hi', Hi. reflexivity.
  - exfalso. apply (Hz k Hd Hn Hl). rewrite <- Hi, Hi'. reflexivity.
  - apply digits_value_inj_nlz; try assumption. congruence.
Qed.

(** *** Defining a property keeps the order *)

Lemma obj_get_None ps k : obj_get ps k = None <-> k ∉ keys ps.
Proof.
  induction ps as [|[k' v'] ps IH]; simpl.
  - split; [intros _; apply not_elem_of_nil | reflexivity].
  - destruct (decide (k' = k)) as [->|Hne].
    + split; [discriminate|]. intros H. exfalso. apply H. left.
    + rewrite IH. split.
      * intros H Hin. apply elem_of_cons in Hin as [->|Hin]; [congruence|auto].
      * intros H Hin. apply H. right. exact Hin.
Qed.

Lemma keys_obj_replace ps k v : keys (obj_replace ps k v) = keys ps.
Proof.
  induction ps as [|[k' v'] ps IH]; simpl; [reflexivity|].
  destruct (decide (k' = k)); simpl; [reflexivity|]. f_equal. exact IH.
Qed.

Lemma keys_canonical_snoc ks k :
  keys_canonical ks -> k ∉ ks -> Forall (fun k' => key_follows k' k) ks ->
  keys_canonical (ks ++ [k]).
Proof.
  induction ks as [|x ks IH]; simpl.
  - intros _ _ _. split; [apply not_elem_of_nil|]. split; [constructor|exact I].
  - intros (Hx & Hf & Hc) Hk Ha. inversion Ha as [|? ? Hxk Ha']; subst.
    split; [|split].
    + intros Hin. apply elem_of_app in Hin as [Hin|Hin]; [auto|].
      apply list_elem_of_singleton in Hin as ->. apply Hk. left.
    + apply Forall_app. split; [exact Hf|]. constructor; [exact Hxk|constructor].
    + apply IH; [exact Hc| |exact Ha'].
      intros Hin. apply Hk. right. exact Hin.
Qed.

Lemma keys_canonical_app_l ks ks' : keys_canonical (ks ++ ks') -> keys_canonical ks.
Proof.
  induction ks as [|x ks IH]; simpl; [intros _; exact I|].
  intros (Hx & Hf & Hc). split; [|split].
  - intros Hin. apply Hx. apply elem_of_app. left. exact Hin.
  - apply Forall_app in Hf as [Hf _]. exact Hf.
  - apply IH. exact Hc.
Qed.

Lemma keys_canonical_snoc_inv ks k :
  keys_canonical (ks ++ [k]) ->
  (k ∉ ks) /\ Forall (fun k' => key_follows k' k) ks.
Proof.
  induction ks as [|x ks IH]; simpl.
  - intros _. split; [apply not_elem_of_nil|constructor].
  - intros (Hx & Hf & Hc). destruct (IH Hc) as [Hk Ha].
    apply Forall_app in Hf as [_ Hf]. inversion Hf as [|? ? Hxk _]; subst.
    split.
    + intros Hin. apply elem_of_cons in Hin as [->|Hin]; [|auto].
      apply Hx. apply elem_of_app. right. left.
    + constructor; assumption.
Qed.

Lemma elem_of_keys_insert_index ps i k v x :
  x ∈ keys (obj_insert_index ps i k v) <-> x = k \/ (x ∈ keys ps).
Proof.
  induction ps as [|[k' v'] ps IH]; simpl.
  - rewrite list_elem_of_singleton. split; [auto|]. intros [H|H]; [exact H|].
    exfalso. revert H. apply not_elem_of_nil.
  - destruct (array_index k') as [j|]; [destruct (j <? i)%Z|]; simpl;
      rewrite ?elem_of_cons, ?IH; simpl; rewrite ?elem_of_cons; tauto.
Qed.

Lemma keys_canonical_insert_index ps i k v :
  array_index k = Some i -> k ∉ keys ps ->
  keys_canonical (keys ps) -> keys_canonical (keys (obj_insert_index ps i k v)).
Proof.
  intros Hi. induction ps as [|[k' v'] ps IH]; simpl.
  - intros _ _. split; [apply not_elem_of_nil|]. split; [constructor|exact I].
  - intros Hk (Hx & Hf & Hc).
    assert (Hne : k' <> k) by (intros ->; apply Hk; left).
    assert (Hk' : k ∉ keys ps) by (intros Hin; apply Hk; right; exact Hin).
    assert (Hnew : k ∉ k' :: keys ps) by exact Hk.
    destruct (array_index k') as [j|] eqn:Ej; [destruct (j <? i)%Z eqn:Elt|].
    + simpl. split; [|split].
      * rewrite elem_of_keys_insert_index. intros [H|H]; [congruence|auto].
      * apply Forall_forall. intros y Hy.
        apply elem_of_keys_insert_index in Hy as [->|Hy].
        -- unfold key_follows. rewrite Ej, Hi. apply Z.ltb_lt. exact Elt.
        -- rewrite Forall_forall in Hf. apply Hf. exact Hy.
      * apply IH; assumption.
    + simpl. split; [exact Hnew|]. split; [|split; [exact Hx|split; assumption]].
      apply Z.ltb_ge in Elt.
      assert (i < j)%Z as Hlt.
      { destruct (Z.eq_dec i j) as [->|]; [|lia].
        exfalso. apply Hne. eapply array_index_inj; eassumption. }
      constructor.
      * unfold key_follows. rewrite Hi, Ej. exact Hlt.
      * eapply Forall_impl; [exact Hf|]. intros y. unfold key_follows.
        rewrite Ej, Hi. destruct (array_index y); [lia|tauto].
    + simpl. split; [exact Hnew|]. split; [|split; [exact Hx|split; assumption]].
      constructor.
      * unfold key_follows. rewrite Hi, Ej. exact I.
      * eapply Forall_impl; [exact Hf|]. intros y. unfold key_follows.
        rewrite Ej, Hi. destruct (array_index y); tauto.
Qed.

Lemma keys_canonical_obj_set ps k v :
  keys_canonical (keys ps) -> keys_canonical (keys (obj_set ps k v)).
Proof.
  intros Hc. unfold obj_set. destruct (obj_get ps k) eqn:Eg.
  - rewrite keys_obj_replace. exact Hc.
  - apply obj_get_None in Eg. destruct (array_index k) as [i|] eqn:Ei.
    + apply keys_canonical_insert_index; assumption.
    + unfold keys. rewrite map_app. cbn [List.map fst].
      apply keys_canonical_snoc; [exact Hc|exact Eg|].
      apply Forall_forall. intros y _. unfold key_follows. rewrite Ei.
      destruct (array_index y); exact I.
Qed.

(** A key that comes last in the canonical order is added at the end. *)
Lemma obj_set_snoc ps k v :
  keys_canonical (keys (ps ++ [(k, v)])) -> obj_set ps k v = ps ++ [(k, v)].
Proof.
  unfold keys. rewrite map_app. simpl. intros Hc.
  apply keys_canonical_snoc_inv in Hc as [Hk Ha].
  unfold obj_set. apply obj_get_None in Hk. rewrite Hk.
  destruct (array_index k) as [i|] eqn:Ei; [|reflexivity].
  clear Hk. induction ps as [|[k' v'] ps IH]; simpl; [reflexivity|].
  inversion Ha as [|? ? Hf Ha']; subst. unfold key_follows in Hf. rewrite Ei in Hf.
  simpl in Hf. destruct (array_index k') as [j|]; [|contradiction].
  apply Z.ltb_lt in Hf. rewrite Hf. f_equal. apply IH. exact Ha'.
Qed.

Lemma fold_obj_set ps : forall acc,
  keys_canonical (keys (acc ++ ps)) ->
  fold_left (fun a p => obj_set a (fst p) (snd p)) ps acc = acc ++ ps.
Proof.
  induction ps as [|[k v] ps IH]; intros acc Hc; simpl.
  - rewrite app_nil_r. reflexivity.
  - assert (Hc' : keys_canonical (keys ((acc ++ [(k, v)]) ++ ps))).
    { rewrite <- app_assoc. exact Hc. }
    rewrite obj_set_snoc.
    + rewrite IH by exact Hc'. rewrite <- app_assoc. reflexivity.
    + unfold keys in Hc' |- *. rewrite map_app in Hc'.
      apply keys_canonical_app_l in Hc'. exact Hc'.
Qed.

(** ** Values in canonical form *)

Lemma number_eqb_eq m n : number_eqb m n = true -> m = n.
Proof.
  destruct m as [a|a| |a m e], n as [b|b| |b m' e']; simpl; try discriminate.
  - intros H. apply Bool.eqb_prop in H as ->. reflexivity.
  - intros H. apply Bool.eqb_prop in H as ->. reflexivity.
  - reflexivity.
  - intros H. apply andb_true_iff in H as [H He]. apply andb_true_iff in H as [Hs Hm].
    apply Bool.eqb_prop in Hs as ->. apply Pos.eqb_eq in Hm as ->.
    apply Z.eqb_eq in He as ->. reflexivity.
Qed.

Lemma stable_number_lex n :
  stable_number n = true -> lex_number (number_to_json n) = Some (n, []).
Proof.
  unfold stable_number. destruct (lex_number (number_to_json n)) as [[m [|c r]]|];
    try discriminate.
  intros H. apply number_eqb_eq in H as ->. reflexivity.
Qed.

(** *** Defining a property keeps the values well formed *)

Lemma Forall_obj_replace (P : value -> Prop) ps k v :
  Forall (fun p => P (snd p)) ps -> P v ->
  Forall (fun p => P (snd p)) (obj_replace ps k v).
Proof.
  intros H Hv. induction H as [|[k' v'] ps Hp H IH]; simpl; [constructor|].
  destruct (decide (k' = k)); constructor; assumption.
Qed.

Lemma Forall_obj_insert_index (P : value -> Prop) ps i k v :
  Forall (fun p => P (snd p)) ps -> P v ->
  Forall (fun p => P (snd p)) (obj_insert_index ps i k v).
Proof.
  intros H Hv. induction H as [|[k' v'] ps Hp H IH]; simpl.
  - constructor; [exact Hv|constructor].
  - destruct (array_index k') as [j|]; [destruct (j <? i)%Z|];
      repeat (constructor; try assumption).
Qed.

Lemma Forall_obj_set (P : value -> Prop) ps k v :
  Forall (fun p => P (snd p)) ps -> P v ->
  Forall (fun p => P (snd p)) (obj_set ps k v).
Proof.
  intros H Hv. unfold obj_set. destruct (obj_get ps k).
  - apply Forall_obj_replace; assumption.
  - destruct (array_index k).
    + apply Forall_obj_insert_index; assumption.
    + apply Forall_app. split; [exact H|]. constructor; [exact Hv|constructor].
Qed.

(** *** What the parser returns is in canonical form *)

Lemma parse_value_S f s :
  parse_value (S f) s =
  match skip_ws s with
  | [] => None
  | c :: r =>
      if c =? 123 then
        match skip_ws r with
        | c' :: r' =>
            if c' =? 125 then Some (VObj [], r') else parse_members f r []
        | [] => None
        end
      else if c =? 91 then
        match skip_ws r with
        | c' :: r' =>
            if c' =? 93 then Some (VArr [], r') else parse_elements f r []
        | [] => None
        end
      else if c =? 34 then
        match lex_string r with
        | Some (str, rest) => Some (VStr str, rest)
        | None => None
        end
      else if c =? 116 then
        match strip_prefix (js "rue") r with
        | Some rest => Some (VBool true, rest)
        | None => None
        end
      else if c =? 102 then
        match strip_prefix (js "alse") r with
        | Some rest => Some (VBool false, rest)
        | None => None
        end
      else if c =? 110 then
        match strip_prefix (js "ull") r with
        | Some rest => Some (VNull, rest)
        | None => None
        end
      else
        match lex_number (c :: r) with
        | Some (n, rest) => Some (VNum n, rest)
        | None => None
        end
  end.
Proof. reflexivity. Qed.

Lemma parse_elements_S f s acc :
  parse_elements (S f) s acc =
  match parse_value f s with
  | Some (v, r) =>
      match skip_ws r with
      | c :: r' =>
          if c =? 44 then parse_elements f r' (acc ++ [v])
          else if c =? 93 then Some (VArr (acc ++ [v]), r')
          else None
      | [] => None
      end
  | None => None
  end.
Proof. reflexivity. Qed.

Lemma parse_members_S f s acc :
  parse_members (S f) s acc =
  match skip_ws s with
  | q :: r =>
      if q =? 34 then
        match lex_string r with
        | Some (k, r1) =>
            match skip_ws r1 with
            | c :: r2 =>
                if c =? 58 then
                  match parse_value f r2 with
                  | Some (v, r3) =>
                      match skip_ws r3 with
                      | c' :: r4 =>
                          if c' =? 44 then parse_members f r4 (obj_set acc k v)
                          else if c' =? 125 then
                            Some (VObj (obj_set acc k v), r4)
                          else None
                      | [] => None
                      end
                  | None => None
                  end
                else None
            | [] => None
            end
        | None => None
        end
      else None
  | [] => None
  end.
Proof. reflexivity. Qed.

Ltac split_match :=
  match goal with
  | H : context [match ?x with _ => _ end] |- _ =>
      let E := fresh "E" in destruct x eqn:E; try discriminate H
  end.

Lemma parse_wf fuel :
  (forall s v r, parse_value fuel s = Some (v, r) -> wf_value v) /\
  (forall s acc v r, Forall wf_value acc ->
     parse_elements fuel s acc = Some (v, r) -> wf_value v) /\
  (forall s acc v r, keys_canonical (keys acc) ->
     Forall (fun p => wf_value (snd p)) acc ->
     parse_members fuel s acc = Some (v, r) -> wf_value v).
Proof.
  induction fuel as [|f (IHv & IHe & IHm)].
  - repeat split; intros; discriminate.
  - split; [|split].
    + intros s v r H. rewrite parse_value_S in H.
      repeat split_match;
        try (injection H as <- <-; repeat constructor; fail).
      * eapply IHm; [| |exact H]; [exact I|constructor].
      * eapply IHe; [|exact H]. constructor.
    + intros s acc v r Hacc H. rewrite parse_elements_S in H.
      repeat split_match.
      * eapply IHe; [|exact H]. apply Forall_app. split; [exact Hacc|].
        constructor; [|constructor]. eapply IHv. eassumption.
      * injection H as <- <-. constructor. apply Forall_app. split; [exact Hacc|].
        constructor; [|constructor]. eapply IHv. eassumption.
    + intros s acc v r Hk Hacc H. rewrite parse_members_S in H.
      repeat split_match.
      * eapply IHm; [| |exact H].
        -- apply keys_canonical_obj_set. exact Hk.
        -- apply Forall_obj_set; [exact Hacc|]. eapply IHv. eassumption.
      * injection H as <- <-. constructor.
        -- apply keys_canonical_obj_set. exact Hk.
        -- apply Forall_obj_set; [exact Hacc|]. eapply IHv. eassumption.
Qed.

Lemma JSON_parse_wf text v : JSON_parse text = Some v -> wf_value v.
Proof.
  unfold JSON_parse. intros H.
  destruct (parse_value _ text) as [[v' r]|] eqn:E; [|discriminate].
  destruct (skip_ws r); [|discriminate]. injection H as <-.
  eapply (proj1 (parse_wf _)). exact E.
Qed.

(** ** The parser's fuel is enough

    Each lexer and each call of the parser consumes input, so the result of
    [parse_value] does not depend on the fuel once the fuel exceeds twice the
    length of the input: a [None] of [JSON_parse] is a syntax error, never a
    lack of fuel. *)

Lemma skip_ws_length s : (length (skip_ws s) <= length s)%nat.
Proof.
  induction s as [|c s IH]; simpl; [lia|].
  destruct (is_json_ws c); simpl; lia.
Qed.

Lemma lex_string_length_bounded n : forall s k r,
  (length s <= n)%nat -> lex_string s = Some (k, r) -> (length r < length s)%nat.
Proof.
  induction n as [|n IH]; intros s k r Hn H;
    (destruct s as [|c s]; [discriminate|]); [simpl in Hn; lia|].
  cbn [lex_string] in H. simpl in Hn.
  destruct (c =? 34); [injection H as <- <-; simpl; lia|].
  destruct (c =? 92).
  - destruct s as [|e s1]; [discriminate|].
    destruct (e =? 117).
    + destruct s1 as [|h1 [|h2 [|h3 [|h4 s2]]]]; try discriminate.
      destruct (hex_value h1), (hex_value h2), (hex_value h3), (hex_value h4);
        try discriminate.
      destruct (lex_string s2) as [[str rest]|] eqn:E; [|discriminate].
      injection H as <- <-. apply IH in E; simpl in *; lia.
    + destruct (simple_escape e); [|discriminate].
      destruct (lex_string s1) as [[str rest]|] eqn:E; [|discriminate].
      injection H as <- <-. apply IH in E; simpl in *; lia.
  - destruct (c <? 32); [discriminate|].
    destruct (lex_string s) as [[str rest]|] eqn:E; [|discriminate].
    injection H as <- <-. apply IH in E; simpl in *; lia.
Qed.

Lemma lex_string_length s k r :
  lex_string s = Some (k, r) -> (length r < length s)%nat.
Proof. apply (lex_string_length_bounded (length s)). lia. Qed.

Lemma strip_prefix_length p s r :
  strip_prefix p s = Some r -> (length r <= length s)%nat.
Proof.
  intros H. apply strip_prefix_Some in H. subst s. rewrite length_app. lia.
Qed.

Lemma span_digits_length s ds r :
  span_digits s = (ds, r) -> (length s = length ds + length r)%nat.
Proof.
  revert ds r. induction s as [|c s IH]; intros ds r; simpl.
  - intros [= <- <-]. reflexivity.
  - destruct (is_digit c).
    + destruct (span_digits s) as [ds' r'] eqn:E. intros [= <- <-].
      simpl. rewrite (IH ds' r' eq_refl). reflexivity.
    + intros [= <- <-]. reflexivity.
Qed.

Lemma lex_number_length s n r :
  lex_number s = Some (n, r) -> (length r < length s)%nat.
Proof.
  unfold lex_number. intros H.
  assert (Hs : (length (snd (lex_sign s)) <= length s)%nat).
  { unfold lex_sign. destruct s as [|c s]; simpl; [lia|].
    destruct (c =? 45); simpl; lia. }
  destruct (lex_sign s) as [neg s1]. cbn [snd] in Hs.
  destruct (lex_int s1) as [[ip s2]|] eqn:Ei; [|discriminate].
  destruct (lex_frac s2) as [[fp s3]|] eqn:Efr; [|discriminate].
  destruct (lex_exp s3) as [[ex s4]|] eqn:Ee; [|discriminate].
  injection H as _ <-.
  assert (length s2 < length s1)%nat.
  { unfold lex_int in Ei. destruct (span_digits s1) as [ds r0] eqn:E.
    apply span_digits_length in E. destruct ds as [|d ds]; [discriminate|].
    destruct ((d =? 48) && negb (Nat.eqb (length ds) 0)); [discriminate|].
    injection Ei as <- <-. simpl in E. lia. }
  assert (length s3 <= length s2)%nat.
  { unfold lex_frac in Efr. destruct s2 as [|c s2]; [injection Efr as <- <-; lia|].
    destruct (c =? 46).
    - destruct (span_digits s2) as [ds r0] eqn:E. apply span_digits_length in E.
      destruct ds; [discriminate|]. injection Efr as <- <-. simpl in *. lia.
    - injection Efr as <- <-. lia. }
  assert (length s4 <= length s3)%nat.
  { unfold lex_exp in Ee. destruct s3 as [|c s3]; [injection Ee as <- <-; lia|].
    destruct ((c =? 101) || (c =? 69)).
    - destruct s3 as [|g s3'].
      + simpl in Ee. discriminate.
      + destruct (g =? 45); [|destruct (g =? 43)].
        * destruct (span_digits s3') as [ds r0] eqn:E. apply span_digits_length in E.
          destruct ds; [discriminate|]. injection Ee as <- <-. simpl in *. lia.
        * destruct (span_digits s3') as [ds r0] eqn:E. apply span_digits_length in E.
          destruct ds; [discriminate|]. injection Ee as <- <-. simpl in *. lia.
        * destruct (span_digits (g :: s3')) as [ds r0] eqn:E.
          apply span_digits_length in E.
          destruct ds; [discriminate|]. injection Ee as <- <-. simpl in *. lia.
    - injection Ee as <- <-. lia. }
  lia.
Qed.

(** Every successful call consumes input. *)
Lemma parse_length fuel :
  (forall s v r, parse_value fuel s = Some (v, r) -> (length r < length s)%nat) /\
  (forall s acc v r, parse_elements fuel s acc = Some (v, r) ->
     (length r < length s)%nat) /\
  (forall s acc v r, parse_members fuel s acc = Some (v, r) ->
     (length r < length s)%nat).
Proof.
  induction fuel as [|f (IHv & IHe & IHm)].
  - repeat split; intros; discriminate.
  - split; [|split].
    + intros s v r H. rewrite parse_value_S in H.
      pose proof (skip_ws_length s) as Hs.
      destruct (skip_ws s) as [|c r0] eqn:E0; [discriminate|]. simpl in Hs.
      pose proof (skip_ws_length r0) as Hs0.
      repeat split_match;
        try (injection H as <- <-);
        repeat match goal with
        | E : lex_string _ = Some _ |- _ => apply lex_string_length in E
        | E : strip_prefix _ _ = Some _ |- _ => apply strip_prefix_length in E
        | E : lex_number _ = Some _ |- _ => apply lex_number_length in E
        | E : parse_members _ _ _ = Some _ |- _ => apply IHm in E
        | E : parse_elements _ _ _ = Some _ |- _ => apply IHe in E
        end;
        try (apply IHm in H); try (apply IHe in H); simpl in *; lia.
    + intros s acc v r H. rewrite parse_elements_S in H.
      destruct (parse_value f s) as [[x r1]|] eqn:Ex; [|discriminate].
      apply IHv in Ex. pose proof (skip_ws_length r1) as Hs.
      destruct (skip_ws r1) as [|c r2]; [discriminate|]. simpl in Hs.
      destruct (c =? 44); [apply IHe in H; lia|].
      destruct (c =? 93); [|discriminate]. injection H as <- <-. lia.
    + intros s acc v r H. rewrite parse_members_S in H.
      pose proof (skip_ws_length s) as Hs.
      destruct (skip_ws s) as [|q r0]; [discriminate|]. simpl in Hs.
      destruct (q =? 34); [|discriminate].
      destruct (lex_string r0) as [[k r1]|] eqn:Ek; [|discriminate].
      apply lex_string_length in Ek. pose proof (skip_ws_length r1) as Hs1.
      destruct (skip_ws r1) as [|c r2]; [discriminate|]. simpl in Hs1.
      destruct (c =? 58); [|discriminate].
      destruct (parse_value f r2) as [[x r3]|] eqn:Ex; [|discriminate].
      apply IHv in Ex. pose proof (skip_ws_length r3) as Hs3.
      destruct (skip_ws r3) as [|c' r4]; [discriminate|]. simpl in Hs3.
      destruct (c' =? 44); [apply IHm in H; lia|].
      destruct (c' =? 125); [|discriminate]. injection H as <- <-. lia.
Qed.

(** A result obtained with some fuel is obtained with any fuel above twice
    the input consumed. *)
Lemma parse_fuel_enough fuel :
  (forall s v r, parse_value fuel s = Some (v, r) ->
     forall f0, (2 * (length s - length r) < f0)%nat ->
     parse_value f0 s = Some (v, r)) /\
  (forall s acc v r, parse_elements fuel s acc = Some (v, r) ->
     forall f0, (2 * (length s - length r) <= f0)%nat ->
     parse_elements f0 s acc = Some (v, r)) /\
  (forall s acc v r, parse_members fuel s acc = Some (v, r) ->
     forall f0, (2 * (length s - length r) <= f0)%nat ->
     parse_members f0 s acc = Some (v, r)).
Proof.
  induction fuel as [|f (IHv & IHe & IHm)].
  - repeat split; intros; discriminate.
  - destruct (parse_length f) as (Lv & Le & Lm).
    split; [|split].
    + intros s v r H f0 Hf. destruct f0 as [|g]; [lia|].
      rewrite parse_value_S in H |- *.
      pose proof (skip_ws_length s) as Hs.
      destruct (skip_ws s) as [|c r0] eqn:E0; [discriminate|]. simpl in Hs.
      pose proof (skip_ws_length r0) as Hs0.
      destruct (c =? 123).
      { destruct (skip_ws r0) as [|c' r'] eqn:E1; [discriminate|]. simpl in Hs0.
        destruct (c' =? 125); [exact H|].
        pose proof (Lm _ _ _ _ H). apply (IHm _ _ _ _ H). lia. }
      destruct (c =? 91).
      { destruct (skip_ws r0) as [|c' r'] eqn:E1; [discriminate|]. simpl in Hs0.
        destruct (c' =? 93); [exact H|].
        pose proof (Le _ _ _ _ H). apply (IHe _ _ _ _ H). lia. }
      exact H.
    + intros s acc v r H f0 Hf. rewrite parse_elements_S in H.
      destruct (parse_value f s) as [[x r1]|] eqn:Ex; [|discriminate].
      pose proof (Lv _ _ _ Ex) as Lx. pose proof (skip_ws_length r1) as Hs.
      destruct (skip_ws r1) as [|c r2] eqn:E1; [discriminate|]. simpl in Hs.
      assert (Hr : (length r <= length r2)%nat).
      { destruct (c =? 44); [pose proof (Le _ _ _ _ H); lia|].
        destruct (c =? 93); [|discriminate]. injection H as _ <-. lia. }
      destruct f0 as [|g]; [lia|]. rewrite parse_elements_S.
      rewrite (IHv _ _ _ Ex g) by lia. rewrite E1.
      destruct (c =? 44); [|exact H].
      pose proof (Le _ _ _ _ H). apply (IHe _ _ _ _ H). lia.
    + intros s acc v r H f0 Hf. rewrite parse_members_S in H.
      pose proof (skip_ws_length s) as Hs.
      destruct (skip_ws s) as [|q r0] eqn:E0; [discriminate|]. simpl in Hs.
      destruct (q =? 34) eqn:Eq; [|discriminate].
      destruct (lex_string r0) as [[k r1]|] eqn:Ek; [|discriminate].
      pose proof (lex_string_length _ _ _ Ek) as Lk.
      pose proof (skip_ws_length r1) as Hs1.
      destruct (skip_ws r1) as [|c r2] eqn:E1; [discriminate|]. simpl in Hs1.
      destruct (c =? 58) eqn:Ec; [|discriminate].
      destruct (parse_value f r2) as [[x r3]|] eqn:Ex; [|discriminate].
      pose proof (Lv _ _ _ Ex) as Lx. pose proof (skip_ws_length r3) as Hs3.
      destruct (skip_ws r3) as [|c' r4] eqn:E3; [discriminate|]. simpl in Hs3.
      assert (Hr : (length r <= length r4)%nat).
      { destruct (c' =? 44); [pose proof (Lm _ _ _ _ H); lia|].
        destruct (c' =? 125); [|discriminate]. injection H as _ <-. lia. }
      destruct f0 as [|g]; [lia|]. rewrite parse_members_S.
      rewrite E0, Eq, Ek, E1, Ec. rewrite (IHv _ _ _ Ex g) by lia. rewrite E3.
      destruct (c' =? 44); [|exact H].
      pose proof (Lm _ _ _ _ H). apply (IHm _ _ _ _ H). lia.
Qed.

(** More fuel never changes a result. *)
Lemma parse_fuel_S n :
  (forall s v r, parse_value n s = Some (v, r) -> parse_value (S n) s = Some (v, r)) /\
  (forall s acc v r, parse_elements n s acc = Some (v, r) ->
                     parse_elements (S n) s acc = Some (v, r)) /\
  (forall s acc v r, parse_members n s acc = Some (v, r) ->
                     parse_members (S n) s acc = Some (v, r)).
Proof.
  induction n as [|n (Mv & Me & Mm)].
  - repeat split; intros; discriminate.
  - split; [|split].
    + intros s v r H. rewrite parse_value_S in H. rewrite parse_value_S.
      destruct (skip_ws s) as [|c r0]; [discriminate|].
      destruct (c =? 123).
      { destruct (skip_ws r0) as [|c' r']; [discriminate|].
        destruct (c' =? 125); [exact H|]. apply Mm. exact H. }
      destruct (c =? 91).
      { destruct (skip_ws r0) as [|c' r']; [discriminate|].
        destruct (c' =? 93); [exact H|]. apply Me. exact H. }
      exact H.
    + intros s acc v r H. rewrite parse_elements_S in H.
      rewrite parse_elements_S.
      destruct (parse_value n s) as [[x r1]|] eqn:Ex; [|discriminate].
      rewrite (Mv _ _ _ Ex).
      destruct (skip_ws r1) as [|c r2]; [discriminate|].
      destruct (c =? 44); [apply Me; exact H|exact H].
    + intros s acc v r H. rewrite parse_members_S in H.
      rewrite parse_members_S.
      destruct (skip_ws s) as [|q r0]; [discriminate|].
      destruct (q =? 34); [|discriminate].
      destruct (lex_string r0) as [[k r1]|]; [|discriminate].
      destruct (skip_ws r1) as [|c r2]; [discriminate|].
      destruct (c =? 58); [|discriminate].
      destruct (parse_value n r2) as [[x r3]|] eqn:Ex; [|discriminate].
      rewrite (Mv _ _ _ Ex).
      destruct (skip_ws r3) as [|c' r4]; [discriminate|].
      destruct (c' =? 44); [apply Mm; exact H|exact H].
Qed.

Lemma parse_value_fuel_mono f f' s v r :
  parse_value f s = Some (v, r) -> (f <= f')%nat -> parse_value f' s = Some (v, r).
Proof.
  intros H Hf. induction Hf as [|g Hg IH]; [exact H|].
  apply (proj1 (parse_fuel_S g)). exact IH.
Qed.

(** With any fuel above twice the length of the text, the parser gives the
    result that [JSON_parse] is defined by. *)
Lemma parse_value_fuel_independent s f :
  (S (2 * length s) <= f)%nat ->
  parse_value f s = parse_value (S (2 * length s)) s.
Proof.
  intros Hf. destruct (parse_value (S (2 * length s)) s) as [[v r]|] eqn:E.
  - apply (parse_value_fuel_mono _ _ _ _ _ E Hf).
  - destruct (parse_value f s) as [[v r]|] eqn:E'; [|reflexivity].
    rewrite (proj1 (parse_fuel_enough f) _ _ _ E' (S (2 * length s))) in E by lia.
    discriminate.
Qed.

(** ** Parsing what was serialised *)

Lemma stringify_arr xs : JSON_stringify (VArr xs) = 91 :: elements_text xs ++ [93].
Proof. reflexivity. Qed.

Lemma stringify_obj ps : JSON_stringify (VObj ps) = 123 :: members_text ps ++ [125].
Proof. reflexivity. Qed.

Lemma elements_text_cons x y l :
  elements_text (x :: y :: l) = JSON_stringify x ++ 44 :: elements_text (y :: l).
Proof. reflexivity. Qed.

Lemma members_text_cons p q l :
  members_text (p :: q :: l) = member_text p ++ 44 :: members_text (q :: l).
Proof. reflexivity. Qed.

Lemma digit_or_minus_start c : c = 45 \/ is_digit c = true -> value_start c.
Proof.
  intros [->|H]; [repeat split; discriminate|].
  unfold is_digit in H. apply andb_true_iff in H as [H1 H2].
  apply N.leb_le in H1, H2. unfold value_start, is_json_ws.
  repeat split; try lia.
  repeat (apply orb_false_iff; split); apply N.eqb_neq; lia.
Qed.

Lemma stringify_head v :
  numbers_stable v = true ->
  exists c s, JSON_stringify v = c :: s /\ value_start c.
Proof.
  destruct v as [|[|]|n|s|xs|ps]; intros Hs;
    try (eexists _, _; split; [reflexivity|repeat split; discriminate]).
  simpl in Hs. apply stable_number_lex in Hs.
  destruct (lex_number_head _ _ _ Hs) as (c & s' & E & Hc).
  exists c, s'. split; [exact E|]. apply digit_or_minus_start. exact Hc.
Qed.

Lemma skip_ws_start c s : is_json_ws c = false -> skip_ws (c :: s) = c :: s.
Proof. intros H. simpl. rewrite H. reflexivity. Qed.

Lemma parse_value_number f c s :
  c = 45 \/ is_digit c = true ->
  parse_value (S f) (c :: s) =
  match lex_number (c :: s) with
  | Some (n, rest) => Some (VNum n, rest)
  | None => None
  end.
Proof.
  intros Hc. rewrite parse_value_S.
  rewrite skip_ws_start by (apply digit_or_minus_start; exact Hc).
  assert (c <> 123 /\ c <> 91 /\ c <> 34 /\ c <> 116 /\ c <> 102 /\ c <> 110)
    as (H1 & H2 & H3 & H4 & H5 & H6).
  { destruct Hc as [->|H]; [repeat split; discriminate|].
    unfold is_digit in H. apply andb_true_iff in H as [Ha Hb].
    apply N.leb_le in Ha, Hb. lia. }
  apply N.eqb_neq in H1, H2, H3, H4, H5, H6.
  rewrite H1, H2, H3, H4, H5, H6. reflexivity.
Qed.

Lemma parse_elements_text xs :
  Forall reparses xs -> forallb numbers_stable xs = true -> xs <> [] ->
  forall acc fuel rest,
    (2 * length (elements_text xs) + 2 <= fuel)%nat ->
    parse_elements fuel (elements_text xs ++ 93 :: rest) acc =
    Some (VArr (acc ++ xs), rest).
Proof.
  induction 1 as [|x xs Hx Hxs IH]; intros Hst Hne acc fuel rest Hf; [congruence|].
  simpl in Hst. apply andb_true_iff in Hst as [Hsx Hst].
  destruct fuel as [|f]; [lia|]. rewrite parse_elements_S.
  destruct xs as [|y l].
  - change (elements_text [x]) with (JSON_stringify x) in *.
    rewrite Hx; [|lia|right; left; reflexivity].
    reflexivity.
  - rewrite elements_text_cons in *. rewrite length_app in Hf. simpl length in Hf.
    rewrite <- app_assoc. change ((44 :: elements_text (y :: l)) ++ 93 :: rest)
      with (44 :: (elements_text (y :: l) ++ 93 :: rest)).
    rewrite Hx; [|lia|left; reflexivity].
    cbn [skip_ws is_json_ws N.eqb Pos.eqb orb].
    rewrite IH; [|exact Hst|discriminate|lia].
    rewrite <- app_assoc. reflexivity.
Qed.

Lemma parse_members_text ps :
  Forall (fun p => reparses (snd p)) ps ->
  forallb (fun p => numbers_stable (snd p)) ps = true -> ps <> [] ->
  forall acc fuel rest,
    (2 * length (members_text ps) + 2 <= fuel)%nat ->
    parse_members fuel (members_text ps ++ 125 :: rest) acc =
    Some (VObj (fold_left (fun a p => obj_set a (fst p) (snd p)) ps acc), rest).
Proof.
  induction 1 as [|[k v] ps Hx Hxs IH]; intros Hst Hne acc fuel rest Hf; [congruence|].
  simpl in Hst. apply andb_true_iff in Hst as [Hsx Hst]. simpl in Hx.
  destruct fuel as [|f]; [lia|]. rewrite parse_members_S.
  assert (Hm : forall tail, member_text (k, v) ++ tail =
                 34 :: (quote_units k ++ 34 :: (58 :: (JSON_stringify v ++ tail)))).
  { intros tail. unfold member_text, quote_json_string. cbn [fst snd app].
    rewrite <- !app_assoc. reflexivity. }
  assert (Hl : (length (JSON_stringify v) + 3 <= length (member_text (k, v)))%nat).
  { unfold member_text, quote_json_string. cbn [fst snd].
    rewrite length_app. simpl. rewrite length_app. simpl. lia. }
  destruct ps as [|q l].
  - change (members_text [(k, v)]) with (member_text (k, v)) in *.
    rewrite Hm. cbn [skip_ws is_json_ws N.eqb Pos.eqb orb].
    rewrite lex_string_quote_units.
    cbn [skip_ws is_json_ws N.eqb Pos.eqb orb].
    rewrite Hx; [|lia|right; right; reflexivity].
    reflexivity.
  - rewrite members_text_cons in *. rewrite length_app in Hf. cbn [length] in Hf.
    rewrite <- app_assoc. rewrite Hm.
    cbn [skip_ws is_json_ws N.eqb Pos.eqb orb].
    rewrite lex_string_quote_units.
    cbn [skip_ws is_json_ws N.eqb Pos.eqb orb].
    change ((44 :: members_text (q :: l)) ++ 125 :: rest)
      with (44 :: (members_text (q :: l) ++ 125 :: rest)).
    rewrite Hx; [|lia|left; reflexivity].
    cbn [skip_ws is_json_ws N.eqb Pos.eqb orb].
    rewrite IH; [|exact Hst|discriminate|lia].
    reflexivity.
Qed.

Lemma elements_text_head x xs :
  numbers_stable x = true ->
  exists c s, elements_text (x :: xs) = c :: s /\ value_start c.
Proof.
  intros H. destruct (stringify_head x H) as (c & s & E & Hc).
  destruct xs as [|y l].
  - exists c, s. split; [exact E|exact Hc].
  - rewrite elements_text_cons, E. eexists _, _. split; [reflexivity|exact Hc].
Qed.

Lemma members_text_head p ps :
  exists s, members_text (p :: ps) = 34 :: s.
Proof.
  destruct ps as [|q l].
  - eexists. reflexivity.
  - rewrite members_text_cons. eexists. reflexivity.
Qed.

(** Parsing the serialised form of a canonical value whose numbers survive
    gives the value back, whatever follows it. *)
Lemma parse_stringify v :
  wf_value v -> numbers_stable v = true -> reparses v.
Proof.
  induction v as [|b|n|s|xs IH|ps IH] using value_ind; intros Hwf Hst fuel rest Hf Hfo;
    (destruct fuel as [|f]; [lia|]).
  - reflexivity.
  - destruct b; reflexivity.
  - simpl in Hst. apply stable_number_lex in Hst.
    destruct (lex_number_head _ _ _ Hst) as (c & s' & E & Hc).
    cbn [JSON_stringify]. rewrite E. cbn [app].
    rewrite parse_value_number by exact Hc.
    change (c :: s' ++ rest) with ((c :: s') ++ rest). rewrite <- E.
    rewrite (lex_number_app _ _ _ _ Hst Hfo). reflexivity.
  - cbn [JSON_stringify]. unfold quote_json_string. rewrite parse_value_S.
    cbn [app skip_ws is_json_ws N.eqb Pos.eqb orb].
    rewrite <- app_assoc. cbn [app]. rewrite lex_string_quote_units. reflexivity.
  - rewrite stringify_arr in *. rewrite parse_value_S.
    cbn [app skip_ws is_json_ws N.eqb Pos.eqb orb].
    rewrite <- app_assoc. cbn [app].
    inversion Hwf as [| | | |? Hw|]; subst. simpl in Hst.
    destruct xs as [|x xs'].
    + reflexivity.
    + assert (Hr : Forall reparses (x :: xs')).
      { rewrite Forall_forall in IH, Hw |- *. intros y Hy.
        apply IH; [exact Hy|apply Hw; exact Hy|].
        rewrite forallb_forall in Hst. apply Hst. apply list_elem_of_In. exact Hy. }
      assert (Hx : numbers_stable x = true).
      { simpl in Hst. apply andb_true_iff in Hst as [H _]. exact H. }
      destruct (elements_text_head x xs' Hx) as (c & s & E & Hw1 & Hc1 & Hc2).
      rewrite E. cbn [app]. rewrite skip_ws_start by exact Hw1.
      apply N.eqb_neq in Hc1. rewrite Hc1.
      change (c :: s ++ 93 :: rest) with ((c :: s) ++ 93 :: rest). rewrite <- E.
      rewrite (parse_elements_text (x :: xs') Hr Hst); [reflexivity|discriminate|].
      simpl length in Hf. rewrite length_app in Hf. simpl length in Hf. lia.
  - rewrite stringify_obj in *. rewrite parse_value_S.
    cbn [app skip_ws is_json_ws N.eqb Pos.eqb orb].
    rewrite <- app_assoc. cbn [app].
    inversion Hwf as [| | | | |? Hk Hw]; subst. simpl in Hst.
    destruct ps as [|p ps'].
    + reflexivity.
    + assert (Hr : Forall (fun p => reparses (snd p)) (p :: ps')).
      { rewrite Forall_forall in IH, Hw |- *. intros y Hy.
        apply IH; [exact Hy|apply Hw; exact Hy|].
        rewrite forallb_forall in Hst. apply (Hst y). apply list_elem_of_In. exact Hy. }
      destruct (members_text_head p ps') as (s & E).
      rewrite E. cbn [app skip_ws is_json_ws N.eqb Pos.eqb orb].
      change (34 :: s ++ 125 :: rest) with ((34 :: s) ++ 125 :: rest). rewrite <- E.
      rewrite (parse_members_text (p :: ps') Hr Hst); [|discriminate|].
      * rewrite (fold_obj_set (p :: ps') []); [reflexivity|exact Hk].
      * simpl length in Hf. rewrite length_app in Hf. simpl length in Hf. lia.
Qed.

(** [JSON.parse] undoes [JSON.stringify] on every canonical value whose
    numbers survive serialisation. *)
Lemma JSON_parse_stringify v :
  wf_value v -> numbers_stable v = true ->
  JSON_parse (JSON_stringify v) = Some v.
Proof.
  intros Hwf Hst. unfold JSON_parse.
  rewrite <- (app_nil_r (JSON_stringify v)) at 2.
  rewrite (parse_stringify v Hwf Hst); [reflexivity| |exact I].
  lia.
Qed.

(** The Numbers that do not survive: the infinities and NaN are written as
    null, negative zero as 0. The Numbers 0, 1 and 0.1 are among those that
    do. *)
Example unstable_numbers :
  stable_number (S754_infinity false) = false /\
  stable_number (S754_infinity true) = false /\
  stable_number S754_nan = false /\
  stable_number (S754_zero true) = false.
Proof. vm_compute. repeat split; reflexivity. Qed.

Example stable_numbers :
  stable_number (S754_zero false) = true /\
  stable_number (S754_finite false 4503599627370496 (-52)) = true /\
  stable_number (S754_finite true 7205759403792794 (-56)) = true /\
  stable_number (S754_finite false 9007199254740991 971) = true /\
  stable_number (S754_finite false 1 (-1074)) = true.
Proof. vm_compute. repeat split; reflexivity. Qed.

(** ** The view populator *)

Lemma dom_bind_Done {A B} (m : dom A) (f : A -> dom B) d b d' :
  dom_bind m f d = (Done b, d') ->
  exists a d1, m d = (Done a, d1) /\ f a d1 = (Done b, d').
Proof.
  unfold dom_bind. destruct (m d) as [[a|] d1]; [|discriminate].
  intros H. exists a, d1. split; [reflexivity|exact H].
Qed.

Lemma dom_eval_Done {A} (o : option A) d a d' :
  dom_eval o d = (Done a, d') -> o = Some a /\ d' = d.
Proof.
  unfold dom_eval. destruct o; [|discriminate].
  intros [= -> ->]. split; reflexivity.
Qed.

Lemma keeps_biography_bind {A B} (m : dom A) (f : A -> dom B) :
  keeps_biography m -> (forall a, keeps_biography (f a)) ->
  keeps_biography (dom_bind m f).
Proof.
  intros Hm Hf d. unfold dom_bind. specialize (Hm d).
  destruct (m d) as [[a|] d1]; simpl in *; [|exact Hm].
  rewrite Hf. exact Hm.
Qed.

Lemma keeps_biography_eval {A} (o : option A) : keeps_biography (dom_eval o).
Proof. intros d. unfold dom_eval. destruct o; reflexivity. Qed.

Lemma keeps_biography_for_of xs body :
  (forall x, keeps_biography (body x)) -> keeps_biography (for_of xs body).
Proof.
  intros Hb. induction xs as [|x xs IH]; simpl.
  - intros d. reflexivity.
  - apply keeps_biography_bind; [apply Hb|intros _; exact IH].
Qed.

(** After the biography is set, nothing in the rest of the function changes
    it, whether it completes or throws. *)
Lemma populate_body_biography data d b text :
  get_prop data (js "biography") = Some b ->
  dom_string b = Some text ->
  biographyContentElement (snd (populate_body data d)) = Some (text_children text).
Proof.
  intros Hb Ht. unfold populate_body.
  unfold dom_bind at 1. unfold dom_eval at 1. rewrite Hb.
  unfold dom_bind at 1. unfold dom_eval at 1. rewrite Ht.
  unfold dom_bind at 1. unfold set_biography at 1.
  match goal with |- biographyContentElement (snd (?m ?d1)) = _ =>
    assert (Hk : keeps_biography m); [|rewrite (Hk d1); reflexivity] end.
  repeat first
    [ apply keeps_biography_bind
    | apply keeps_biography_for_of
    | apply keeps_biography_eval
    | intros ?
    | reflexivity ].
Qed.

(** The cards a loop appends when every one of them can be built. *)
Lemma for_of_skills xs : forall d d',
  for_of xs (fun skill => let* card := dom_eval (skill_card skill) in append_skill card) d
    = (Done tt, d') ->
  exists cards,
    Forall2 (fun x c => skill_card x = Some c) xs cards /\
    d' = Document (biographyContentElement d)
           (option_map (fun kids => kids ++ cards) (skillsGridElement d))
           (projectsGridElement d).
Proof.
  induction xs as [|x xs IH]; intros d d' H.
  - injection H as <-. exists []. split; [constructor|].
    destruct d as [b [s|] p]; simpl; rewrite ?app_nil_r; reflexivity.
  - cbn [for_of] in H. apply dom_bind_Done in H as (? & d1 & H1 & H2).
    apply dom_bind_Done in H1 as (card & d0 & Hc & Ha).
    apply dom_eval_Done in Hc as [Hc ->]. inversion Ha; subst; clear Ha.
    apply IH in H2 as (cards & Hf & ->).
    exists (card :: cards). split; [constructor; assumption|].
    destruct d as [b [s|] p]; simpl; rewrite <- ?app_assoc; reflexivity.
Qed.

Lemma for_of_projects xs : forall d d',
  for_of xs (fun project => let* card := dom_eval (project_card project) in append_project card) d
    = (Done tt, d') ->
  exists cards,
    Forall2 (fun x c => project_card x = Some c) xs cards /\
    d' = Document (biographyContentElement d) (skillsGridElement d)
           (option_map (fun kids => kids ++ cards) (projectsGridElement d)).
Proof.
  induction xs as [|x xs IH]; intros d d' H.
  - injection H as <-. exists []. split; [constructor|].
    destruct d as [b s [p|]]; simpl; rewrite ?app_nil_r; reflexivity.
  - cbn [for_of] in H. apply dom_bind_Done in H as (? & d1 & H1 & H2).
    apply dom_bind_Done in H1 as (card & d0 & Hc & Ha).
    apply dom_eval_Done in Hc as [Hc ->]. inversion Ha; subst; clear Ha.
    apply IH in H2 as (cards & Hf & ->).
    exists (card :: cards). split; [constructor; assumption|].
    destruct d as [b s [p|]]; simpl; rewrite <- ?app_assoc; reflexivity.
Qed.

(** What the page shows once the populator has completed: the biography as
    text, one card for each skill and one for each project, in order. *)
Lemma populate_body_Done data d d' :
  populate_body data d = (Done tt, d') ->
  exists biography text skills skillList skillCards projects projectList projectCards,
    get_prop data (js "biography") = Some biography /\
    dom_string biography = Some text /\
    get_prop data (js "skills") = Some skills /\
    iterate skills = Some skillList /\
    Forall2 (fun x c => skill_card x = Some c) skillList skillCards /\
    get_prop data (js "projects") = Some projects /\
    iterate projects = Some projectList /\
    Forall2 (fun x c => project_card x = Some c) projectList projectCards /\
    d' = Document (Some (text_children text)) (Some skillCards) (Some projectCards).
Proof.
  unfold populate_body. intros H.
  apply dom_bind_Done in H as (biography & d1 & Hb & H).
  apply dom_eval_Done in Hb as [Hb ->].
  apply dom_bind_Done in H as (text & d1 & Ht & H).
  apply dom_eval_Done in Ht as [Ht ->].
  apply dom_bind_Done in H as (? & d1 & H1 & H). inversion H1; subst; clear H1.
  apply dom_bind_Done in H as (? & d2 & H1 & H). inversion H1; subst; clear H1.
  apply dom_bind_Done in H as (skills & d3 & Hs & H).
  apply dom_eval_Done in Hs as [Hs ->].
  apply dom_bind_Done in H as (skillList & d3 & Hsl & H).
  apply dom_eval_Done in Hsl as [Hsl ->].
  apply dom_bind_Done in H as ([] & d3 & Hloop & H).
  apply for_of_skills in Hloop as (skillCards & Hsc & ->).
  apply dom_bind_Done in H as (? & d4 & H1 & H). inversion H1; subst; clear H1.
  apply dom_bind_Done in H as (projects & d5 & Hp & H).
  apply dom_eval_Done in Hp as [Hp ->].
  apply dom_bind_Done in H as (projectList & d5 & Hpl & H).
  apply dom_eval_Done in Hpl as [Hpl ->].
  apply for_of_projects in H as (projectCards & Hpc & ->).
  exists biography, text, skills, skillList, skillCards, projects, projectList, projectCards.
  repeat (split; [assumption|]). reflexivity.
Qed.

(** Showing the fallback content completes, and overwrites whatever the three
    containers held. *)
Lemma populate_default d :
  containers_present d = true ->
  populatePortfolioContent defaultPortfolioData d = (Done tt, default_page).
Proof.
  intros H. unfold populatePortfolioContent. rewrite H. cbn [negb].
  destruct d as [b s p]. vm_compute. reflexivity.
Qed.

(** ** Content of the PortfolioContent shape is shown without an exception *)

Lemma has_string_prop ps k :
  has_string ps k = true -> exists s, prop_string (VObj ps) (js k) = Some s.
Proof.
  unfold has_string, prop_string, get_prop.
  destruct (obj_get ps (js k)) as [[| | |s| |]|]; try discriminate.
  intros _. exists s. reflexivity.
Qed.

Lemma skill_shaped_card x : skill_shaped x = true -> exists c, skill_card x = Some c.
Proof.
  destruct x as [| | | | |ps]; try discriminate. simpl.
  intros H. apply andb_true_iff in H as [Hn Hd].
  unfold skill_card, get_prop. unfold has_string in Hn, Hd.
  destruct (obj_get ps (js "skillName")) as [[| | |n| |]|]; try discriminate.
  destruct (obj_get ps (js "description")) as [[| | |d| |]|]; try discriminate.
  eexists. reflexivity.
Qed.

Lemma map_join_strings techs :
  forallb is_string techs = true -> exists s, map_join tech_item techs = Some s.
Proof.
  induction techs as [|t techs IH]; simpl; [intros _; eexists; reflexivity|].
  intros H. apply andb_true_iff in H as [Ht Hr].
  destruct (IH Hr) as [s Hs]. rewrite Hs.
  destruct t; try discriminate. eexists. reflexivity.
Qed.

Lemma project_shaped_card x :
  project_shaped x = true -> exists c, project_card x = Some c.
Proof.
  destruct x as [| | | | |ps]; try discriminate. simpl.
  intros H. apply andb_true_iff in H as [H Ht].
  apply andb_true_iff in H as [H Hl]. apply andb_true_iff in H as [H Hgh].
  apply andb_true_iff in H as [Hname Hdesc].
  destruct (has_string_prop ps "projectName" Hname) as [n Hn].
  destruct (has_string_prop ps "description" Hdesc) as [d Hd].
  destruct (has_string_prop ps "githubUrl" Hgh) as [g Hg].
  unfold project_card, technologiesHtml, liveUrlButton, get_prop.
  destruct (obj_get ps (js "technologies")) as [[| | | |techs|]|]; try discriminate.
  destruct (map_join_strings techs Ht) as [s ->].
  unfold has_string in Hl.
  destruct (obj_get ps (js "liveUrl")) as [[| | |u| |]|]; try discriminate.
  rewrite Hn, Hd, Hg. destruct (truthy (Some (VStr u))); eexists; reflexivity.
Qed.

Lemma for_of_skills_shaped xs : forall d,
  forallb skill_shaped xs = true ->
  exists d',
    for_of xs (fun skill => let* card := dom_eval (skill_card skill) in append_skill card) d
      = (Done tt, d').
Proof.
  induction xs as [|x xs IH]; intros d H; [eexists; reflexivity|].
  simpl in H. apply andb_true_iff in H as [Hx Hr].
  destruct (skill_shaped_card x Hx) as [c Hc].
  cbn [for_of]. unfold dom_bind at 1. unfold dom_bind at 1.
  unfold dom_eval at 1. rewrite Hc. unfold append_skill at 1. apply IH. exact Hr.
Qed.

Lemma for_of_projects_shaped xs : forall d,
  forallb project_shaped xs = true ->
  exists d',
    for_of xs (fun project => let* card := dom_eval (project_card project) in append_project card) d
      = (Done tt, d').
Proof.
  induction xs as [|x xs IH]; intros d H; [eexists; reflexivity|].
  simpl in H. apply andb_true_iff in H as [Hx Hr].
  destruct (project_shaped_card x Hx) as [c Hc].
  cbn [for_of]. unfold dom_bind at 1. unfold dom_bind at 1.
  unfold dom_eval at 1. rewrite Hc. unfold append_project at 1. apply IH. exact Hr.
Qed.

(** The populator completes on every value of the PortfolioContent shape. *)
Lemma shaped_content_renders v d :
  content_shaped v = true ->
  exists d', populatePortfolioContent v d = (Done tt, d').
Proof.
  intros H. unfold populatePortfolioContent.
  destruct (negb (containers_present d)); [eexists; reflexivity|].
  destruct v as [| | | | |ps]; try discriminate. simpl in H.
  apply andb_true_iff in H as [H Hp]. apply andb_true_iff in H as [Hb Hs].
  unfold has_string in Hb.
  unfold populate_body, get_prop.
  destruct (obj_get ps (js "biography")) as [[| | |b| |]|]; try discriminate.
  destruct (obj_get ps (js "skills")) as [[| | | |skills|]|]; try discriminate.
  destruct (obj_get ps (js "projects")) as [[| | | |projects|]|]; try discriminate.
  unfold dom_bind at 1. unfold dom_eval at 1.
  unfold dom_bind at 1. unfold dom_eval at 1. cbn [dom_string to_string].
  unfold dom_bind at 1. unfold set_biography at 1.
  unfold dom_bind at 1. unfold set_skills at 1.
  unfold dom_bind at 1. unfold dom_eval at 1.
  unfold dom_bind at 1. unfold dom_eval at 1. cbn [iterate].
  unfold dom_bind at 1.
  match goal with |- context [for_of skills ?body ?d0] =>
    destruct (for_of_skills_shaped skills d0 Hs) as [d1 ->] end.
  unfold dom_bind at 1. unfold set_projects at 1.
  unfold dom_bind at 1. unfold dom_eval at 1.
  unfold dom_bind at 1. unfold dom_eval at 1.
  apply for_of_projects_shaped. exact Hp.
Qed.

Lemma default_content_shaped : content_shaped defaultPortfolioData = true.
Proof. reflexivity. Qed.

Lemma keeps_containers_bind {A B} (m : dom A) (f : A -> dom B) :
  keeps_containers m -> (forall a, keeps_containers (f a)) ->
  keeps_containers (dom_bind m f).
Proof.
  intros Hm Hf d Hd. unfold dom_bind. specialize (Hm d Hd).
  destruct (m d) as [[a|] d1]; simpl in *; [|exact Hm].
  apply Hf. exact Hm.
Qed.

Lemma keeps_containers_eval {A} (o : option A) : keeps_containers (dom_eval o).
Proof. intros d Hd. unfold dom_eval. destruct o; exact Hd. Qed.

Lemma keeps_containers_for_of xs body :
  (forall x, keeps_containers (body x)) -> keeps_containers (for_of xs body).
Proof.
  intros Hb. induction xs as [|x xs IH]; simpl.
  - intros d Hd. exact Hd.
  - apply keeps_containers_bind; [apply Hb|intros _; exact IH].
Qed.

Lemma populate_keeps_containers data d :
  containers_present d = true ->
  containers_present (snd (populatePortfolioContent data d)) = true.
Proof.
  intros Hd. unfold populatePortfolioContent. rewrite Hd. cbn [negb].
  revert d Hd. change (keeps_containers (populate_body data)).
  unfold populate_body.
  repeat first
    [ apply keeps_containers_bind
    | apply keeps_containers_for_of
    | apply keeps_containers_eval
    | intros ? ].
  all: match goal with
       | H : containers_present ?d = true |- _ =>
           destruct d as [[?|] [?|] [?|]]; try discriminate H; reflexivity
       end.
Qed.

(** ** The content resolver, path by path *)

Lemma JSON_parse_nil : JSON_parse [] = None.
Proof. reflexivity. Qed.

Lemma JSON_parse_nonempty text v : JSON_parse text = Some v -> text <> [].
Proof. intros H ->. discriminate H. Qed.

Lemma emit_emit w e1 e2 :
  emit e2 (emit e1 w) = World (storage w) (page w) (trace w ++ [e1; e2]).
Proof. unfold emit. simpl. rewrite <- app_assoc. reflexivity. Qed.

(** No cached text, or the empty string: on to the request. *)
Lemma check_cache_falsy w :
  storage w !! cache_key = None \/ storage w !! cache_key = Some [] ->
  check_cache w = CacheMiss (emit (GetItem cache_key) w).
Proof. unfold check_cache, getItem. intros [-> | ->]; reflexivity. Qed.

(** Cached text that does not parse: the entry is removed, on to the request. *)
Lemma check_cache_corrupt w text :
  storage w !! cache_key = Some text -> text <> [] -> JSON_parse text = None ->
  check_cache w =
  CacheMiss (World (delete cache_key (storage w)) (page w)
               (trace w ++ [GetItem cache_key; RemoveItem cache_key])).
Proof.
  unfold check_cache, getItem. intros -> Hne Hp.
  destruct text as [|c r]; [congruence|]. cbv beta iota zeta. rewrite Hp.
  unfold removeItem, emit. simpl. rewrite <- app_assoc. reflexivity.
Qed.

(** Cached text that parses and is shown without an exception: return. *)
Lemma check_cache_hit w text v d' :
  storage w !! cache_key = Some text -> JSON_parse text = Some v ->
  populatePortfolioContent v (page w) = (Done tt, d') ->
  check_cache w =
  CacheHit (World (storage w) d' (trace w ++ [GetItem cache_key; Populate v])).
Proof.
  unfold check_cache, getItem. intros -> Hp Hr.
  destruct text as [|c r]; [discriminate Hp|]. cbv beta iota zeta. rewrite Hp.
  unfold populate, emit. simpl. rewrite Hr. rewrite <- app_assoc. reflexivity.
Qed.

(** Cached text that parses but cannot be shown: the entry is removed, on to
    the request. *)
Lemma check_cache_unrenderable w text v d' :
  storage w !! cache_key = Some text -> JSON_parse text = Some v ->
  populatePortfolioContent v (page w) = (Thrown, d') ->
  check_cache w =
  CacheMiss (World (delete cache_key (storage w)) d'
               (trace w ++ [GetItem cache_key; Populate v; RemoveItem cache_key])).
Proof.
  unfold check_cache, getItem. intros -> Hp Hr.
  destruct text as [|c r]; [discriminate Hp|]. cbv beta iota zeta. rewrite Hp.
  unfold populate, removeItem, emit. simpl. rewrite Hr. simpl.
  rewrite <- !app_assoc. reflexivity.
Qed.

Lemma check_cache_path w : cache_path w (check_cache w).
Proof.
  destruct (storage w !! cache_key) as [text|] eqn:Es.
  - destruct text as [|c r] eqn:Et.
    + rewrite check_cache_falsy by (right; exact Es). constructor. right. exact Es.
    + rewrite <- Et in *. assert (text <> []) by (rewrite Et; discriminate).
      destruct (JSON_parse text) as [v|] eqn:Ep.
      * destruct (populatePortfolioContent v (page w)) as [[[]|] d'] eqn:Er.
        -- rewrite (check_cache_hit w text v d') by assumption.
           eapply path_hit; eassumption.
        -- rewrite (check_cache_unrenderable w text v d') by assumption.
           eapply path_unrenderable; eassumption.
      * rewrite (check_cache_corrupt w text) by assumption.
        eapply path_corrupt; eassumption.
  - rewrite check_cache_falsy by (left; exact Es). constructor. left. exact Es.
Qed.

Lemma fallback_page w :
  containers_present (page w) = true ->
  fallback w = World (storage w) default_page (trace w ++ [Populate defaultPortfolioData]).
Proof.
  intros H. unfold fallback, populate, emit. simpl.
  rewrite (populate_default _ H). reflexivity.
Qed.

Lemma fetch_from_api_fails store remote w :
  containers_present (page w) = true -> remote_fails remote ->
  fetch_from_api store remote w =
  World (storage w) default_page
    (trace w ++ [GenerateContent model_name; Populate defaultPortfolioData]).
Proof.
  intros Hc Hf. unfold fetch_from_api.
  assert (H : fallback (emit (GenerateContent model_name) w) =
              World (storage w) default_page
                (trace w ++ [GenerateContent model_name; Populate defaultPortfolioData])).
  { rewrite fallback_page by exact Hc. simpl. rewrite <- app_assoc. reflexivity. }
  destruct remote as [|[text|]]; try exact H.
  simpl in Hf. rewrite Hf. exact H.
Qed.

Lemma fetch_from_api_success w text data d' :
  parseGeminiJson text = Some data ->
  populatePortfolioContent data (page w) = (Done tt, d') ->
  fetch_from_api Stored (Responded (Some text)) w =
  World (<[cache_key := JSON_stringify data]> (storage w)) d'
    (trace w ++ [GenerateContent model_name; Populate data;
                 SetItem cache_key (JSON_stringify data)]).
Proof.
  intros Hp Hr. unfold fetch_from_api. rewrite Hp.
  unfold populate, setItem, emit. simpl. rewrite Hr. simpl.
  rewrite <- !app_assoc. reflexivity.
Qed.

(** Whatever the request does, its first event is the request itself and it
    removes nothing from the cache. *)
Lemma fetch_from_api_trace store remote w :
  exists evs,
    trace (fetch_from_api store remote w) = trace w ++ GenerateContent model_name :: evs /\
    forall k, ~ In (RemoveItem k) evs.
Proof.
  unfold fetch_from_api, fallback, populate, setItem, emit.
  destruct remote as [|[text|]]; simpl.
  - destruct (populatePortfolioContent _ _) as [r d]. simpl.
    rewrite <- app_assoc. eexists. split; [reflexivity|].
    intros k [H|[]]; discriminate H.
  - destruct (parseGeminiJson text) as [data|].
    + destruct (populatePortfolioContent data _) as [[[]|] d]; simpl.
      * destruct store; simpl.
        -- rewrite <- !app_assoc. eexists. split; [reflexivity|].
           intros k [H|[H|[]]]; discriminate H.
        -- destruct (populatePortfolioContent defaultPortfolioData _) as [r d2]. simpl.
           rewrite <- !app_assoc. eexists. split; [reflexivity|].
           intros k [H|[H|[H|[]]]]; discriminate H.
      * destruct (populatePortfolioContent defaultPortfolioData _) as [r d2]. simpl.
        rewrite <- !app_assoc. eexists. split; [reflexivity|].
        intros k [H|[H|[]]]; discriminate H.
    + destruct (populatePortfolioContent _ _) as [r d]. simpl.
      rewrite <- app_assoc. eexists. split; [reflexivity|].
      intros k [H|[]]; discriminate H.
  - destruct (populatePortfolioContent _ _) as [r d]. simpl.
    rewrite <- app_assoc. eexists. split; [reflexivity|].
    intros k [H|[]]; discriminate H.
Qed.

(** The request never removes the cached entry from the store either. *)
Lemma fetch_from_api_storage store remote w :
  storage (fetch_from_api store remote w) = storage w \/
  exists text, storage (fetch_from_api store remote w) = <[cache_key := text]> (storage w).
Proof.
  unfold fetch_from_api, fallback, populate, setItem, emit.
  destruct remote as [|[text|]]; simpl.
  - destruct (populatePortfolioContent _ _) as [r d]. left. reflexivity.
  - destruct (parseGeminiJson text) as [data|].
    + destruct (populatePortfolioContent data _) as [[[]|] d]; simpl.
      * destruct store; simpl.
        -- right. eexists. reflexivity.
        -- destruct (populatePortfolioContent defaultPortfolioData _) as [r d2].
           left. reflexivity.
      * destruct (populatePortfolioContent defaultPortfolioData _) as [r d2].
        left. reflexivity.
    + destruct (populatePortfolioContent _ _) as [r d]. left. reflexivity.
  - destruct (populatePortfolioContent _ _) as [r d]. left. reflexivity.
Qed.

(** ** The fragment parser on the templates of the cards *)

Lemma run_parser_app a b p :
  run_parser (a ++ b) p =
  match run_parser a p with
  | Some p' => run_parser b p'
  | None => None
  end.
Proof.
  revert p. induction a as [|c a IH]; intros p; [reflexivity|].
  cbn [app run_parser]. destruct (parser_step p c); [apply IH|reflexivity].
Qed.

(** Plain text in the data state joins the text of the current node. *)
Lemma run_parser_text t : forall name attributes children text open,
  plain_text t = true ->
  run_parser t (Parser DataState (Frame name attributes children text) open) =
  Some (Parser DataState (Frame name attributes children (text ++ t)) open).
Proof.
  induction t as [|c t IH]; intros name attributes children text open H.
  - rewrite app_nil_r. reflexivity.
  - cbn [plain_text forallb] in H. apply andb_prop in H as [Hc Ht].
    apply andb_prop in Hc as [Hp Hn]. apply negb_true_iff in Hn.
    cbn [run_parser]. unfold parser_step.
    cbn [tokenizer tokenizer_step current_node open_elements].
    rewrite Hn, Hp. cbn [process_token]. unfold insert_character.
    cbn [frame_name frame_attributes frame_children frame_text].
    rewrite (IH _ _ _ _ _ Ht), <- app_assoc. reflexivity.
Qed.


(** The parser over a template: literal markup is run, a hole is crossed
    with one of the two lemmas above. *)
Ltac run_literal :=
  match goal with
  | |- context [run_parser (?l ++ ?rest) ?p] =>
      let r := eval cbv in (run_parser l p) in
      lazymatch r with
      | Some _ =>
          rewrite (run_parser_app l rest p);
          change (run_parser l p) with r; cbv beta iota
      end
  end.

Ltac run_text H :=
  match goal with
  | |- context [run_parser (?t ++ ?rest) (Parser DataState (Frame ?n ?a ?k ?x) ?o)] =>
      rewrite (run_parser_app t rest (Parser DataState (Frame n a k x) o));
      rewrite (run_parser_text t n a k x o H); cbv beta iota
  end.


(** The children of a skill card whose name and description are plain. *)
Lemma skill_card_children skillName description :
  plain_text skillName = true -> plain_text description = true ->
  parse_fragment (skill_card_html skillName description) =
  Some [HText (nl ++ indent 12);
        HElement (js "h3") [] (text_nodes skillName);
        HText (nl ++ indent 12);
        HElement (js "p") [] (text_nodes description);
        HText (nl ++ indent 8)].
Proof.
  intros Hn Hd. unfold parse_fragment, skill_card_html.
  repeat run_literal. run_text Hn. repeat run_literal. run_text Hd.
  repeat run_literal.
  reflexivity.
Qed.







(** *** The links of a tree *)

Lemma anchors_app l1 l2 : anchors (l1 ++ l2) = anchors l1 ++ anchors l2.
Proof. unfold anchors. rewrite flat_map_app. apply List.filter_app. Qed.






(** ** The fence helper (claim C5) *)




(** ** The view populator (claims C6, C8, C9) *)

(** C8. When one of the three containers is missing, the populator does
    nothing: it completes and the document is as it was. *)
Theorem populate_noop_without_containers data d :
  containers_present d = false ->
  populatePortfolioContent data d = (Done tt, d).
Proof.
  intros H. unfold populatePortfolioContent. rewrite H. reflexivity.
Qed.

Lemma populate_noop_without_containers_witness :
  populatePortfolioContent sample_content partial_page = (Done tt, partial_page).
Proof.
  apply (populate_noop_without_containers sample_content partial_page).
  reflexivity.
Defined.

(** C9. The biography string becomes the text of the biography element as it
    is: the element's content is a single text node holding the string (no
    node at all for the empty string), never markup; and this holds whether
    the rest of the populator completes or throws. *)
Theorem populate_biography_text data d s :
  containers_present d = true ->
  get_prop data (js "biography") = Some (Some (VStr s)) ->
  biographyContentElement (snd (populatePortfolioContent data d))
    = Some (text_children s) /\
  (s <> [] -> text_children s = [Text s]).
Proof.
  intros Hd Hb. split.
  - unfold populatePortfolioContent. rewrite Hd. cbn [negb].
    apply (populate_body_biography data d (Some (VStr s)) s Hb). reflexivity.
  - destruct s; [congruence|reflexivity].
Qed.

Lemma populate_biography_text_witness :
  biographyContentElement (snd (populatePortfolioContent sample_content blank_page))
    = Some (text_children (js "<b>B</b>")) /\
  (js "<b>B</b>" <> [] -> text_children (js "<b>B</b>") = [Text (js "<b>B</b>")]).
Proof.
  apply (populate_biography_text sample_content blank_page (js "<b>B</b>"));
    reflexivity.
Defined.





(** ** The content resolver (claims C1 to C4, C7, C10) *)

(** C10. When one of the three containers is missing, the resolver returns at
    once: the store, the page and the log of events are as they were, so
    there was no cache read, write or delete and no request. *)
Theorem generate_noop_without_containers store remote w :
  containers_present (page w) = false ->
  generatePortfolioContent store remote w = w.
Proof.
  intros H. unfold generatePortfolioContent. rewrite H. reflexivity.
Qed.

Lemma generate_noop_without_containers_witness :
  generatePortfolioContent Stored (Responded (Some sample_text))
    (World {[cache_key := sample_text]} partial_page [])
  = World {[cache_key := sample_text]} partial_page [].
Proof.
  apply (generate_noop_without_containers Stored (Responded (Some sample_text))
           (World {[cache_key := sample_text]} partial_page [])).
  reflexivity.
Defined.

(** C1, as amended. When the cached text parses and the populator shows the
    parsed value without throwing, the resolver shows exactly that value and
    returns: the only events are the cache read and that one call of the
    populator (no request, no cache write or delete) and the store is as it
    was. *)
Theorem cache_hit_renders_cached store remote w text v d' :
  containers_present (page w) = true ->
  storage w !! cache_key = Some text ->
  JSON_parse text = Some v ->
  populatePortfolioContent v (page w) = (Done tt, d') ->
  generatePortfolioContent store remote w =
  World (storage w) d' (trace w ++ [GetItem cache_key; Populate v]).
Proof.
  intros Hc Hs Hp Hr. unfold generatePortfolioContent. rewrite Hc. cbn [negb].
  rewrite (check_cache_hit w text v d' Hs Hp Hr). reflexivity.
Qed.

Lemma cache_hit_renders_cached_witness :
  generatePortfolioContent Stored Rejected
    (World {[cache_key := sample_text]} blank_page []) =
  World {[cache_key := sample_text]}
    (snd (populatePortfolioContent sample_content blank_page))
    ([] ++ [GetItem cache_key; Populate sample_content]).
Proof.
  refine (cache_hit_renders_cached Stored Rejected
            (World {[cache_key := sample_text]} blank_page []) sample_text
            sample_content (snd (populatePortfolioContent sample_content blank_page))
            _ _ _ _);
    vm_compute; reflexivity.
Defined.

(** C1 as stated fails: the cached text [{}] parses, yet the populator throws
    on the parsed object (it has no skills to iterate), the entry is removed
    and the request is made. *)
Lemma cache_hit_unrenderable_counterexample :
  JSON_parse (js "{}") = Some (VObj []) /\
  trace (generatePortfolioContent Stored Rejected
           (World {[cache_key := js "{}"]} blank_page [])) =
    [GetItem cache_key; Populate (VObj []); RemoveItem cache_key;
     GenerateContent model_name; Populate defaultPortfolioData] /\
  storage (generatePortfolioContent Stored Rejected
             (World {[cache_key := js "{}"]} blank_page [])) !! cache_key = None.
Proof. vm_compute. repeat split; reflexivity. Qed.

(** What the first step leaves behind when it goes on to the request: the
    containers are still there, no cache write has happened, and the store
    is as it was, or has lost the cached entry because the entry was
    unusable. *)
Lemma cache_miss_world w w1 :
  containers_present (page w) = true ->
  check_cache w = CacheMiss w1 ->
  containers_present (page w1) = true /\
  (storage w1 = storage w \/
   (cache_unusable w /\ storage w1 = delete cache_key (storage w))) /\
  (forall k t, In (SetItem k t) (trace w1) -> In (SetItem k t) (trace w)).
Proof.
  intros Hc H. pose proof (check_cache_path w) as Hp. rewrite H in Hp.
  inversion Hp as [Hs|text Hs Hne Hj|text v d' Hs Hj Hr|text v d' Hs Hj Hr]; subst; simpl.
  - split; [exact Hc|]. split; [left; reflexivity|].
    intros k t Hin. apply in_app_or in Hin as [Hin|[Hin|[]]]; [exact Hin|discriminate].
  - split; [exact Hc|]. split.
    + right. split; [|reflexivity]. exists text. auto.
    + intros k t Hin.
      apply in_app_or in Hin as [Hin|[Hin|[Hin|[]]]]; [exact Hin|discriminate..].
  - split.
    + pose proof (populate_keeps_containers v (page w) Hc) as Hk.
      rewrite Hr in Hk. exact Hk.
    + split.
      * right. split; [|reflexivity]. exists text.
        split; [exact Hs|]. split; [eapply JSON_parse_nonempty; exact Hj|].
        right. exists v, d'. split; assumption.
      * intros k t Hin.
        apply in_app_or in Hin as [Hin|[Hin|[Hin|[Hin|[]]]]]; [exact Hin|discriminate..].
Qed.

(** C2, as amended. When the resolver reaches the request (in the world [w1])
    and the request ends without content, because the promise rejects or
    because the text of the response does not parse after the fence is
    stripped, the resolver shows exactly the fallback content, writes
    nothing to the cache in the whole run and leaves the store as it was
    when the request was made: the only events from then on are the request
    and the populator's call with the fallback content. At the request the
    store is the one the run started with, except that an unusable cached
    entry has been deleted. *)
Theorem remote_failure_renders_default store remote w w1 :
  containers_present (page w) = true ->
  check_cache w = CacheMiss w1 ->
  remote_fails remote ->
  page (generatePortfolioContent store remote w) = default_page /\
  default_page = snd (populatePortfolioContent defaultPortfolioData (page w1)) /\
  storage (generatePortfolioContent store remote w) = storage w1 /\
  trace (generatePortfolioContent store remote w) =
    trace w1 ++ [GenerateContent model_name; Populate defaultPortfolioData] /\
  (storage w1 = storage w \/
   (cache_unusable w /\ storage w1 = delete cache_key (storage w))) /\
  (forall k t, In (SetItem k t) (trace (generatePortfolioContent store remote w)) ->
               In (SetItem k t) (trace w)).
Proof.
  intros Hc Hm Hf.
  destruct (cache_miss_world w w1 Hc Hm) as (Hc1 & Hst & Hset).
  unfold generatePortfolioContent. rewrite Hc, Hm. cbn [negb].
  rewrite (fetch_from_api_fails store remote w1 Hc1 Hf). simpl.
  rewrite (populate_default _ Hc1).
  repeat split; try reflexivity; try exact Hst.
  intros k t Hin. apply in_app_or in Hin as [Hin|[Hin|[Hin|[]]]];
    [apply Hset; exact Hin|discriminate..].
Qed.

Lemma remote_failure_renders_default_witness :
  let w := World ∅ blank_page [] in
  let w1 := World ∅ blank_page [GetItem cache_key] in
  let remote := Responded (Some (js "```json {} ``` trailing")) in
  page (generatePortfolioContent Stored remote w) = default_page /\
  default_page = snd (populatePortfolioContent defaultPortfolioData (page w1)) /\
  storage (generatePortfolioContent Stored remote w) = storage w1 /\
  trace (generatePortfolioContent Stored remote w) =
    trace w1 ++ [GenerateContent model_name; Populate defaultPortfolioData] /\
  (storage w1 = storage w \/
   (cache_unusable w /\ storage w1 = delete cache_key (storage w))) /\
  (forall k t, In (SetItem k t) (trace (generatePortfolioContent Stored remote w)) ->
               In (SetItem k t) (trace w)).
Proof.
  intros w w1 remote.
  refine (remote_failure_renders_default Stored remote w w1 _ _ _);
    vm_compute; reflexivity.
Defined.

(** C2 as stated fails: the cached text does not parse and the request is
    rejected; the fallback content is shown and nothing is written, yet the
    store is not the one the run started with, since the entry is gone. *)
Lemma remote_failure_store_counterexample :
  remote_fails Rejected /\
  storage (World {[cache_key := js "{not json"]} blank_page []) !! cache_key
    = Some (js "{not json") /\
  storage (generatePortfolioContent Stored Rejected
             (World {[cache_key := js "{not json"]} blank_page [])) !! cache_key = None /\
  storage (generatePortfolioContent Stored Rejected
             (World {[cache_key := js "{not json"]} blank_page []))
    <> storage (World {[cache_key := js "{not json"]} blank_page []).
Proof.
  split; [exact I|]. split; [vm_compute; reflexivity|].
  split; [vm_compute; reflexivity|].
  intros H. apply (f_equal (fun m : gmap jsstring jsstring => m !! cache_key)) in H.
  vm_compute in H. discriminate H.
Qed.

(** C3, as amended. When the cached text is a non-empty string that does not
    parse, the resolver deletes the entry and then makes the request: it goes
    on as the request does in the store without the entry, and the events of
    the run start with the cache read, the removal and the request. *)
Theorem corrupt_cache_deleted_then_fetch store remote w text :
  containers_present (page w) = true ->
  storage w !! cache_key = Some text ->
  text <> [] ->
  JSON_parse text = None ->
  generatePortfolioContent store remote w =
    fetch_from_api store remote
      (World (delete cache_key (storage w)) (page w)
         (trace w ++ [GetItem cache_key; RemoveItem cache_key])) /\
  exists evs,
    trace (generatePortfolioContent store remote w) =
    trace w ++ [GetItem cache_key; RemoveItem cache_key; GenerateContent model_name] ++ evs.
Proof.
  intros Hc Hs Hne Hp.
  assert (E : generatePortfolioContent store remote w =
    fetch_from_api store remote
      (World (delete cache_key (storage w)) (page w)
         (trace w ++ [GetItem cache_key; RemoveItem cache_key]))).
  { unfold generatePortfolioContent. rewrite Hc. cbn [negb].
    rewrite (check_cache_corrupt w text Hs Hne Hp). reflexivity. }
  split; [exact E|]. rewrite E.
  destruct (fetch_from_api_trace store remote
              (World (delete cache_key (storage w)) (page w)
                 (trace w ++ [GetItem cache_key; RemoveItem cache_key])))
    as (evs & Ht & _).
  exists evs. rewrite Ht. simpl. rewrite <- app_assoc. reflexivity.
Qed.

Lemma corrupt_cache_deleted_then_fetch_witness :
  let w := World {[cache_key := js "{not json"]} blank_page [] in
  generatePortfolioContent Stored Rejected w =
    fetch_from_api Stored Rejected
      (World (delete cache_key (storage w)) (page w)
         (trace w ++ [GetItem cache_key; RemoveItem cache_key])) /\
  exists evs,
    trace (generatePortfolioContent Stored Rejected w) =
    trace w ++ [GetItem cache_key; RemoveItem cache_key; GenerateContent model_name] ++ evs.
Proof.
  intros w.
  refine (corrupt_cache_deleted_then_fetch Stored Rejected w (js "{not json") _ _ _ _);
    vm_compute; try reflexivity. discriminate.
Defined.

(** C3 as stated fails: the empty string is present under the key and is not
    JSON, yet the resolver takes it for no cache at all; it makes the request
    without deleting the entry. *)
Lemma empty_cache_not_deleted_counterexample :
  JSON_parse [] = None /\
  trace (generatePortfolioContent Stored Rejected
           (World {[cache_key := []]} blank_page [])) =
    [GetItem cache_key; GenerateContent model_name; Populate defaultPortfolioData] /\
  storage (generatePortfolioContent Stored Rejected
             (World {[cache_key := []]} blank_page [])) !! cache_key = Some [].
Proof. vm_compute. repeat split; reflexivity. Qed.

(** C4, as amended. When the resolver reaches the request, the text of the
    response parses, the populator shows the parsed value without throwing
    and every Number in that value survives serialisation (none at all in
    content that follows the schema), the resolver writes to the cache, in
    a store that accepts the write, a text whose parse is exactly the value
    it passed to the populator. *)
Theorem cached_text_round_trip w w1 text data d' :
  containers_present (page w) = true ->
  check_cache w = CacheMiss w1 ->
  parseGeminiJson text = Some data ->
  populatePortfolioContent data (page w1) = (Done tt, d') ->
  numbers_stable data = true ->
  exists cached,
    trace (generatePortfolioContent Stored (Responded (Some text)) w) =
      trace w1 ++ [GenerateContent model_name; Populate data; SetItem cache_key cached] /\
    storage (generatePortfolioContent Stored (Responded (Some text)) w) !! cache_key
      = Some cached /\
    JSON_parse cached = Some data.
Proof.
  intros Hc Hm Hp Hr Hn.
  exists (JSON_stringify data).
  unfold generatePortfolioContent. rewrite Hc, Hm. cbn [negb].
  rewrite (fetch_from_api_success w1 text data d' Hp Hr). simpl.
  split; [reflexivity|]. split; [apply lookup_insert_eq|].
  apply JSON_parse_stringify; [|exact Hn].
  unfold parseGeminiJson in Hp.
  destruct (string_match (trim text) fence_regex) as [[c|]|];
    [| discriminate |]; eapply JSON_parse_wf; exact Hp.
Qed.

Lemma cached_text_round_trip_witness :
  let w := World ∅ blank_page [] in
  let text := js "```json" ++ nl ++ markup "{'biography':'B','skills':[{'skillName':'S','description':'D'}],'projects':[],'year':2024}" ++ nl ++ js "```" in
  exists cached,
    trace (generatePortfolioContent Stored (Responded (Some text)) w) =
      trace (World ∅ blank_page [GetItem cache_key])
      ++ [GenerateContent model_name;
          Populate (VObj [(js "biography", VStr (js "B"));
                          (js "skills", VArr [skill "S" "D"]);
                          (js "projects", VArr []);
                          (js "year", VNum (S754_finite false 8901646138474496 (-42)))]);
          SetItem cache_key cached] /\
    storage (generatePortfolioContent Stored (Responded (Some text)) w) !! cache_key
      = Some cached /\
    JSON_parse cached =
      Some (VObj [(js "biography", VStr (js "B"));
                  (js "skills", VArr [skill "S" "D"]);
                  (js "projects", VArr []);
                  (js "year", VNum (S754_finite false 8901646138474496 (-42)))]).
Proof.
  intros w text.
  refine (cached_text_round_trip w (World ∅ blank_page [GetItem cache_key]) text _
            (snd (populatePortfolioContent
                    (VObj [(js "biography", VStr (js "B"));
                           (js "skills", VArr [skill "S" "D"]);
                           (js "projects", VArr []);
                           (js "year", VNum (S754_finite false 8901646138474496 (-42)))])
                    blank_page)) _ _ _ _ _);
    vm_compute; reflexivity.
Defined.

(** C4 as stated fails: the response holds a number too large for a Number,
    the parsed value (with an infinity for the biography) is shown without an
    exception, the cache receives null in its place, and the parse of the
    cached text is another value. *)
Lemma infinite_number_counterexample :
  let text := markup "{'biography':1e999,'skills':[],'projects':[]}" in
  let data := VObj [(js "biography", VNum (S754_infinity false));
                    (js "skills", VArr []); (js "projects", VArr [])] in
  let cached := markup "{'biography':null,'skills':[],'projects':[]}" in
  parseGeminiJson text = Some data /\
  trace (generatePortfolioContent Stored (Responded (Some text))
           (World ∅ blank_page [])) =
    [GetItem cache_key; GenerateContent model_name; Populate data;
     SetItem cache_key cached] /\
  JSON_parse cached =
    Some (VObj [(js "biography", VNull); (js "skills", VArr []); (js "projects", VArr [])]) /\
  JSON_parse cached <> Some data.
Proof.
  vm_compute. repeat split; try reflexivity. discriminate.
Qed.

(** C7, as amended. A run of the resolver removes a cache entry only under
    the fixed key and only when the block that uses the cached text throws,
    because the text does not parse or because the populator throws on the
    parsed value; a cache hit, the request and the fallback remove nothing.
    In particular an entry that was in the store and is gone after the run
    was removed on that path. *)
Theorem cache_deleted_only_when_hit_throws store remote w :
  (forall k, In (RemoveItem k) (trace (generatePortfolioContent store remote w)) ->
             ~ In (RemoveItem k) (trace w) -> k = cache_key /\ cache_unusable w) /\
  (is_Some (storage w !! cache_key) ->
   storage (generatePortfolioContent store remote w) !! cache_key = None ->
   cache_unusable w).
Proof.
  unfold generatePortfolioContent.
  destruct (containers_present (page w)) eqn:Hc; cbn [negb].
  2: { split; [intros k H Hn; exfalso; exact (Hn H)|].
       intros [x Hx] H. rewrite Hx in H. discriminate. }
  pose proof (check_cache_path w) as Hp.
  destruct (check_cache w) as [w'|w'];
    inversion Hp as [Hs|text Hs Hne Hj|text v d' Hs Hj Hr|text v d' Hs Hj Hr]; subst.
  - (* shown from the cache *)
    split.
    + intros k Hin Hn. simpl in Hin.
      apply in_app_or in Hin as [Hin|[Hin|[Hin|[]]]]; [exfalso; exact (Hn Hin)|discriminate..].
    + intros [x Hx] H. simpl in H. rewrite Hx in H. discriminate.
  - (* nothing usable: no text, or the empty string *)
    destruct (fetch_from_api_trace store remote (emit (GetItem cache_key) w)) as (evs & Ht & Hno).
    split.
    + intros k Hin Hn. rewrite Ht in Hin. simpl in Hin. rewrite <- app_assoc in Hin.
      apply in_app_or in Hin as [Hin|[Hin|[Hin|Hin]]];
        [exfalso; exact (Hn Hin)|discriminate..|exfalso; exact (Hno k Hin)].
    + intros [x Hx] H.
      destruct (fetch_from_api_storage store remote (emit (GetItem cache_key) w)) as [E|[t E]];
        rewrite E in H; simpl in H.
      * rewrite Hx in H. discriminate.
      * rewrite lookup_insert_eq in H. discriminate.
  - (* the text does not parse *)
    assert (cache_unusable w) as Hu by (exists text; auto).
    split; [|intros _ _; exact Hu].
    intros k Hin Hn. split; [|exact Hu].
    match type of Hin with In _ (trace (fetch_from_api _ _ ?w0)) =>
      destruct (fetch_from_api_trace store remote w0) as (evs & Ht & Hno) end.
    rewrite Ht in Hin. simpl in Hin. rewrite <- app_assoc in Hin.
    apply in_app_or in Hin as [Hin|[Hin|[Hin|[Hin|Hin]]]];
      [exfalso; exact (Hn Hin)|discriminate| |discriminate|exfalso; exact (Hno k Hin)].
    injection Hin as <-. reflexivity.
  - (* the parsed value cannot be shown *)
    assert (cache_unusable w) as Hu.
    { exists text. split; [exact Hs|]. split; [eapply JSON_parse_nonempty; exact Hj|].
      right. exists v, d'. split; assumption. }
    split; [|intros _ _; exact Hu].
    intros k Hin Hn. split; [|exact Hu].
    match type of Hin with In _ (trace (fetch_from_api _ _ ?w0)) =>
      destruct (fetch_from_api_trace store remote w0) as (evs & Ht & Hno) end.
    rewrite Ht in Hin. simpl in Hin. rewrite <- app_assoc in Hin.
    apply in_app_or in Hin as [Hin|[Hin|[Hin|[Hin|[Hin|Hin]]]]];
      [exfalso; exact (Hn Hin)|discriminate|discriminate| |discriminate
      |exfalso; exact (Hno k Hin)].
    injection Hin as <-. reflexivity.
Qed.

Lemma cache_deleted_only_when_hit_throws_witness :
  cache_key = cache_key /\
  cache_unusable (World {[cache_key := js "{not json"]} blank_page []).
Proof.
  refine (proj1 (cache_deleted_only_when_hit_throws Stored Rejected
                   (World {[cache_key := js "{not json"]} blank_page []))
            cache_key _ _).
  - vm_compute. right. left. reflexivity.
  - vm_compute. intros [].
Defined.

(** C7 as stated fails: the cached text [[]] parses, the populator throws on
    the parsed array, and the entry is removed all the same. *)
Lemma unrenderable_cache_deleted_counterexample :
  JSON_parse (js "[]") = Some (VArr []) /\
  In (RemoveItem cache_key)
     (trace (generatePortfolioContent Stored (Responded (Some sample_text))
               (World {[cache_key := js "[]"]} blank_page []))).
Proof. vm_compute. split; [reflexivity|]. right. right. left. reflexivity. Qed.

(** ** The scenario of the specification

    No cache, and the request returns content with one skill and no project:
    the skills grid holds one card with the skill's name as its heading, and
    the cache receives exactly the text of the response. *)
Example scenario_cache_absent :
  let text := markup "{'biography':'B','skills':[{'skillName':'S','description':'D'}],'projects':[]}" in
  let w' := generatePortfolioContent Stored (Responded (Some text))
              (World ∅ blank_page []) in
  skillsGridElement (page w') =
    Some [Element (js "div") (js "skill-card") (skill_card_html (js "S") (js "D"))] /\
  projectsGridElement (page w') = Some [] /\
  biographyContentElement (page w') = Some [Text (js "B")] /\
  storage w' = {[cache_key := text]}.
Proof. vm_compute. repeat split; reflexivity. Qed.

(** ** The view populator: what a completed or interrupted call leaves *)

Lemma for_of_skills_cards xs cards : forall d,
  Forall2 (fun x c => skill_card x = Some c) xs cards ->
  for_of xs (fun skill => let* card := dom_eval (skill_card skill) in append_skill card) d
  = (Done tt, Document (biographyContentElement d)
                (option_map (fun kids => kids ++ cards) (skillsGridElement d))
                (projectsGridElement d)).
Proof.
  intros d H. revert d. induction H as [|x c xs cards Hc _ IH]; intros d.
  - simpl. unfold dom_ret. destruct d as [b [s|] p]; simpl; rewrite ?app_nil_r; reflexivity.
  - cbn [for_of]. unfold dom_bind at 1. unfold dom_bind at 1.
    unfold dom_eval at 1. rewrite Hc. unfold append_skill at 1. rewrite IH.
    destruct d as [b [s|] p]; simpl; rewrite <- ?app_assoc; reflexivity.
Qed.

Lemma for_of_projects_cards xs cards : forall d,
  Forall2 (fun x c => project_card x = Some c) xs cards ->
  for_of xs (fun project => let* card := dom_eval (project_card project) in append_project card) d
  = (Done tt, Document (biographyContentElement d) (skillsGridElement d)
                (option_map (fun kids => kids ++ cards) (projectsGridElement d))).
Proof.
  intros d H. revert d. induction H as [|x c xs cards Hc _ IH]; intros d.
  - simpl. unfold dom_ret. destruct d as [b s [p|]]; simpl; rewrite ?app_nil_r; reflexivity.
  - cbn [for_of]. unfold dom_bind at 1. unfold dom_bind at 1.
    unfold dom_eval at 1. rewrite Hc. unfold append_project at 1. rewrite IH.
    destruct d as [b s [p|]]; simpl; rewrite <- ?app_assoc; reflexivity.
Qed.

(** From the parts of a rendering to the completed call, on any document. *)
Lemma populate_body_render data d biography text skills skillList skillCards
    projects projectList projectCards :
  get_prop data (js "biography") = Some biography ->
  dom_string biography = Some text ->
  get_prop data (js "skills") = Some skills ->
  iterate skills = Some skillList ->
  Forall2 (fun x c => skill_card x = Some c) skillList skillCards ->
  get_prop data (js "projects") = Some projects ->
  iterate projects = Some projectList ->
  Forall2 (fun x c => project_card x = Some c) projectList projectCards ->
  populate_body data d =
  (Done tt, Document (Some (text_children text)) (Some skillCards) (Some projectCards)).
Proof.
  intros Hb Ht Hs Hsl Hsc Hp Hpl Hpc. unfold populate_body.
  unfold dom_bind at 1. unfold dom_eval at 1. rewrite Hb.
  unfold dom_bind at 1. unfold dom_eval at 1. rewrite Ht.
  unfold dom_bind at 1. unfold set_biography at 1.
  unfold dom_bind at 1. unfold set_skills at 1.
  unfold dom_bind at 1. unfold dom_eval at 1. rewrite Hs.
  unfold dom_bind at 1. unfold dom_eval at 1. rewrite Hsl.
  unfold dom_bind at 1. rewrite (for_of_skills_cards _ _ _ Hsc).
  unfold dom_bind at 1. unfold set_projects at 1.
  unfold dom_bind at 1. unfold dom_eval at 1. rewrite Hp.
  unfold dom_bind at 1. unfold dom_eval at 1. rewrite Hpl.
  rewrite (for_of_projects_cards _ _ _ Hpc). reflexivity.
Qed.

Lemma populate_body_any data d d' d2 :
  populate_body data d = (Done tt, d') -> populate_body data d2 = (Done tt, d').
Proof.
  intros H. apply populate_body_Done in H
    as (b & t & sk & skl & skc & pr & prl & prc & Hb & Ht & Hs & Hsl & Hsc & Hp & Hpl & Hpc & ->).
  eapply populate_body_render; eassumption.
Qed.

Lemma populate_any_page data d1 d2 d' :
  containers_present d1 = true ->
  containers_present d2 = true ->
  populatePortfolioContent data d1 = (Done tt, d') ->
  populatePortfolioContent data d2 = (Done tt, d').
Proof.
  unfold populatePortfolioContent. intros -> ->. cbn [negb].
  apply populate_body_any.
Qed.

(** X1. The populator overwrites: on two documents that both have the three
    containers, it completes on one exactly when it completes on the other,
    and then leaves the same document, whatever the containers held. *)
Theorem populate_overwrites data d1 d2 d' :
  containers_present d1 = true ->
  containers_present d2 = true ->
  populatePortfolioContent data d1 = (Done tt, d') <->
  populatePortfolioContent data d2 = (Done tt, d').
Proof.
  intros H1 H2. split; intros H.
  - exact (populate_any_page data d1 d2 d' H1 H2 H).
  - exact (populate_any_page data d2 d1 d' H2 H1 H).
Qed.

Lemma populate_overwrites_witness :
  populatePortfolioContent sample_content
    (Document (Some [Text (js "Loading")])
       (Some [Element (js "div") (js "skill-card") (js "placeholder")]) (Some []))
  = (Done tt, snd (populatePortfolioContent sample_content blank_page)).
Proof.
  apply (proj1 (populate_overwrites sample_content blank_page
                  (Document (Some [Text (js "Loading")])
                     (Some [Element (js "div") (js "skill-card") (js "placeholder")])
                     (Some []))
                  (snd (populatePortfolioContent sample_content blank_page))
                  eq_refl eq_refl)).
  reflexivity.
Defined.

(** X2. When the populator completes, the skills grid holds one card for each
    skill of the array, in order: a div of class skill-card whose innerHTML
    was assigned the template with the skill's name between the h3 tags and
    its description between the p tags, both converted to strings and put
    in as they are. When the two strings hold no less-than sign, ampersand,
    NUL, carriage return or surrogate, the children of the card are the h3
    element with the name as its text and the p element with the
    description as its text, with the white space of the template around
    them. *)
Theorem populate_skill_cards data d d' skills i sk :
  containers_present d = true ->
  populatePortfolioContent data d = (Done tt, d') ->
  get_prop data (js "skills") = Some (Some (VArr skills)) ->
  skills !! i = Some sk ->
  exists skillName description cards,
    prop_string sk (js "skillName") = Some skillName /\
    prop_string sk (js "description") = Some description /\
    skillsGridElement d' = Some cards /\
    length cards = length skills /\
    cards !! i =
      Some (Element (js "div") (js "skill-card")
              ([10] ++ repeat 32 12 ++ js "<h3>" ++ skillName ++ js "</h3>" ++
               [10] ++ repeat 32 12 ++ js "<p>" ++ description ++ js "</p>" ++
               [10] ++ repeat 32 8)) /\
    (plain_text skillName = true -> plain_text description = true ->
     option_map child_nodes (cards !! i) =
       Some (Some [HText ([10] ++ repeat 32 12);
                   HElement (js "h3") [] (text_nodes skillName);
                   HText ([10] ++ repeat 32 12);
                   HElement (js "p") [] (text_nodes description);
                   HText ([10] ++ repeat 32 8)])).
Proof.
  intros Hd H Hs Hi. unfold populatePortfolioContent in H.
  rewrite Hd in H. cbn [negb] in H.
  apply populate_body_Done in H
    as (b & t & sk0 & skl & skc & pr & prl & prc & _ & _ & Hsk & Hit & Hf & _ & _ & _ & ->).
  rewrite Hs in Hsk. injection Hsk as <-. injection Hit as <-.
  destruct (Forall2_lookup_l _ _ _ _ _ Hf Hi) as (card & Hc & Hcard).
  pose proof (Forall2_length _ _ _ Hf) as Hlen.
  unfold skill_card in Hcard. unfold prop_string.
  destruct (get_prop sk (js "skillName")) as [n|]; [|discriminate].
  destruct (to_string_u n) as [name|]; [|discriminate].
  destruct (get_prop sk (js "description")) as [dd|]; [|discriminate].
  destruct (to_string_u dd) as [description|]; [|discriminate].
  injection Hcard as <-. exists name, description, skc.
  repeat (split; [reflexivity|]). split; [symmetry; exact Hlen|].
  split; [exact Hc|].
  intros Pn Pd. cbn [skillsGridElement] in Hc |- *. rewrite Hc. cbn [option_map child_nodes].
  rewrite (skill_card_children name description Pn Pd). reflexivity.
Qed.

Lemma populate_skill_cards_witness :
  exists skillName description cards,
    prop_string (skill "S" "D") (js "skillName") = Some skillName /\
    prop_string (skill "S" "D") (js "description") = Some description /\
    skillsGridElement (snd (populatePortfolioContent sample_content blank_page))
      = Some cards /\
    length cards = length [skill "S" "D"] /\
    cards !! 0%nat =
      Some (Element (js "div") (js "skill-card")
              ([10] ++ repeat 32 12 ++ js "<h3>" ++ skillName ++ js "</h3>" ++
               [10] ++ repeat 32 12 ++ js "<p>" ++ description ++ js "</p>" ++
               [10] ++ repeat 32 8)) /\
    (plain_text skillName = true -> plain_text description = true ->
     option_map child_nodes (cards !! 0%nat) =
       Some (Some [HText ([10] ++ repeat 32 12);
                   HElement (js "h3") [] (text_nodes skillName);
                   HText ([10] ++ repeat 32 12);
                   HElement (js "p") [] (text_nodes description);
                   HText ([10] ++ repeat 32 8)])).
Proof.
  apply (populate_skill_cards sample_content blank_page
           (snd (populatePortfolioContent sample_content blank_page))
           [skill "S" "D"] 0 (skill "S" "D"));
    reflexivity.
Defined.

(** X3. When the data is an object with a biography string but its skills cannot
    be iterated (the property is missing, null, a number, a boolean or an
    object), the populator throws after it has replaced the biography and
    emptied the skills grid; the projects grid is as it was. *)
Theorem populate_stops_at_skills ps b d :
  containers_present d = true ->
  obj_get ps (js "biography") = Some (VStr b) ->
  iterate (obj_get ps (js "skills")) = None ->
  populatePortfolioContent (VObj ps) d =
  (Thrown, Document (Some (text_children b)) (Some []) (projectsGridElement d)).
Proof.
  intros Hd Hb Hs. unfold populatePortfolioContent. rewrite Hd. cbn [negb].
  unfold populate_body, get_prop.
  unfold dom_bind at 1. unfold dom_eval at 1. rewrite Hb.
  unfold dom_bind at 1. unfold dom_eval at 1. cbn [dom_string to_string].
  unfold dom_bind at 1. unfold set_biography at 1.
  unfold dom_bind at 1. unfold set_skills at 1.
  unfold dom_bind at 1. unfold dom_eval at 1.
  unfold dom_bind at 1. unfold dom_eval at 1. rewrite Hs. reflexivity.
Qed.

Lemma populate_stops_at_skills_witness :
  populatePortfolioContent (VObj [(js "biography", VStr (js "B"))])
    (Document (Some [Text (js "old")]) (Some [Text (js "old")]) (Some [Text (js "old")]))
  = (Thrown, Document (Some (text_children (js "B"))) (Some [])
               (projectsGridElement
                  (Document (Some [Text (js "old")]) (Some [Text (js "old")])
                     (Some [Text (js "old")])))).
Proof.
  apply (populate_stops_at_skills [(js "biography", VStr (js "B"))] (js "B")
           (Document (Some [Text (js "old")]) (Some [Text (js "old")])
              (Some [Text (js "old")])));
    reflexivity.
Defined.

(** ** The resolver over whole runs and over successive page loads *)

Lemma parseGeminiJson_wf text data : parseGeminiJson text = Some data -> wf_value data.
Proof.
  unfold parseGeminiJson. intros Hp.
  destruct (string_match (trim text) fence_regex) as [[c|]|];
    [| discriminate |]; eapply JSON_parse_wf; exact Hp.
Qed.

Lemma fetch_from_api_unrenderable store w text data d' :
  containers_present (page w) = true ->
  parseGeminiJson text = Some data ->
  populatePortfolioContent data (page w) = (Thrown, d') ->
  fetch_from_api store (Responded (Some text)) w =
  World (storage w) default_page
    (trace w ++ [GenerateContent model_name; Populate data;
                 Populate defaultPortfolioData]).
Proof.
  intros Hc Hp Hr. unfold fetch_from_api. rewrite Hp.
  unfold populate, emit. simpl. rewrite Hr.
  rewrite fallback_page; simpl.
  - rewrite <- !app_assoc. reflexivity.
  - pose proof (populate_keeps_containers data (page w) Hc) as Hk.
    rewrite Hr in Hk. exact Hk.
Qed.

Lemma fetch_from_api_refused w text data d' :
  containers_present (page w) = true ->
  parseGeminiJson text = Some data ->
  populatePortfolioContent data (page w) = (Done tt, d') ->
  fetch_from_api QuotaExceeded (Responded (Some text)) w =
  World (storage w) default_page
    (trace w ++ [GenerateContent model_name; Populate data;
                 SetItem cache_key (JSON_stringify data);
                 Populate defaultPortfolioData]).
Proof.
  intros Hc Hp Hr. unfold fetch_from_api. rewrite Hp.
  unfold populate, setItem, emit. simpl. rewrite Hr.
  rewrite fallback_page; simpl.
  - rewrite <- !app_assoc. reflexivity.
  - pose proof (populate_keeps_containers data (page w) Hc) as Hk.
    rewrite Hr in Hk. exact Hk.
Qed.

Lemma fetch_from_api_end store remote w :
  containers_present (page w) = true -> fetch_end w (fetch_from_api store remote w).
Proof.
  intros Hc.
  assert (Hfail : remote_fails remote -> fetch_end w (fetch_from_api store remote w)).
  { intros Hf. rewrite (fetch_from_api_fails store remote w Hc Hf). constructor. }
  destruct remote as [|[text|]]; [apply Hfail; exact I| |apply Hfail; exact I].
  destruct (parseGeminiJson text) as [data|] eqn:Hp; [|apply Hfail; exact Hp].
  destruct (populatePortfolioContent data (page w)) as [[[]|] d'] eqn:Hr.
  - destruct store.
    + rewrite (fetch_from_api_success w text data d' Hp Hr).
      apply end_cached. exact Hr.
    + rewrite (fetch_from_api_refused w text data d' Hc Hp Hr).
      eapply end_refused. exact Hr.
  - rewrite (fetch_from_api_unrenderable store w text data d' Hc Hp Hr).
    eapply end_unrenderable. exact Hr.
Qed.

(** X4. A second page load finds what the first one cached. When a run
    reaches the request, the response parses to [data] with Numbers that
    survive serialisation, [data] renders and the store accepts the write,
    the next run on the resulting world, whatever the remote service would
    answer and whether or not the store would accept a write, makes no
    request: it reads the cache, renders [data] again to the same page and
    leaves the store as it is. *)
Theorem second_load_hits_cache store' remote' w w1 text data d' :
  containers_present (page w) = true ->
  check_cache w = CacheMiss w1 ->
  parseGeminiJson text = Some data ->
  populatePortfolioContent data (page w1) = (Done tt, d') ->
  numbers_stable data = true ->
  generatePortfolioContent store' remote'
    (generatePortfolioContent Stored (Responded (Some text)) w) =
  World (storage (generatePortfolioContent Stored (Responded (Some text)) w))
    (page (generatePortfolioContent Stored (Responded (Some text)) w))
    (trace (generatePortfolioContent Stored (Responded (Some text)) w)
     ++ [GetItem cache_key; Populate data]).
Proof.
  intros Hc Hm Hp Hr Hn.
  destruct (cache_miss_world w w1 Hc Hm) as (Hc1 & _ & _).
  assert (Hd' : containers_present d' = true).
  { pose proof (populate_keeps_containers data (page w1) Hc1) as Hk.
    rewrite Hr in Hk. exact Hk. }
  unfold generatePortfolioContent at 2 3 4 5. rewrite Hc, Hm. cbn [negb].
  rewrite (fetch_from_api_success w1 text data d' Hp Hr).
  unfold generatePortfolioContent. cbn [page storage trace]. rewrite Hd'. cbn [negb].
  erewrite check_cache_hit; [reflexivity| | |].
  - cbn [storage]. apply lookup_insert_eq.
  - apply JSON_parse_stringify; [eapply parseGeminiJson_wf; exact Hp|exact Hn].
  - cbn [page]. exact (populate_any_page data (page w1) d' d' Hc1 Hd' Hr).
Qed.

Lemma second_load_hits_cache_witness :
  let w := World ∅ blank_page [] in
  let w' := generatePortfolioContent Stored (Responded (Some sample_text)) w in
  generatePortfolioContent QuotaExceeded Rejected w' =
  World (storage w') (page w') (trace w' ++ [GetItem cache_key; Populate sample_content]).
Proof.
  refine (second_load_hits_cache QuotaExceeded Rejected (World ∅ blank_page [])
            (World ∅ blank_page [GetItem cache_key]) sample_text sample_content
            (snd (populatePortfolioContent sample_content blank_page)) _ _ _ _ _);
    vm_compute; reflexivity.
Defined.

(** X5. A response that parses but cannot be rendered is not cached. When a run
    reaches the request and the populator throws on the parsed response, the
    page shows the fallback content, the store is as it was at the request,
    and the trace records the request and the two calls of the populator. *)
Theorem unrenderable_response_falls_back store w w1 text data d' :
  containers_present (page w) = true ->
  check_cache w = CacheMiss w1 ->
  parseGeminiJson text = Some data ->
  populatePortfolioContent data (page w1) = (Thrown, d') ->
  generatePortfolioContent store (Responded (Some text)) w =
  World (storage w1) default_page
    (trace w1 ++ [GenerateContent model_name; Populate data;
                  Populate defaultPortfolioData]).
Proof.
  intros Hc Hm Hp Hr.
  destruct (cache_miss_world w w1 Hc Hm) as (Hc1 & _ & _).
  unfold generatePortfolioContent. rewrite Hc, Hm. cbn [negb].
  apply (fetch_from_api_unrenderable store w1 text data d'); assumption.
Qed.

Lemma unrenderable_response_falls_back_witness :
  generatePortfolioContent Stored (Responded (Some (js "{}"))) (World ∅ blank_page []) =
  World (storage (World ∅ blank_page [GetItem cache_key])) default_page
    (trace (World ∅ blank_page [GetItem cache_key])
     ++ [GenerateContent model_name; Populate (VObj []);
         Populate defaultPortfolioData]).
Proof.
  refine (unrenderable_response_falls_back Stored (World ∅ blank_page [])
            (World ∅ blank_page [GetItem cache_key]) (js "{}") (VObj [])
            (snd (populatePortfolioContent (VObj []) blank_page)) _ _ _ _);
    vm_compute; reflexivity.
Defined.

(** X6. A response of the shape the request asks for cannot fail to render.
    When a run reaches the request and the response parses to an object with
    a string biography, an array of skills with string names and
    descriptions and an array of projects with the five fields of the
    schema, the populator completes on it and the serialisation is handed to
    the store. If the store accepts it, the page is that rendering and the
    store holds the serialisation under the cache key; if the store refuses
    it, the fallback content replaces the rendering and nothing is cached. *)
Theorem schema_response_renders store w w1 text data :
  containers_present (page w) = true ->
  check_cache w = CacheMiss w1 ->
  parseGeminiJson text = Some data ->
  content_shaped data = true ->
  exists d',
    populatePortfolioContent data (page w1) = (Done tt, d') /\
    generatePortfolioContent store (Responded (Some text)) w =
    match store with
    | Stored =>
        World (<[cache_key := JSON_stringify data]> (storage w1)) d'
          (trace w1 ++ [GenerateContent model_name; Populate data;
                        SetItem cache_key (JSON_stringify data)])
    | QuotaExceeded =>
        World (storage w1) default_page
          (trace w1 ++ [GenerateContent model_name; Populate data;
                        SetItem cache_key (JSON_stringify data);
                        Populate defaultPortfolioData])
    end.
Proof.
  intros Hc Hm Hp Hs.
  destruct (cache_miss_world w w1 Hc Hm) as (Hc1 & _ & _).
  destruct (shaped_content_renders data (page w1) Hs) as [d' Hr].
  exists d'. split; [exact Hr|].
  unfold generatePortfolioContent. rewrite Hc, Hm. cbn [negb].
  destruct store.
  - exact (fetch_from_api_success w1 text data d' Hp Hr).
  - exact (fetch_from_api_refused w1 text data d' Hc1 Hp Hr).
Qed.

Lemma schema_response_renders_witness :
  let w := World ∅ blank_page [] in
  let w1 := World ∅ blank_page [GetItem cache_key] in
  exists d',
    populatePortfolioContent sample_content (page w1) = (Done tt, d') /\
    generatePortfolioContent QuotaExceeded (Responded (Some sample_text)) w =
    World (storage w1) default_page
      (trace w1 ++ [GenerateContent model_name; Populate sample_content;
                    SetItem cache_key (JSON_stringify sample_content);
                    Populate defaultPortfolioData]).
Proof.
  refine (schema_response_renders QuotaExceeded (World ∅ blank_page [])
            (World ∅ blank_page [GetItem cache_key]) sample_text sample_content
            _ _ _ _);
    vm_compute; reflexivity.
Defined.

(** X19. A write the store refuses undoes the page, not the store. When a run
    reaches the request, the response parses and renders, and
    [localStorage.setItem] throws, the catch block replaces the rendering
    with the fallback content: the page shows the fallback, the store is as
    it was at the request, and the trace records the request, the rendering
    of the response, the refused write and the rendering of the fallback. *)
Theorem refused_write_falls_back w w1 text data d' :
  containers_present (page w) = true ->
  check_cache w = CacheMiss w1 ->
  parseGeminiJson text = Some data ->
  populatePortfolioContent data (page w1) = (Done tt, d') ->
  generatePortfolioContent QuotaExceeded (Responded (Some text)) w =
  World (storage w1) default_page
    (trace w1 ++ [GenerateContent model_name; Populate data;
                  SetItem cache_key (JSON_stringify data);
                  Populate defaultPortfolioData]).
Proof.
  intros Hc Hm Hp Hr.
  destruct (cache_miss_world w w1 Hc Hm) as (Hc1 & _ & _).
  unfold generatePortfolioContent. rewrite Hc, Hm. cbn [negb].
  exact (fetch_from_api_refused w1 text data d' Hc1 Hp Hr).
Qed.

Lemma refused_write_falls_back_witness :
  generatePortfolioContent QuotaExceeded (Responded (Some sample_text))
    (World {[cache_key := js "{not json"]} blank_page []) =
  World (storage (World ∅ blank_page [GetItem cache_key; RemoveItem cache_key]))
    default_page
    (trace (World ∅ blank_page [GetItem cache_key; RemoveItem cache_key])
     ++ [GenerateContent model_name; Populate sample_content;
         SetItem cache_key (JSON_stringify sample_content);
         Populate defaultPortfolioData]).
Proof.
  refine (refused_write_falls_back
            (World {[cache_key := js "{not json"]} blank_page [])
            (World ∅ blank_page [GetItem cache_key; RemoveItem cache_key])
            sample_text sample_content
            (snd (populatePortfolioContent sample_content blank_page)) _ _ _ _);
    vm_compute; reflexivity.
Defined.

(** X7. A run never ends on a half-filled page. When the containers are
    present, however the request and the write to the store end, the page a
    run ends with is the complete rendering of one content object, for which
    the trace records a call of the populator: the cached content, the
    response or the fallback. *)
Theorem run_ends_on_complete_page store remote w :
  containers_present (page w) = true ->
  exists data,
    In (Populate data) (trace (generatePortfolioContent store remote w)) /\
    populatePortfolioContent data (page w)
      = (Done tt, page (generatePortfolioContent store remote w)).
Proof.
  intros Hc. unfold generatePortfolioContent. rewrite Hc. cbn [negb].
  pose proof (check_cache_path w) as Hp.
  destruct (check_cache w) as [w'|w1] eqn:Hm.
  - inversion Hp as [| |text v d' Hs Hj Hr|]; subst. exists v. cbn [page trace].
    split; [|exact Hr]. apply in_or_app. right. right. left. reflexivity.
  - destruct (cache_miss_world w w1 Hc Hm) as (Hc1 & _ & _).
    destruct (fetch_from_api_end store remote w1 Hc1)
      as [|data d' Hr|data d' Hr|data d' Hr].
    + exists defaultPortfolioData. cbn [page trace].
      split; [|apply populate_default; exact Hc].
      apply in_or_app. right. right. left. reflexivity.
    + exists data. cbn [page trace].
      split; [|exact (populate_any_page data (page w1) (page w) d' Hc1 Hc Hr)].
      apply in_or_app. right. right. left. reflexivity.
    + exists defaultPortfolioData. cbn [page trace].
      split; [|apply populate_default; exact Hc].
      apply in_or_app. right. right. right. right. left. reflexivity.
    + exists defaultPortfolioData. cbn [page trace].
      split; [|apply populate_default; exact Hc].
      apply in_or_app. right. right. right. left. reflexivity.
Qed.

Lemma run_ends_on_complete_page_witness :
  exists data,
    In (Populate data)
       (trace (generatePortfolioContent Stored Rejected
                 (World {[cache_key := js "{}"]} blank_page []))) /\
    populatePortfolioContent data (page (World {[cache_key := js "{}"]} blank_page []))
      = (Done tt, page (generatePortfolioContent Stored Rejected
                          (World {[cache_key := js "{}"]} blank_page []))).
Proof.
  refine (run_ends_on_complete_page Stored Rejected
            (World {[cache_key := js "{}"]} blank_page []) _).
  reflexivity.
Defined.

(** The events of one run. *)
Lemma run_events store remote w :
  containers_present (page w) = true ->
  exists step1 step2,
    trace (generatePortfolioContent store remote w)
      = trace w ++ GetItem cache_key :: step1 ++ step2 /\
    ((exists v, step1 = [Populate v] /\ step2 = []) \/
     ((step1 = [] \/ step1 = [RemoveItem cache_key] \/
       exists v, step1 = [Populate v; RemoveItem cache_key]) /\
      (step2 = [GenerateContent model_name; Populate defaultPortfolioData] \/
       (exists data, step2 = [GenerateContent model_name; Populate data;
                              SetItem cache_key (JSON_stringify data)]) \/
       (exists data, step2 = [GenerateContent model_name; Populate data;
                              SetItem cache_key (JSON_stringify data);
                              Populate defaultPortfolioData]) \/
       (exists data, step2 = [GenerateContent model_name; Populate data;
                              Populate defaultPortfolioData])))).
Proof.
  intros Hc. unfold generatePortfolioContent. rewrite Hc. cbn [negb].
  pose proof (check_cache_path w) as Hp.
  destruct (check_cache w) as [w'|w1] eqn:Hm.
  - inversion Hp as [| |text v d' Hs Hj Hr|]; subst.
    exists [Populate v], []. split; [reflexivity|]. left. eauto.
  - destruct (cache_miss_world w w1 Hc Hm) as (Hc1 & _ & _).
    assert (H1 : exists step1, trace w1 = trace w ++ GetItem cache_key :: step1 /\
              (step1 = [] \/ step1 = [RemoveItem cache_key] \/
               exists v, step1 = [Populate v; RemoveItem cache_key])).
    { inversion Hp as [Hs|text Hs Hne Hj| |text v d' Hs Hj Hr]; subst; cbn [trace emit].
      - exists []. split; [reflexivity|]. left. reflexivity.
      - exists [RemoveItem cache_key]. split; [reflexivity|]. right. left. reflexivity.
      - exists [Populate v; RemoveItem cache_key]. split; [reflexivity|].
        right. right. eauto. }
    destruct H1 as (step1 & Ht & H1).
    destruct (fetch_from_api_end store remote w1 Hc1)
      as [|data d' Hr|data d' Hr|data d' Hr];
      cbn [trace]; rewrite Ht, <- app_assoc; cbn [app];
      eexists step1, _; (split; [reflexivity|]); right; (split; [exact H1|]);
      eauto 6.
Qed.

Ltac in_cases H :=
  cbn [In] in H;
  repeat match type of H with
         | _ \/ _ => destruct H as [H|H]
         | False => destruct H
         | _ = _ => discriminate H
         end.

(** X8. One run reads the cache exactly once and first, makes at most one
    request, removes at most one entry and calls [setItem] at most once; it
    touches no key but the cache key, and what it hands to [setItem] is the
    serialisation of a content object it has handed to the populator. *)
Theorem run_effects_bounded store remote w :
  containers_present (page w) = true ->
  exists evs,
    trace (generatePortfolioContent store remote w) = trace w ++ GetItem cache_key :: evs /\
    List.filter is_read evs = [] /\
    (length (List.filter is_request evs) <= 1)%nat /\
    (length (List.filter is_removal evs) <= 1)%nat /\
    (length (List.filter is_write evs) <= 1)%nat /\
    (forall k, In (RemoveItem k) evs -> k = cache_key) /\
    (forall k t, In (SetItem k t) evs ->
       k = cache_key /\ exists data, t = JSON_stringify data /\ In (Populate data) evs).
Proof.
  intros Hc. destruct (run_events store remote w Hc) as (step1 & step2 & Ht & H).
  exists (step1 ++ step2). split; [exact Ht|].
  destruct H as [(v & -> & ->)|[H1 H2]];
    [|destruct H1 as [->|[->|(v & ->)]];
      destruct H2 as [->|[(data & ->)|[(data & ->)|(data & ->)]]]];
    cbn; (split; [reflexivity|]); (do 3 (split; [lia|])); split;
    try (intros k Hin; in_cases Hin; injection Hin as <-; reflexivity);
    intros k t Hin; in_cases Hin; injection Hin as <- <-; (split; [reflexivity|]);
    exists data; (split; [reflexivity|]); cbn; tauto.
Qed.

Lemma run_effects_bounded_witness :
  exists evs,
    trace (generatePortfolioContent Stored (Responded (Some sample_text))
             (World {[cache_key := js "{not json"]} blank_page []))
      = trace (World {[cache_key := js "{not json"]} blank_page [])
        ++ GetItem cache_key :: evs /\
    List.filter is_read evs = [] /\
    (length (List.filter is_request evs) <= 1)%nat /\
    (length (List.filter is_removal evs) <= 1)%nat /\
    (length (List.filter is_write evs) <= 1)%nat /\
    (forall k, In (RemoveItem k) evs -> k = cache_key) /\
    (forall k t, In (SetItem k t) evs ->
       k = cache_key /\ exists data, t = JSON_stringify data /\ In (Populate data) evs).
Proof.
  refine (run_effects_bounded Stored (Responded (Some sample_text))
            (World {[cache_key := js "{not json"]} blank_page []) _).
  reflexivity.
Defined.

(** X9. A run leaves every other key of the store alone: whatever the cache
    holds and however the request ends, an entry under a key other than the
    cache key is after the run what it was before. *)
Theorem run_keeps_other_keys store remote w k :
  k <> cache_key ->
  storage (generatePortfolioContent store remote w) !! k = storage w !! k.
Proof.
  intros Hk. unfold generatePortfolioContent.
  destruct (containers_present (page w)) eqn:Hc; cbn [negb]; [|reflexivity].
  pose proof (check_cache_path w) as Hp.
  destruct (check_cache w) as [w'|w1] eqn:Hm.
  - inversion Hp; subst. reflexivity.
  - destruct (cache_miss_world w w1 Hc Hm) as (_ & Hs & _).
    assert (H1 : storage w1 !! k = storage w !! k).
    { destruct Hs as [->|[_ ->]]; [reflexivity|]. apply lookup_delete_ne. congruence. }
    destruct (fetch_from_api_storage store remote w1) as [->|[text ->]]; [exact H1|].
    rewrite lookup_insert_ne by congruence. exact H1.
Qed.

Lemma run_keeps_other_keys_witness :
  storage (generatePortfolioContent Stored (Responded (Some sample_text))
             (World {[js "theme" := js "dark"]} blank_page [])) !! js "theme"
  = storage (World {[js "theme" := js "dark"]} blank_page []) !! js "theme".
Proof.
  refine (run_keeps_other_keys Stored (Responded (Some sample_text))
            (World {[js "theme" := js "dark"]} blank_page []) (js "theme") _).
  vm_compute. discriminate.
Defined.

(** X10. Cached content that renders stays. When the store holds a text under
    the cache key that parses and renders, any number of further runs,
    whatever the remote service would answer and whether or not the store
    would accept a write, leave the store as it is, show that rendering and
    make no request. *)
Theorem usable_cache_is_stable runs w text v d' :
  containers_present (page w) = true ->
  storage w !! cache_key = Some text ->
  JSON_parse text = Some v ->
  populatePortfolioContent v (page w) = (Done tt, d') ->
  storage (fold_left (fun w r => generatePortfolioContent (fst r) (snd r) w) runs w)
    = storage w /\
  (runs <> [] ->
   page (fold_left (fun w r => generatePortfolioContent (fst r) (snd r) w) runs w) = d') /\
  (forall e,
     In e (trace (fold_left (fun w r => generatePortfolioContent (fst r) (snd r) w) runs w)) ->
     is_request e = true -> In e (trace w)).
Proof.
  revert w. induction runs as [|r runs IH]; intros w Hc Hs Hj Hr.
  - cbn. split; [reflexivity|]. split; [congruence|auto].
  - cbn [fold_left].
    assert (Hd' : containers_present d' = true).
    { pose proof (populate_keeps_containers v (page w) Hc) as Hk.
      rewrite Hr in Hk. exact Hk. }
    assert (Hrun : generatePortfolioContent (fst r) (snd r) w =
                   World (storage w) d' (trace w ++ [GetItem cache_key; Populate v])).
    { unfold generatePortfolioContent. rewrite Hc. cbn [negb].
      rewrite (check_cache_hit w text v d' Hs Hj Hr). reflexivity. }
    rewrite Hrun.
    destruct (IH (World (storage w) d' (trace w ++ [GetItem cache_key; Populate v])))
      as (H1 & H2 & H3); cbn [page storage trace]; try assumption.
    { exact (populate_any_page v (page w) d' d' Hc Hd' Hr). }
    cbn [storage trace] in H1, H3.
    split; [exact H1|]. split.
    + intros _. destruct runs as [|r' runs']; [reflexivity|].
      apply H2. discriminate.
    + intros e Hin He. specialize (H3 e Hin He).
      apply in_app_or in H3 as [H3|H3]; [exact H3|].
      in_cases H3; subst e; discriminate He.
Qed.

Lemma usable_cache_is_stable_witness :
  let w := World {[cache_key := sample_text]} blank_page [] in
  let runs := [(Stored, Rejected); (QuotaExceeded, Responded (Some (js "{}")));
               (Stored, Responded None)] in
  storage (fold_left (fun w r => generatePortfolioContent (fst r) (snd r) w) runs w)
    = storage w /\
  (runs <> [] ->
   page (fold_left (fun w r => generatePortfolioContent (fst r) (snd r) w) runs w)
   = snd (populatePortfolioContent sample_content blank_page)) /\
  (forall e,
     In e (trace (fold_left (fun w r => generatePortfolioContent (fst r) (snd r) w) runs w)) ->
     is_request e = true -> In e (trace w)).
Proof.
  refine (usable_cache_is_stable
            [(Stored, Rejected); (QuotaExceeded, Responded (Some (js "{}")));
             (Stored, Responded None)]
            (World {[cache_key := sample_text]} blank_page []) sample_text sample_content
            (snd (populatePortfolioContent sample_content blank_page)) _ _ _ _);
    vm_compute; reflexivity.
Defined.

(** X11. A failure is not remembered. After a run whose request ended without
    content, the next run finds no usable cached content either and makes
    the request again, straight after reading the cache. *)
Theorem failed_run_is_retried store store' remote remote' w w1 :
  containers_present (page w) = true ->
  check_cache w = CacheMiss w1 ->
  remote_fails remote ->
  exists evs,
    trace (generatePortfolioContent store' remote'
             (generatePortfolioContent store remote w)) =
    trace (generatePortfolioContent store remote w)
    ++ [GetItem cache_key; GenerateContent model_name] ++ evs.
Proof.
  intros Hc Hm Hf.
  destruct (cache_miss_world w w1 Hc Hm) as (Hc1 & _ & _).
  assert (Hk : storage w1 !! cache_key = None \/ storage w1 !! cache_key = Some []).
  { pose proof (check_cache_path w) as Hp. rewrite Hm in Hp.
    inversion Hp as [Hs|text Hs Hne Hj| |text v d' Hs Hj Hr]; subst; cbn [storage emit].
    - exact Hs.
    - left. apply lookup_delete_eq.
    - left. apply lookup_delete_eq. }
  unfold generatePortfolioContent at 2 3. rewrite Hc, Hm. cbn [negb].
  rewrite (fetch_from_api_fails store remote w1 Hc1 Hf).
  unfold generatePortfolioContent. cbn [page]. change (containers_present default_page) with true.
  cbn [negb]. rewrite check_cache_falsy by exact Hk.
  destruct (fetch_from_api_trace store' remote'
              (emit (GetItem cache_key)
                 (World (storage w1) default_page
                    (trace w1 ++ [GenerateContent model_name; Populate defaultPortfolioData]))))
    as (evs & -> & _).
  exists evs. cbn [trace emit]. rewrite <- !app_assoc. reflexivity.
Qed.

Lemma failed_run_is_retried_witness :
  exists evs,
    trace (generatePortfolioContent Stored (Responded (Some sample_text))
             (generatePortfolioContent Stored Rejected
                (World {[cache_key := js "{not json"]} blank_page []))) =
    trace (generatePortfolioContent Stored Rejected
             (World {[cache_key := js "{not json"]} blank_page []))
    ++ [GetItem cache_key; GenerateContent model_name] ++ evs.
Proof.
  refine (failed_run_is_retried Stored Stored Rejected (Responded (Some sample_text))
            (World {[cache_key := js "{not json"]} blank_page [])
            (World (delete cache_key {[cache_key := js "{not json"]}) blank_page
               [GetItem cache_key; RemoveItem cache_key]) _ _ _).
  - reflexivity.
  - vm_compute. reflexivity.
  - exact I.
Defined.

(** ** The response parser: white space and incomplete fences *)

Lemma trim_start_spaces ws t :
  forallb is_space ws = true -> trim_start (ws ++ t) = trim_start t.
Proof.
  induction ws as [|c ws IH]; intros H; [reflexivity|].
  simpl in H. apply andb_prop in H as [Hc Hws]. simpl. rewrite Hc. auto.
Qed.

Lemma trim_end_spaces t ws :
  forallb is_space ws = true -> trim_end (t ++ ws) = trim_end t.
Proof.
  intros H. induction t as [|c t IH].
  - simpl. apply trim_end_nil_iff. exact H.
  - rewrite <- app_comm_cons, !trim_end_cons, IH.
    cbn [forallb]. rewrite forallb_app, H, andb_true_r. reflexivity.
Qed.

Lemma trim_start_app t u :
  trim_start (t ++ u) =
  match trim_start t with
  | [] => trim_start u
  | r => r ++ u
  end.
Proof.
  induction t as [|c t IH]; simpl.
  - destruct (trim_start u); reflexivity.
  - destruct (is_space c); [exact IH|reflexivity].
Qed.

Lemma trim_spaces ws t ws' :
  forallb is_space ws = true -> forallb is_space ws' = true ->
  trim (ws ++ t ++ ws') = trim t.
Proof.
  intros H H'. unfold trim. rewrite (trim_start_spaces _ _ H), trim_start_app.
  destruct (trim_start t) as [|c r] eqn:E.
  - replace (trim_start ws') with (@nil N); [reflexivity|].
    symmetry. apply trim_start_nil_iff. exact H'.
  - apply trim_end_spaces. exact H'.
Qed.

(** X12. White space around the response does not matter: with any JavaScript
    white space (spaces, tabs, line ends, no-break spaces, the byte order
    mark) put before and after a text, the parser returns what it returns
    for the text, a value or the failure. *)
Theorem parseGeminiJson_ignores_outer_space ws text ws' :
  forallb is_space ws = true ->
  forallb is_space ws' = true ->
  parseGeminiJson (ws ++ text ++ ws') = parseGeminiJson text.
Proof.
  intros H H'. unfold parseGeminiJson. rewrite (trim_spaces _ _ _ H H'). reflexivity.
Qed.

Lemma parseGeminiJson_ignores_outer_space_witness :
  parseGeminiJson ([0xFEFF; 32] ++ sample_text ++ [10; 160])
  = parseGeminiJson sample_text.
Proof.
  apply (parseGeminiJson_ignores_outer_space [0xFEFF; 32] sample_text [10; 160]);
    reflexivity.
Defined.

Lemma JSON_parse_backtick r : JSON_parse (96 :: r) = None.
Proof. reflexivity. Qed.

(** X13. A fence is unwrapped only when it is whole. A text that, once trimmed,
    starts with a backtick but is not a complete fence (three backticks and
    the word json in lower case at its start, three backticks at its end)
    makes the parser fail: a fence without the json tag, with another tag,
    or followed by further text is never unwrapped. *)
Theorem parseGeminiJson_incomplete_fence text r :
  trim text = 96 :: r ->
  (forall body, trim text <> fence_open ++ body ++ fence_close) ->
  parseGeminiJson text = None.
Proof.
  intros Ht Hn. unfold parseGeminiJson.
  rewrite (string_match_unfenced _ Hn), Ht. apply JSON_parse_backtick.
Qed.

Lemma parseGeminiJson_incomplete_fence_witness :
  parseGeminiJson (js "```" ++ nl ++ js "{}" ++ nl ++ js "```") = None.
Proof.
  refine (parseGeminiJson_incomplete_fence (js "```" ++ nl ++ js "{}" ++ nl ++ js "```")
            (js "``" ++ nl ++ js "{}" ++ nl ++ js "```") _ _).
  - reflexivity.
  - intros body H. vm_compute in H. discriminate H.
Defined.

(** ** The navigation menu *)

Lemma contains_app t l1 l2 : contains t (l1 ++ l2) = contains t l1 || contains t l2.
Proof. apply existsb_app. Qed.

Lemma contains_remove t' t l :
  contains t' (token_remove t l) = contains t' l && negb (bool_decide (t' = t)).
Proof.
  unfold contains, token_remove. induction l as [|x l IH]; [reflexivity|].
  cbn [List.filter existsb].
  destruct (bool_decide_reflect (x = t)) as [->|Hx]; cbn [negb existsb]; rewrite IH.
  - destruct (bool_decide_reflect (t = t')) as [->|Ht].
    + rewrite bool_decide_eq_true_2 by reflexivity. cbn.
      rewrite andb_false_r. reflexivity.
    + reflexivity.
  - destruct (bool_decide_reflect (x = t')) as [->|Ht]; [|reflexivity].
    rewrite bool_decide_eq_false_2 by exact Hx. reflexivity.
Qed.

Lemma contains_toggle t' t l :
  contains t' (snd (token_toggle t l)) =
  if bool_decide (t' = t) then negb (contains t l) else contains t' l.
Proof.
  unfold token_toggle. destruct (contains t l) eqn:E; cbn [snd negb].
  - rewrite contains_remove.
    destruct (bool_decide_reflect (t' = t)) as [->|Ht]; cbn [negb].
    + apply andb_false_r.
    + apply andb_true_r.
  - rewrite contains_app. cbn [contains existsb].
    destruct (bool_decide_reflect (t' = t)) as [->|Ht].
    + rewrite E, bool_decide_eq_true_2 by reflexivity. reflexivity.
    + rewrite bool_decide_eq_false_2 by congruence. rewrite !orb_false_r. reflexivity.
Qed.

Lemma fst_token_toggle t l : fst (token_toggle t l) = negb (contains t l).
Proof. unfold token_toggle. destruct (contains t l); reflexivity. Qed.

(** The listener of the button, by what it does to each token. *)
Lemma hamburger_listener_spec b n :
  let '(b', n') := hamburger_listener (b, n) in
  (forall t, contains t (button_classes b') =
             if bool_decide (t = js "is-active")
             then negb (contains (js "is-active") (button_classes b))
             else contains t (button_classes b)) /\
  aria_expanded b'
    = Some (string_of_bool (negb (contains (js "is-active") (button_classes b)))) /\
  (forall t, contains t (nav_classes n') =
             if bool_decide (t = js "nav-active")
             then negb (contains (js "nav-active") (nav_classes n))
             else contains t (nav_classes n)) /\
  nav_anchors n' = nav_anchors n.
Proof.
  unfold hamburger_listener.
  pose proof (fst_token_toggle (js "is-active") (button_classes b)) as Hf.
  pose proof (fun t => contains_toggle t (js "is-active") (button_classes b)) as Hs.
  destruct (token_toggle (js "is-active") (button_classes b)) as [isActive classes].
  cbn [fst snd] in Hf, Hs. subst isActive. cbn [button_classes aria_expanded nav_classes nav_anchors].
  repeat split; [exact Hs|]. intros t. apply contains_toggle.
Qed.

Lemma closeMenu_spec b n :
  (forall t, contains t (button_classes (fst (closeMenu b n))) =
             contains t (button_classes b) && negb (bool_decide (t = js "is-active"))) /\
  aria_expanded (fst (closeMenu b n)) = Some (js "false") /\
  (forall t, contains t (nav_classes (snd (closeMenu b n))) =
             contains t (nav_classes n) && negb (bool_decide (t = js "nav-active"))) /\
  nav_anchors (snd (closeMenu b n)) = nav_anchors n.
Proof.
  unfold closeMenu. cbn [fst snd button_classes aria_expanded nav_classes nav_anchors].
  repeat split; intros t; apply contains_remove.
Qed.

(** A link listener that does not throw: the menu is closed. *)
Lemma link_listener_closes querySelector href b n fx :
  (forall t, href = Some t -> t <> [] -> querySelector t <> InvalidSelector) ->
  link_listener querySelector href (b, n, fx)
  = (closeMenu b n, fx ++ link_effects querySelector href).
Proof.
  intros Hq. unfold link_listener, link_effects.
  destruct href as [[|c r]|]; try reflexivity.
  specialize (Hq (c :: r) eq_refl ltac:(discriminate)).
  destruct (querySelector (c :: r)) eqn:E; [congruence|reflexivity|].
  rewrite <- app_assoc. reflexivity.
Qed.

(** X14. A click on a link closes the menu. After [setupMobileMenu] on a page
    with the button and the navigation list, a click on a link whose href
    is absent, empty or a string that [document.querySelector] accepts
    leaves the button without the class is-active and with aria-expanded
    false, and the list without the class nav-active, whatever the state
    before; every other class stays. The default action of the click is
    prevented; when the selector finds an element, that element is scrolled
    to, and in every other case nothing is. *)
Theorem link_click_closes_menu querySelector m b n i href :
  hamburgerBtn m = Some b ->
  navLinks m = Some n ->
  menu_listeners m = 0%nat ->
  nav_anchors n !! i = Some href ->
  (forall t, href = Some t -> t <> [] -> querySelector t <> InvalidSelector) ->
  exists b' n' fx,
    click querySelector (OnLink i) (setupMobileMenu m) = Menu (Some b') (Some n') 1 fx /\
    contains (js "is-active") (button_classes b') = false /\
    aria_expanded b' = Some (js "false") /\
    contains (js "nav-active") (nav_classes n') = false /\
    (forall t, t <> js "is-active" ->
               contains t (button_classes b') = contains t (button_classes b)) /\
    (forall t, t <> js "nav-active" ->
               contains t (nav_classes n') = contains t (nav_classes n)) /\
    nav_anchors n' = nav_anchors n /\
    (forall t, href = Some t -> t <> [] -> querySelector t = FoundElement ->
               fx = effects m ++ [PreventDefault; ScrollIntoView t]) /\
    ((href = None \/ href = Some [] \/
      exists t, href = Some t /\ querySelector t = NoElement) ->
     fx = effects m ++ [PreventDefault]).
Proof.
  intros Hb Hn Hl Hi Hq.
  pose proof (link_listener_closes querySelector href b n (effects m) Hq) as Hr.
  destruct (closeMenu_spec b n) as (Hbc & Ha & Hnc & Hh).
  exists (fst (closeMenu b n)), (snd (closeMenu b n)),
         (effects m ++ link_effects querySelector href).
  split.
  { unfold setupMobileMenu, click. rewrite Hb, Hn.
    cbn [hamburgerBtn navLinks menu_listeners effects].
    rewrite Hi, Hl. cbn [Nat.iter nat_rect]. rewrite Hr.
    destruct (closeMenu b n). reflexivity. }
  split; [rewrite Hbc, bool_decide_eq_true_2 by reflexivity; apply andb_false_r|].
  split; [exact Ha|].
  split; [rewrite Hnc, bool_decide_eq_true_2 by reflexivity; apply andb_false_r|].
  split; [intros t Ht; rewrite Hbc, bool_decide_eq_false_2 by exact Ht; apply andb_true_r|].
  split; [intros t Ht; rewrite Hnc, bool_decide_eq_false_2 by exact Ht; apply andb_true_r|].
  split; [exact Hh|].
  unfold link_effects. split.
  - intros t -> Ht Hf. destruct t as [|c r]; [congruence|]. rewrite Hf. reflexivity.
  - intros [->|[->|(t & -> & Hno)]]; [reflexivity..|].
    destruct t as [|c r]; [reflexivity|]. rewrite Hno. reflexivity.
Qed.

Lemma link_click_closes_menu_witness :
  let querySelector := fun _ : jsstring => FoundElement in
  let b := Button [js "hamburger"; js "is-active"] (Some (js "true")) in
  let n := Nav [js "nav-active"] [Some (js "#about")] in
  let m := Menu (Some b) (Some n) 0 [] in
  exists b' n' fx,
    click querySelector (OnLink 0) (setupMobileMenu m) = Menu (Some b') (Some n') 1 fx /\
    contains (js "is-active") (button_classes b') = false /\
    aria_expanded b' = Some (js "false") /\
    contains (js "nav-active") (nav_classes n') = false /\
    (forall t, t <> js "is-active" ->
               contains t (button_classes b') = contains t (button_classes b)) /\
    (forall t, t <> js "nav-active" ->
               contains t (nav_classes n') = contains t (nav_classes n)) /\
    nav_anchors n' = nav_anchors n /\
    (forall t, Some (js "#about") = Some t -> t <> [] -> querySelector t = FoundElement ->
               fx = effects m ++ [PreventDefault; ScrollIntoView t]) /\
    ((Some (js "#about") = None \/ Some (js "#about") = Some [] \/
      exists t, Some (js "#about") = Some t /\ querySelector t = NoElement) ->
     fx = effects m ++ [PreventDefault]).
Proof.
  refine (link_click_closes_menu (fun _ => FoundElement)
            (Menu (Some (Button [js "hamburger"; js "is-active"] (Some (js "true"))))
               (Some (Nav [js "nav-active"] [Some (js "#about")])) 0 [])
            (Button [js "hamburger"; js "is-active"] (Some (js "true")))
            (Nav [js "nav-active"] [Some (js "#about")]) 0 (Some (js "#about")) _ _ _ _ _);
    try reflexivity.
  intros t _ _. discriminate.
Defined.

(** X15. A link whose href is no selector leaves the menu open. After
    [setupMobileMenu], a click on a link whose href is a non-empty string
    on which [document.querySelector] throws prevents the default action of
    the click and does nothing else: the classes and aria-expanded stay as
    they are, and nothing is scrolled to. *)
Theorem link_click_invalid_selector querySelector m b n i t :
  hamburgerBtn m = Some b ->
  navLinks m = Some n ->
  menu_listeners m = 0%nat ->
  nav_anchors n !! i = Some (Some t) ->
  t <> [] ->
  querySelector t = InvalidSelector ->
  click querySelector (OnLink i) (setupMobileMenu m)
  = Menu (Some b) (Some n) 1 (effects m ++ [PreventDefault]).
Proof.
  intros Hb Hn Hl Hi Ht Hq. unfold setupMobileMenu, click. rewrite Hb, Hn.
  cbn [hamburgerBtn navLinks menu_listeners effects]. rewrite Hi, Hl.
  cbn [Nat.iter nat_rect]. unfold link_listener. rewrite Hq.
  destruct t; [congruence|reflexivity].
Qed.

Lemma link_click_invalid_selector_witness :
  click (fun _ => InvalidSelector) (OnLink 0)
    (setupMobileMenu
       (Menu (Some (Button [js "is-active"] (Some (js "true"))))
          (Some (Nav [js "nav-active"] [Some (js "https://example.org/")])) 0 []))
  = Menu (Some (Button [js "is-active"] (Some (js "true"))))
      (Some (Nav [js "nav-active"] [Some (js "https://example.org/")])) 1
      (effects
         (Menu (Some (Button [js "is-active"] (Some (js "true"))))
            (Some (Nav [js "nav-active"] [Some (js "https://example.org/")])) 0 [])
       ++ [PreventDefault]).
Proof.
  refine (link_click_invalid_selector (fun _ => InvalidSelector)
            (Menu (Some (Button [js "is-active"] (Some (js "true"))))
               (Some (Nav [js "nav-active"] [Some (js "https://example.org/")])) 0 [])
            (Button [js "is-active"] (Some (js "true")))
            (Nav [js "nav-active"] [Some (js "https://example.org/")]) 0
            (js "https://example.org/") _ _ _ _ _ _);
    try reflexivity.
  discriminate.
Defined.

Lemma click_step querySelector target m :
  menu_listeners m = 1%nat ->
  menu_listeners (click querySelector target m) = 1%nat /\
  (classes_in_step m -> classes_in_step (click querySelector target m)) /\
  (aria_mirrors m -> aria_mirrors (click querySelector target m)).
Proof.
  intros Hl. unfold click, classes_in_step, aria_mirrors.
  destruct (hamburgerBtn m) as [b|] eqn:Hb; [|rewrite Hb; auto].
  destruct (navLinks m) as [n|] eqn:Hn; [|rewrite Hb, Hn; auto].
  destruct target as [|i].
  - rewrite Hl. cbn [Nat.iter nat_rect].
    pose proof (hamburger_listener_spec b n) as Hs.
    destruct (hamburger_listener (b, n)) as [b' n'].
    destruct Hs as (Hbc & Ha & Hnc & _).
    cbn [hamburgerBtn navLinks menu_listeners].
    split; [reflexivity|]. split.
    + intros Hstep.
      rewrite Hbc, Hnc, !bool_decide_eq_true_2 by reflexivity. rewrite Hstep. reflexivity.
    + intros _. rewrite Ha, Hbc, bool_decide_eq_true_2 by reflexivity. reflexivity.
  - destruct (nav_anchors n !! i) as [href|]; [|rewrite Hb, Hn; auto].
    rewrite Hl. cbn [Nat.iter nat_rect].
    destruct (closeMenu_spec b n) as (Hbc & Ha & Hnc & _).
    assert (Hr : (exists fx, link_listener querySelector href (b, n, effects m)
                             = (closeMenu b n, fx)) \/
                 (exists fx, link_listener querySelector href (b, n, effects m)
                             = (b, n, fx))).
    { unfold link_listener. destruct href as [[|c r]|]; eauto.
      destruct (querySelector (c :: r)); eauto. }
    destruct Hr as [[fx ->]|[fx ->]].
    + destruct (closeMenu b n) as [b' n']. cbn [fst snd] in Hbc, Ha, Hnc.
      cbn [hamburgerBtn navLinks menu_listeners].
      split; [reflexivity|]. split; intros _.
      * rewrite Hbc, Hnc, !bool_decide_eq_true_2 by reflexivity.
        rewrite !andb_false_r. reflexivity.
      * rewrite Ha, Hbc, bool_decide_eq_true_2 by reflexivity.
        rewrite andb_false_r. reflexivity.
    + cbn [hamburgerBtn navLinks menu_listeners]. auto.
Qed.

Lemma clicks_without_elements querySelector targets m :
  hamburgerBtn m = None \/ navLinks m = None ->
  clicks querySelector targets m = m.
Proof.
  intros H. unfold clicks. induction targets as [|t targets IH]; [reflexivity|].
  cbn [fold_left]. replace (click querySelector t m) with m; [exact IH|].
  unfold click. destruct H as [-> | ->]; [reflexivity|].
  destruct (hamburgerBtn m); reflexivity.
Qed.

(** X16. The menu stays consistent. After [setupMobileMenu], whatever sequence
    of clicks on the button and on links follows, and whatever the selectors
    of the links do: if the button had the class is-active exactly when the
    list had the class nav-active, it still does; and if aria-expanded said
    whether the button has the class, it still does. *)
Theorem menu_stays_consistent querySelector targets m :
  menu_listeners m = 0%nat ->
  (classes_in_step m ->
   classes_in_step (clicks querySelector targets (setupMobileMenu m))) /\
  (aria_mirrors m ->
   aria_mirrors (clicks querySelector targets (setupMobileMenu m))).
Proof.
  intros Hl.
  assert (Hgen : forall m', (menu_listeners m' = 1%nat) ->
            (classes_in_step m' -> classes_in_step (clicks querySelector targets m')) /\
            (aria_mirrors m' -> aria_mirrors (clicks querySelector targets m'))).
  { unfold clicks. induction targets as [|t targets IH]; intros m' Hl'; [cbn; auto|].
    cbn [fold_left].
    destruct (click_step querySelector t m' Hl') as (Hl1 & Hc1 & Ha1).
    destruct (IH _ Hl1) as [Hc2 Ha2]. auto. }
  unfold setupMobileMenu.
  destruct (hamburgerBtn m) as [b|] eqn:Hb.
  - destruct (navLinks m) as [n|] eqn:Hn.
    + destruct (Hgen (Menu (Some b) (Some n) (S (menu_listeners m)) (effects m))) as [Hc Ha].
      { cbn. rewrite Hl. reflexivity. }
      split; intros H; [apply Hc|apply Ha]; revert H;
        unfold classes_in_step, aria_mirrors; cbn; rewrite ?Hb, ?Hn; auto.
    + rewrite clicks_without_elements by (right; exact Hn). auto.
  - rewrite clicks_without_elements by (left; exact Hb). auto.
Qed.

Lemma menu_stays_consistent_witness :
  let querySelector := fun t : jsstring =>
    if bool_decide (t = js "#about") then FoundElement else InvalidSelector in
  let m := Menu (Some (Button [js "hamburger"] (Some (js "false"))))
             (Some (Nav [] [Some (js "#about"); Some (js "#")])) 0 [] in
  let targets := [OnHamburger; OnLink 1; OnHamburger; OnHamburger; OnLink 0] in
  classes_in_step (clicks querySelector targets (setupMobileMenu m)) /\
  aria_mirrors (clicks querySelector targets (setupMobileMenu m)).
Proof.
  intros querySelector m targets.
  destruct (menu_stays_consistent querySelector targets m eq_refl) as [Hc Ha].
  split; [apply Hc|apply Ha]; reflexivity.
Defined.

Lemma hamburger_listener_twice b n :
  let '(b', n') := hamburger_listener (hamburger_listener (b, n)) in
  same_tokens (button_classes b') (button_classes b) /\
  aria_expanded b'
    = Some (string_of_bool (contains (js "is-active") (button_classes b))) /\
  same_tokens (nav_classes n') (nav_classes n) /\
  nav_anchors n' = nav_anchors n.
Proof.
  pose proof (hamburger_listener_spec b n) as H1.
  destruct (hamburger_listener (b, n)) as [b1 n1].
  pose proof (hamburger_listener_spec b1 n1) as H2.
  destruct (hamburger_listener (b1, n1)) as [b2 n2].
  destruct H1 as (Hb1 & Ha1 & Hn1 & Hh1), H2 as (Hb2 & Ha2 & Hn2 & Hh2).
  repeat split.
  - intros t. rewrite Hb2, !Hb1.
    destruct (bool_decide_reflect (t = js "is-active")) as [->|Ht].
    + rewrite bool_decide_eq_true_2 by reflexivity. apply negb_involutive.
    + reflexivity.
  - rewrite Ha2, Hb1, bool_decide_eq_true_2 by reflexivity.
    rewrite negb_involutive. reflexivity.
  - intros t. rewrite Hn2, !Hn1.
    destruct (bool_decide_reflect (t = js "nav-active")) as [->|Ht].
    + rewrite bool_decide_eq_true_2 by reflexivity. apply negb_involutive.
    + reflexivity.
  - congruence.
Qed.

(** X17. Opening and closing the menu with the button restores it. After
    [setupMobileMenu], two clicks on the button leave both elements with
    the tokens they had (a toggled class may have moved to the end of its
    list), and aria-expanded says whether the button has the class
    is-active. *)
Theorem hamburger_twice_restores querySelector m b n :
  hamburgerBtn m = Some b ->
  navLinks m = Some n ->
  menu_listeners m = 0%nat ->
  exists b' n',
    clicks querySelector [OnHamburger; OnHamburger] (setupMobileMenu m)
      = Menu (Some b') (Some n') 1 (effects m) /\
    same_tokens (button_classes b') (button_classes b) /\
    aria_expanded b'
      = Some (string_of_bool (contains (js "is-active") (button_classes b))) /\
    same_tokens (nav_classes n') (nav_classes n) /\
    nav_anchors n' = nav_anchors n.
Proof.
  intros Hb Hn Hl. pose proof (hamburger_listener_twice b n) as H.
  unfold clicks, setupMobileMenu. rewrite Hb, Hn, Hl. cbn [fold_left].
  unfold click at 2. cbn [hamburgerBtn navLinks menu_listeners effects Nat.iter nat_rect].
  destruct (hamburger_listener (b, n)) as [b1 n1].
  unfold click. cbn [hamburgerBtn navLinks menu_listeners effects Nat.iter nat_rect].
  destruct (hamburger_listener (b1, n1)) as [b2 n2].
  exists b2, n2. split; [reflexivity|exact H].
Qed.

Lemma hamburger_twice_restores_witness :
  let b := Button [js "is-active"; js "hamburger"] None in
  let n := Nav [js "nav"] [] in
  let m := Menu (Some b) (Some n) 0 [] in
  exists b' n',
    clicks (fun _ => NoElement) [OnHamburger; OnHamburger] (setupMobileMenu m)
      = Menu (Some b') (Some n') 1 (effects m) /\
    same_tokens (button_classes b') (button_classes b) /\
    aria_expanded b'
      = Some (string_of_bool (contains (js "is-active") (button_classes b))) /\
    same_tokens (nav_classes n') (nav_classes n) /\
    nav_anchors n' = nav_anchors n.
Proof.
  refine (hamburger_twice_restores (fun _ => NoElement)
            (Menu (Some (Button [js "is-active"; js "hamburger"] None))
               (Some (Nav [js "nav"] [])) 0 [])
            (Button [js "is-active"; js "hamburger"] None) (Nav [js "nav"] []) _ _ _);
    reflexivity.
Defined.

(** X18. [setupMobileMenu] is to be called once. Called twice, it attaches every
    listener twice, and one click on the button then toggles the classes
    twice: both elements keep the tokens they had, so a closed menu does not
    open. *)
Theorem setup_twice_disables_button querySelector m b n :
  hamburgerBtn m = Some b ->
  navLinks m = Some n ->
  menu_listeners m = 0%nat ->
  exists b' n',
    click querySelector OnHamburger (setupMobileMenu (setupMobileMenu m))
      = Menu (Some b') (Some n') 2 (effects m) /\
    same_tokens (button_classes b') (button_classes b) /\
    aria_expanded b'
      = Some (string_of_bool (contains (js "is-active") (button_classes b))) /\
    same_tokens (nav_classes n') (nav_classes n) /\
    nav_anchors n' = nav_anchors n.
Proof.
  intros Hb Hn Hl. pose proof (hamburger_listener_twice b n) as H.
  unfold setupMobileMenu. rewrite Hb, Hn, Hl.
  cbn [hamburgerBtn navLinks menu_listeners effects].
  unfold click. cbn [hamburgerBtn navLinks menu_listeners effects Nat.iter nat_rect].
  destruct (hamburger_listener (hamburger_listener (b, n))) as [b2 n2].
  exists b2, n2. split; [reflexivity|exact H].
Qed.

Lemma setup_twice_disables_button_witness :
  let b := Button [js "hamburger"] (Some (js "false")) in
  let n := Nav [js "nav"] [Some (js "#about")] in
  let m := Menu (Some b) (Some n) 0 [] in
  exists b' n',
    click (fun _ => NoElement) OnHamburger (setupMobileMenu (setupMobileMenu m))
      = Menu (Some b') (Some n') 2 (effects m) /\
    same_tokens (button_classes b') (button_classes b) /\
    aria_expanded b'
      = Some (string_of_bool (contains (js "is-active") (button_classes b))) /\
    same_tokens (nav_classes n') (nav_classes n) /\
    nav_anchors n' = nav_anchors n.
Proof.
  refine (setup_twice_disables_button (fun _ => NoElement)
            (Menu (Some (Button [js "hamburger"] (Some (js "false"))))
               (Some (Nav [js "nav"] [Some (js "#about")])) 0 [])
            (Button [js "hamburger"] (Some (js "false")))
            (Nav [js "nav"] [Some (js "#about")]) _ _ _);
    reflexivity.
Defined.
